(** * tiny-kingdoms: damage model and wave engine

    A shallow embedding of [config/damage.config.ts], [config/enemies.config.ts],
    [config/waves.config.ts] and [systems/WaveSystemV2.ts], and the properties
    of the specification checked against it; then, for the further
    properties at the end, of the difficulty and tower tables, of the
    classes [EnemyUnit], [Tower] and [Projectile], and of the gold, lives
    and tower bookkeeping of [scenes/BattleScene.ts].

    Conventions.  A JavaScript [number] that is an integer by construction
    (wave numbers, counts, indices, the results of [Math.floor], [Math.round]
    and [Math.ceil]) is a [Z]; every other [number] is an exact rational [Q],
    the decimal literals of the source denoting themselves.  [Math.floor] is
    [Qfloor], [Math.ceil] is [Qceiling], [Math.round x] is [Qfloor (x + 1/2)].
    The program computes in IEEE 754 binary64: [Double.round] rounds a
    rational to the nearest double, and the product that [spawnEnemy]
    floors is rounded with it.  The damage function, the multipliers of a
    wave and the theme allocation are embedded a second time in binary64
    arithmetic, operation by operation (module [Binary64]), to state in the
    arithmetic the program runs in what depends on the last bit of a
    product.  String-valued enums are inductive types.  A
    [Record<string, T>] is an association list in the source's key order,
    read with a lookup that returns [option]. *)

From Stdlib Require Import ZArith QArith Qround Qpower List String Bool Lia Lqa
  Permutation.
From Stdlib Require Floats Uint63.
Import ListNotations.

Local Open Scope Z_scope.
Local Open Scope Q_scope.

(** ** Numbers *)

Definition Math_floor (x : Q) : Z := Qfloor x.
Definition Math_ceil (x : Q) : Z := Qceiling x.
Definition Math_round (x : Q) : Z := Qfloor (x + (1 # 2)).

Definition Math_min (a b : Q) : Q := if Qle_bool a b then a else b.

(** [a > b] and [a < b] on numbers, as booleans. *)
Definition Qgtb (a b : Q) : bool := negb (Qle_bool a b).
Definition Qltb (a b : Q) : bool := negb (Qle_bool b a).

(** *** Rounding to a double

    A finite JavaScript [number] is a rational with at most 53 significant
    bits.  [Double.round] rounds a rational to the nearest one, a tie to
    the even significand, as each arithmetic operation of the program
    rounds its exact result; below [2 ^ -1022] the spacing of the numbers
    stays at [2 ^ -1074].  The exponent has no upper limit here: no value
    of the program comes near the largest double. *)

Module Double.

(** [floor (log2 x)] for a positive [x]. *)
Definition binade (x : Q) : Z :=
  let l := (Z.log2 (Qnum x) - Z.log2 (Zpos (Qden x)))%Z in
  if Qle_bool (2 ^ l) x then l else (l - 1)%Z.

(** The exponent of the last of the 53 bits of a positive [x]. *)
Definition ulp_exponent (x : Q) : Z := Z.max (binade x - 52) (-1074).

(** The nearest integer, a tie going to the even one. *)
Definition round_half_even (x : Q) : Z :=
  let f := Qfloor x in
  match Qcompare (x - inject_Z f) (1 # 2) with
  | Lt => f
  | Gt => (f + 1)%Z
  | Eq => if Z.even f then f else (f + 1)%Z
  end.

Definition round_positive (x : Q) : Q :=
  let e := ulp_exponent x in
  inject_Z (round_half_even (x / 2 ^ e)) * 2 ^ e.

Definition round (x : Q) : Q :=
  match Qnum x with
  | Z0 => 0
  | Zpos _ => round_positive x
  | Zneg _ => - round_positive (- x)
  end.

(** [a + b], [a * b] and [a / b] on numbers.  An operand is read as the
    double nearest to it: itself when it is a double, and otherwise the
    double that a decimal literal of the source denotes. *)
Definition add (a b : Q) : Q := round (round a + round b).
Definition mul (a b : Q) : Q := round (round a * round b).
Definition div (a b : Q) : Q := round (round a / round b).

End Double.

(** [Record<string, T>] lookup: [None] is JavaScript's [undefined]. *)
Fixpoint lookup {T : Type} (key : string) (rec : list (string * T)) : option T :=
  match rec with
  | [] => None
  | (k, v) :: rest => if String.eqb key k then Some v else lookup key rest
  end.

(** ** config/damage.config.ts *)

Module Damage.

Inductive DamageType : Set := FIRE | PHYSICAL | ICE | LIGHT | PIERCE | VOID.

Inductive EnemyType : Set :=
  | SWARM | BEAST | ARMORED | UNDEAD | DEMON | ELEMENTAL | FLYING
  | TANK | BOSS | DRAGON | AQUATIC | HUMANOID | CONSTRUCT.

Definition EnemyType_eqb (a b : EnemyType) : bool :=
  match a, b with
  | SWARM, SWARM | BEAST, BEAST | ARMORED, ARMORED | UNDEAD, UNDEAD
  | DEMON, DEMON | ELEMENTAL, ELEMENTAL | FLYING, FLYING | TANK, TANK
  | BOSS, BOSS | DRAGON, DRAGON | AQUATIC, AQUATIC | HUMANOID, HUMANOID
  | CONSTRUCT, CONSTRUCT => true
  | _, _ => false
  end.

Record TowerDamageProfile : Set := {
  primary : DamageType;
  secondary : option DamageType;
  primaryRatio : Q
}.

Definition TOWER_DAMAGE_PROFILES : list (string * TowerDamageProfile) :=
  [ ("ember_watch"%string,
      {| primary := FIRE; secondary := None; primaryRatio := 1.0 |});
    ("rockbound_bastion"%string,
      {| primary := PHYSICAL; secondary := None; primaryRatio := 1.0 |});
    ("frostcoil_tower"%string,
      {| primary := ICE; secondary := None; primaryRatio := 1.0 |});
    ("sunflare_cannon"%string,
      {| primary := LIGHT; secondary := Some FIRE; primaryRatio := 0.7 |});
    ("ironspike_launcher"%string,
      {| primary := PIERCE; secondary := Some PHYSICAL; primaryRatio := 0.75 |});
    ("pyrehold"%string,
      {| primary := FIRE; secondary := Some PHYSICAL; primaryRatio := 0.65 |});
    ("void_obelisk"%string,
      {| primary := VOID; secondary := None; primaryRatio := 1.0 |});
    ("stone_mortar"%string,
      {| primary := PHYSICAL; secondary := Some PIERCE; primaryRatio := 0.8 |});
    ("dread_pyre"%string,
      {| primary := VOID; secondary := Some FIRE; primaryRatio := 0.6 |}) ].

(** One resistance row: a multiplier per damage type. *)
Record DamageMultipliers : Set := {
  fire : Q; physical : Q; ice : Q; light : Q; pierce : Q; void : Q
}.

(** [multipliers[damageType]]. *)
Definition at_type (m : DamageMultipliers) (d : DamageType) : Q :=
  match d with
  | FIRE => fire m | PHYSICAL => physical m | ICE => ice m
  | LIGHT => light m | PIERCE => pierce m | VOID => void m
  end.

Definition row (f p i l pi v : Q) : DamageMultipliers :=
  {| fire := f; physical := p; ice := i; light := l; pierce := pi; void := v |}.

(** The table has an entry for each of the thirteen enemy types, so the
    source's [if (!multipliers) continue] never skips on a value of the
    enum. *)
Definition ENEMY_DAMAGE_MULTIPLIERS (t : EnemyType) : DamageMultipliers :=
  match t with
  | SWARM     => row 1.6 1.2 1.4 1.3 0.7 0.9
  | BEAST     => row 1.5 1.0 1.2 1.0 1.3 0.8
  | ARMORED   => row 1.2 0.5 1.0 1.0 1.8 1.0
  | UNDEAD    => row 1.5 0.7 0.5 1.8 0.6 0.5
  | DEMON     => row 0.5 1.0 1.5 1.8 1.1 0.7
  | ELEMENTAL => row 0.8 0.6 0.8 1.3 0.4 1.5
  | FLYING    => row 1.3 0.8 1.4 1.0 1.6 1.0
  | TANK      => row 1.1 0.6 0.9 1.0 1.4 1.2
  | BOSS      => row 1.1 1.1 1.1 1.2 1.2 1.5
  | DRAGON    => row 0.3 0.7 1.6 1.0 1.4 1.2
  | AQUATIC   => row 0.6 1.0 1.7 1.4 1.2 0.9
  | HUMANOID  => row 1.2 0.9 1.1 1.3 1.2 0.7
  | CONSTRUCT => row 0.6 1.8 0.7 0.5 0.8 0.4
  end.

(** The weighted multiplier of one enemy type, the body shared by the two
    loops of [calculateEffectiveDamage]:
    [multipliers[primary] * primaryRatio], plus
    [multipliers[secondary] * (1 - primaryRatio)] when a secondary type is
    set. *)
Definition typeMultiplier (p : TowerDamageProfile) (t : EnemyType) : Q :=
  let multipliers := ENEMY_DAMAGE_MULTIPLIERS t in
  let tm := at_type multipliers (primary p) * primaryRatio p in
  match secondary p with
  | Some s => tm + at_type multipliers s * (1 - primaryRatio p)
  | None => tm
  end.

(** First loop: [bestMultiplier] starts at [1.0] and is replaced by every
    strictly larger type multiplier. *)
Definition bestMultiplier (p : TowerDamageProfile) (enemyTypes : list EnemyType) : Q :=
  fold_left
    (fun best t => if Qgtb (typeMultiplier p t) best then typeMultiplier p t else best)
    enemyTypes 1.0.

(** Second loop: [worstMultiplier] starts at [1.0] and is replaced by every
    strictly smaller type multiplier. *)
Definition worstMultiplier (p : TowerDamageProfile) (enemyTypes : list EnemyType) : Q :=
  fold_left
    (fun worst t => if Qltb (typeMultiplier p t) worst then typeMultiplier p t else worst)
    enemyTypes 1.0.

Definition finalMultiplier (p : TowerDamageProfile) (enemyTypes : list EnemyType) : Q :=
  if (1 <? Z.of_nat (List.length enemyTypes))%Z
  then (bestMultiplier p enemyTypes + worstMultiplier p enemyTypes) / 2
  else bestMultiplier p enemyTypes.

Definition calculateEffectiveDamage
  (baseDamage : Q) (towerId : string) (enemyTypes : list EnemyType) : Q :=
  match lookup towerId TOWER_DAMAGE_PROFILES with
  | None => baseDamage
  | Some damageProfile =>
      inject_Z (Math_floor (baseDamage * finalMultiplier damageProfile enemyTypes))
  end.

End Damage.

Import Damage.

(** ** config/enemies.config.ts *)

Module Enemies.

(** The fields of [EnemyConfig] that the wave engine and the damage model
    read; the presentation fields ([name], [spriteKey], [scale], [tags],
    [animations], [abilities]) are left out. *)
Record EnemyConfig : Set := {
  id : string;
  health : Z;
  speed : Z;
  damage : Z;
  reward : Z;
  enemyTypes : list EnemyType;
  unlockWave : Z
}.

Definition mkEnemy (i : string) (h s d r : Z) (ts : list EnemyType) (u : Z)
  : string * EnemyConfig :=
  (i, {| id := i; health := h; speed := s; damage := d; reward := r;
         enemyTypes := ts; unlockWave := u |}).

Definition ENEMY_CONFIGS : list (string * EnemyConfig) :=
  [ mkEnemy "goblin" 40 45 1 8 [SWARM] 1;
    mkEnemy "tnt_runner" 25 65 1 6 [SWARM] 1;
    mkEnemy "barrel_bomber" 35 55 1 7 [SWARM] 2;
    mkEnemy "footman" 30 48 1 7 [HUMANOID; ARMORED] 2;
    mkEnemy "goblin_blue" 45 42 1 9 [SWARM] 3;
    mkEnemy "goblin_yellow" 50 40 1 10 [SWARM] 4;
    mkEnemy "tnt_runner_blue" 30 62 1 7 [SWARM; FLYING] 3;
    mkEnemy "barrel_bomber_purple" 45 50 1 10 [SWARM; UNDEAD] 4;
    mkEnemy "archer" 55 35 1 12 [HUMANOID; ARMORED] 3;
    mkEnemy "warrior" 70 38 1 14 [ARMORED; HUMANOID] 3;
    mkEnemy "rogue" 45 58 2 15 [HUMANOID; UNDEAD] 5;
    mkEnemy "dark_knight" 80 30 2 16 [UNDEAD; ARMORED] 5;
    mkEnemy "berserker" 100 28 2 18 [BEAST; TANK] 5;
    mkEnemy "iron_guard" 150 20 2 22 [CONSTRUCT; TANK] 8;
    mkEnemy "elite_scout" 90 40 2 18 [ARMORED; HUMANOID] 8;
    mkEnemy "shadow_archer" 80 28 2 25 [ELEMENTAL; UNDEAD] 10;
    mkEnemy "frost_archer" 75 32 2 20 [AQUATIC] 10;
    mkEnemy "warlord" 400 18 5 60 [BOSS; TANK] 10;
    mkEnemy "dark_lord" 600 22 8 100 [BOSS; DEMON; UNDEAD] 15 ].

End Enemies.

Import Enemies.

(** ** config/waves.config.ts *)

Module Waves.

Record WaveTheme : Set := {
  theme_id : string;
  focusTypes : list EnemyType;
  supportTypes : list EnemyType;
  wildcardTypes : list EnemyType;
  focusRatio : Q;
  supportRatio : Q;
  wildcardRatio : Q;
  segmentCount : Z;
  spawnIntervalMultiplier : Q
}.

Definition mkTheme (i : string) (f s w : list EnemyType) (fr sr wr : Q) (n : Z) (m : Q)
  : WaveTheme :=
  {| theme_id := i; focusTypes := f; supportTypes := s; wildcardTypes := w;
     focusRatio := fr; supportRatio := sr; wildcardRatio := wr;
     segmentCount := n; spawnIntervalMultiplier := m |}.

(** [EARLY_WAVE_THEMES[wave]]: keys 1 to 4. *)
Definition EARLY_WAVE_THEMES (wave : Z) : option WaveTheme :=
  if (wave =? 1)%Z then
    Some (mkTheme "intro_swarm" [SWARM] [HUMANOID] [] 0.85 0.15 0 1 1.05)
  else if (wave =? 2)%Z then
    Some (mkTheme "swarm_mix" [SWARM] [ARMORED] [] 0.7 0.3 0 2 1.0)
  else if (wave =? 3)%Z then
    Some (mkTheme "armored_check" [ARMORED] [SWARM] [] 0.6 0.4 0 2 1.0)
  else if (wave =? 4)%Z then
    Some (mkTheme "flying_intro" [FLYING] [SWARM] [] 0.55 0.45 0 2 0.95)
  else None.

Definition WAVE_THEME_CYCLE : list WaveTheme :=
  [ mkTheme "swarm_pressure" [SWARM] [HUMANOID] [ARMORED] 0.6 0.2 0.2 3 0.92;
    mkTheme "armored_push" [ARMORED] [HUMANOID] [TANK] 0.55 0.2 0.25 3 1.05;
    mkTheme "flying_strike" [FLYING] [SWARM] [ARMORED] 0.55 0.2 0.25 3 0.95;
    mkTheme "undead_curse" [UNDEAD] [ARMORED] [HUMANOID] 0.6 0.2 0.2 3 1.0;
    mkTheme "beast_tank" [BEAST; TANK] [ARMORED] [SWARM] 0.55 0.25 0.2 3 1.05;
    mkTheme "construct_wall" [CONSTRUCT] [TANK] [ARMORED] 0.55 0.25 0.2 3 1.1;
    mkTheme "elemental_surge" [ELEMENTAL; AQUATIC] [UNDEAD] [HUMANOID] 0.55 0.2 0.25 3 0.98;
    mkTheme "mixed_check" [SWARM; ARMORED; FLYING] [UNDEAD; TANK] [HUMANOID]
      0.5 0.25 0.25 4 1.0 ].

Definition BOSS_SUPPORT_THEME : WaveTheme :=
  mkTheme "boss_support" [TANK; ARMORED] [SWARM] [UNDEAD; HUMANOID] 0.5 0.3 0.2 3 1.0.

End Waves.

Import Waves.

(** ** The host: what the engine takes from the JavaScript runtime and from
    the game framework

    [Math.log] and [Math.pow] are transcendental, and the two random sources
    ([Phaser.Utils.Array.Shuffle] and [Phaser.Math.RND.pick]) belong to the
    framework; the engine is parametrised by them.  The random state is
    threaded explicitly. *)

Class Host : Type := {
  Math_log : Q -> Q;
  Math_pow : Q -> Q -> Q;
  RNG : Type;
  Shuffle : list string -> RNG -> list string * RNG;
  RND_pick : list string -> RNG -> string * RNG
}.

(** What the framework documents of its two random sources: a shuffle
    returns a rearrangement of its argument, and a pick from a non-empty
    array returns one of its elements. *)
Class HostLaws (h : Host) : Prop := {
  Shuffle_length :
    forall l g, List.length (fst (Shuffle l g)) = List.length l;
  Shuffle_incl :
    forall l g x, In x (fst (Shuffle l g)) -> In x l;
  RND_pick_In :
    forall l g, l <> [] -> In (fst (RND_pick l g)) l
}.

(** A computation that draws from the random state and may run out of
    fuel ([None]); only the [while] loop of [buildSequenceFromPool] can. *)
Definition M `{Host} (A : Type) : Type := RNG -> option (A * RNG).

Definition ret `{Host} {A : Type} (a : A) : M A := fun g => Some (a, g).

Definition bind `{Host} {A B : Type} (c : M A) (k : A -> M B) : M B :=
  fun g => match c g with
           | Some (a, g') => k a g'
           | None => None
           end.

Definition fail `{Host} {A : Type} : M A := fun _ => None.

Definition lift `{Host} {A : Type} (f : RNG -> A * RNG) : M A :=
  fun g => Some (f g).

Notation "x <- c ;; k" := (bind c (fun x => k))
  (at level 61, c at next level, right associativity).

(** *** The scene clock and event emitter

    [scene.time.delayedCall(delay, callback)] registers a one-shot timer and
    returns it; the caller may keep the returned object.  A timer is
    identified here by its position in the clock's list, so that an array of
    kept timers is a list of positions into the one shared clock.  A timer
    that is paused does not accumulate time; one that is destroyed never
    fires; a timer fires once, when its accumulated time reaches its
    delay. *)

Module Scaling.
Record t : Set := {
  enemyCount : Z;
  healthMultiplier : Q;
  speedMultiplier : Q;
  rewardMultiplier : Q;
  spawnInterval : Z
}.
End Scaling.

(** The two callbacks that [startNextWave] hands to [delayedCall]. *)
Inductive Callback : Set :=
  | SpawnCallback (enemyType : string) (scaling : Scaling.t)
  | SpawningDoneCallback.

Record TimerEvent : Set := {
  delay : Q;
  elapsed : Q;
  paused : bool;
  hasDispatched : bool;
  destroyed : bool;
  callback : Callback
}.

Record EnemyUnit : Set := { config : EnemyConfig }.

Inductive SceneEvent : Set :=
  | waveStarted (wave : Z)
  | enemySpawned (unit : EnemyUnit).

Record Scene : Set := {
  time : list TimerEvent;
  events : list SceneEvent
}.

Definition emit (e : SceneEvent) (sc : Scene) : Scene :=
  {| time := time sc; events := events sc ++ [e] |}.

(** [delayedCall]: the new timer and the position it is known by. *)
Definition delayedCall (d : Q) (cb : Callback) (sc : Scene) : nat * Scene :=
  (List.length (time sc),
   {| time := time sc ++ [ {| delay := d; elapsed := 0; paused := false;
                              hasDispatched := false; destroyed := false;
                              callback := cb |} ];
      events := events sc |}).

(** Apply [f] to the timer at position [i]. *)
Fixpoint update_timer (f : TimerEvent -> TimerEvent) (i : nat) (ts : list TimerEvent)
  : list TimerEvent :=
  match ts, i with
  | [], _ => []
  | t :: rest, O => f t :: rest
  | t :: rest, S j => t :: update_timer f j rest
  end.

Definition set_paused (b : bool) (t : TimerEvent) : TimerEvent :=
  {| delay := delay t; elapsed := elapsed t; paused := b;
     hasDispatched := hasDispatched t; destroyed := destroyed t;
     callback := callback t |}.

Definition destroy (t : TimerEvent) : TimerEvent :=
  {| delay := delay t; elapsed := elapsed t; paused := paused t;
     hasDispatched := hasDispatched t; destroyed := true;
     callback := callback t |}.

(** A timer is live when it can still fire. *)
Definition live (t : TimerEvent) : bool :=
  negb (hasDispatched t) && negb (destroyed t).

(** One clock tick of [delta] milliseconds on one timer: the timer after the
    tick, and whether it fires in this tick. *)
Definition tick_timer (delta : Q) (t : TimerEvent) : TimerEvent * bool :=
  if live t && negb (paused t) then
    let e := elapsed t + delta in
    if Qle_bool (delay t) e then
      ({| delay := delay t; elapsed := e; paused := paused t;
          hasDispatched := true; destroyed := destroyed t;
          callback := callback t |}, true)
    else
      ({| delay := delay t; elapsed := e; paused := paused t;
          hasDispatched := hasDispatched t; destroyed := destroyed t;
          callback := callback t |}, false)
  else (t, false).

(** One clock tick over all timers, in registration order: the timers after
    the tick and the callbacks that fire, in firing order. *)
Fixpoint tick_timers (delta : Q) (ts : list TimerEvent)
  : list TimerEvent * list Callback :=
  match ts with
  | [] => ([], [])
  | t :: rest =>
      let '(t', fired) := tick_timer delta t in
      let '(rest', cbs) := tick_timers delta rest in
      (t' :: rest', if fired then callback t :: cbs else cbs)
  end.

(** ** JavaScript array helpers *)

(** [l.slice(0, e)]: a negative [e] counts from the end. *)
Definition slice0 {A : Type} (l : list A) (e : Z) : list A :=
  if (e <? 0)%Z
  then firstn (Z.to_nat (Z.of_nat (List.length l) + e)) l
  else firstn (Z.to_nat e) l.

(** [l.splice(at, 0, x)] for [0 <= at]: insert [x] before position [at]
    (at the end when [at] is the length). *)
Definition splice_insert {A : Type} (l : list A) (at_ : Z) (x : A) : list A :=
  firstn (Z.to_nat at_) l ++ x :: skipn (Z.to_nat at_) l.

(** [batch.push(batch.shift())]: move the first element to the end. *)
Definition rotate1 {A : Type} (l : list A) : list A :=
  match l with
  | [] => []
  | x :: rest => rest ++ [x]
  end.

(** [Array.from({ length: n }, () => x)]. *)
Definition array_of {A : Type} (n : Z) (x : A) : list A := repeat x (Z.to_nat n).

Definition len {A : Type} (l : list A) : Z := Z.of_nat (List.length l).

(** [l.splice(i, 1)]: remove the element at position [i]. *)
Definition splice_remove {A : Type} (l : list A) (i : nat) : list A :=
  firstn i l ++ skipn (S i) l.

(** The object at position [i] after a method has changed it in place. *)
Definition assign {A : Type} (l : list A) (i : nat) (x : A) : list A :=
  firstn i l ++ x :: skipn (S i) l.

(** ** systems/WaveSystemV2.ts *)

Module WaveSystemV2.

(** The fields of the class.  [scene] is the shared scene (its clock and its
    event emitter); [spawnTimers] holds the timers the system kept, as
    positions in the scene clock. *)
Record t : Set := {
  scene : Scene;
  enemies : list EnemyUnit;
  currentWave : Z;
  isSpawning : bool;
  waveInProgress : bool;
  spawnTimers : list nat;
  enemiesSpawnedThisWave : Z;
  enemyTypes : list string;
  rewardMultiplier : Q;
  healthMultiplier : Q;
  enemyCountMultiplier : Q;
  speedMultiplier : Q
}.

(** [new WaveSystemV2(scene, config)], the multipliers already defaulted. *)
Definition constructor (sc : Scene) (reward health count speed : Q) : t :=
  {| scene := sc; enemies := []; currentWave := 0; isSpawning := false;
     waveInProgress := false; spawnTimers := []; enemiesSpawnedThisWave := 0;
     enemyTypes := map fst ENEMY_CONFIGS;
     rewardMultiplier := reward; healthMultiplier := health;
     enemyCountMultiplier := count; speedMultiplier := speed |}.

(** [config.enemyTypes?.some(t => t === 'boss')]. *)
Definition isBoss (config : EnemyConfig) : bool :=
  existsb (EnemyType_eqb BOSS) (Enemies.enemyTypes config).

Definition getAvailableEnemyTypes (this : t) : list string :=
  let wave := currentWave this in
  let available :=
    filter (fun enemyId =>
              match lookup enemyId ENEMY_CONFIGS with
              | Some config => (unlockWave config <=? wave)%Z && negb (isBoss config)
              | None => false
              end) (enemyTypes this) in
  if (len available =? 0)%Z then ["goblin"%string] else available.

Definition getAvailableBossTypes (this : t) : list string :=
  let wave := currentWave this in
  filter (fun enemyId =>
            match lookup enemyId ENEMY_CONFIGS with
            | Some config => (unlockWave config <=? wave)%Z && isBoss config
            | None => false
            end) (enemyTypes this).

(** [currentWave % 10 === 0 && currentWave > 0], the test [startNextWave]
    makes after incrementing the counter. *)
Definition isBossWaveNumber (wave : Z) : bool :=
  (Z.rem wave 10 =? 0)%Z && (0 <? wave)%Z.

Definition getSegmentCount (total preferred : Z) : Z :=
  let dynamic := (total / 8 + 1)%Z in
  Z.max 1 (Z.min preferred (Z.min 4 dynamic)).

Record ThemeCounts : Set := {
  focusCount : Z;
  supportCount : Z;
  wildcardCount : Z
}.

(** The three local constants [focusRatio], [supportRatio] and
    [wildcardRatio] of [allocateThemeCounts]: the theme's ratios divided by
    their sum, or 1, 0, 0 when the sum is not positive. *)
Definition normFocusRatio (theme : WaveTheme) : Q :=
  let ratioTotal := Waves.focusRatio theme + Waves.supportRatio theme + Waves.wildcardRatio theme in
  if Qgtb ratioTotal 0 then Waves.focusRatio theme / ratioTotal else 1.

Definition normSupportRatio (theme : WaveTheme) : Q :=
  let ratioTotal := Waves.focusRatio theme + Waves.supportRatio theme + Waves.wildcardRatio theme in
  if Qgtb ratioTotal 0 then Waves.supportRatio theme / ratioTotal else 0.

Definition normWildcardRatio (theme : WaveTheme) : Q :=
  let ratioTotal := Waves.focusRatio theme + Waves.supportRatio theme + Waves.wildcardRatio theme in
  if Qgtb ratioTotal 0 then Waves.wildcardRatio theme / ratioTotal else 0.

Definition allocateThemeCounts (total : Z) (theme : WaveTheme) : ThemeCounts :=
  let focusCount := Math_floor (inject_Z total * normFocusRatio theme) in
  let supportCount := Math_floor (inject_Z total * normSupportRatio theme) in
  let wildcardCount := (total - focusCount - supportCount)%Z in
  let '(focusCount, wildcardCount) :=
    if (0 <? total)%Z && (focusCount =? 0)%Z
    then (1%Z, (total - 1 - supportCount)%Z)
    else (focusCount, wildcardCount) in
  if (wildcardCount <? 0)%Z then
    if (0 <? supportCount)%Z
    then {| focusCount := focusCount; supportCount := (total - focusCount)%Z;
            wildcardCount := 0 |}
    else {| focusCount := total; supportCount := supportCount; wildcardCount := 0 |}
  else {| focusCount := focusCount; supportCount := supportCount;
          wildcardCount := wildcardCount |}.

Definition getEnemyPoolByTypes (availableTypes : list string) (types : list EnemyType)
  : list string :=
  if (len types =? 0)%Z then []
  else
    filter (fun enemyId =>
              match lookup enemyId ENEMY_CONFIGS with
              | None => false
              | Some config =>
                  existsb (fun enemyType => existsb (EnemyType_eqb enemyType) types)
                          (Enemies.enemyTypes config)
              end) availableTypes.

(** [getNewEnemyTypesForWave]: the non-boss types of the archetypes whose
    unlock wave is the current wave, as a [Set] in insertion order. *)
Definition set_add (x : EnemyType) (s : list EnemyType) : list EnemyType :=
  if existsb (EnemyType_eqb x) s then s else s ++ [x].

Definition getNewEnemyTypesForWave (this : t) : list EnemyType :=
  fold_left
    (fun types config =>
       if (unlockWave config =? currentWave this)%Z
       then fold_left
              (fun types enemyType =>
                 if EnemyType_eqb enemyType BOSS then types else set_add enemyType types)
              (Enemies.enemyTypes config) types
       else types)
    (map snd ENEMY_CONFIGS) [].

Definition strategicTypes : list EnemyType :=
  [FLYING; ARMORED; UNDEAD; CONSTRUCT; TANK; ELEMENTAL; AQUATIC; BEAST].

Definition getUnlockTheme (this : t) (availableTypes : list string) : option WaveTheme :=
  let newlyUnlockedTypes := getNewEnemyTypesForWave this in
  if (len newlyUnlockedTypes =? 0)%Z then None
  else
    let focusTypes :=
      filter (fun type => existsb (EnemyType_eqb type) strategicTypes) newlyUnlockedTypes in
    if (len focusTypes =? 0)%Z then None
    else if (len (getEnemyPoolByTypes availableTypes focusTypes) =? 0)%Z then None
    else Some (mkTheme "new_threat" focusTypes [SWARM; HUMANOID; ARMORED] [TANK]
                       0.65 0.25 0.1 3 1.0).

Definition getWaveTheme (this : t) (availableTypes : list string) (isBossWave : bool)
  : WaveTheme :=
  if isBossWave then BOSS_SUPPORT_THEME
  else
    match EARLY_WAVE_THEMES (currentWave this) with
    | Some earlyTheme => earlyTheme
    | None =>
        match getUnlockTheme this availableTypes with
        | Some unlockTheme => unlockTheme
        | None =>
            let cycleIndex :=
              Z.rem (Z.max 0 (currentWave this - 5)) (len WAVE_THEME_CYCLE) in
            nth (Z.to_nat cycleIndex) WAVE_THEME_CYCLE BOSS_SUPPORT_THEME
        end
    end.

Section Engine.

Context `{Host}.

(** The multipliers are the exact values of their formulas here;
    [Binary64.healthMultiplier], [Binary64.speedMultiplier] and
    [Binary64.rewardMultiplier] further down round each operation. *)
Definition getWaveScaling (this : t) (theme : option WaveTheme) : Scaling.t :=
  let wave := inject_Z (currentWave this) in
  let baseCount := 5 in
  let enemyCount :=
    Math_floor ((baseCount + wave * 1.5 + Math_log (wave + 1) * 3)
                * enemyCountMultiplier this) in
  let healthMultiplier :=
    (1 + (wave - 1) * 0.15 + Math_pow (wave / 10) 1.5) * healthMultiplier this in
  let speedMultiplier := (1 + Math_min (wave * 0.04) 0.5) * speedMultiplier this in
  let rewardGrowth := Math_min 1.25 (0.95 + Math_log (wave + 1) * 0.08) in
  let rewardMultiplier := rewardGrowth * rewardMultiplier this in
  let spawnInterval := Z.max 300 (800 - currentWave this * 30) in
  let spawnInterval :=
    match theme with
    | Some theme =>
        Z.max 280 (Math_round (inject_Z spawnInterval * spawnIntervalMultiplier theme))
    | None => spawnInterval
    end in
  {| Scaling.enemyCount := enemyCount;
     Scaling.healthMultiplier := healthMultiplier;
     Scaling.speedMultiplier := speedMultiplier;
     Scaling.rewardMultiplier := rewardMultiplier;
     Scaling.spawnInterval := spawnInterval |}.

(** The seam rule of [buildSequenceFromPool]: when the sequence is not
    empty, the batch has more than one element and the last element of the
    sequence equals the first of the batch, the batch is rotated by one. *)
Definition seam (sequence batch : list string) : list string :=
  match rev sequence, batch with
  | lastElem :: _, first :: _ :: _ =>
      if String.eqb lastElem first then rotate1 batch else batch
  | _, _ => batch
  end.

(** The [while (sequence.length < count)] loop; each pass draws one shuffled
    copy of the pool.  [fuel] bounds the number of passes. *)
Fixpoint buildLoop (fuel : nat) (pool : list string) (count : Z) (sequence : list string)
  : M (list string) :=
  if (len sequence <? count)%Z then
    match fuel with
    | O => fail
    | S fuel' =>
        batch <- lift (Shuffle pool) ;;
        buildLoop fuel' pool count (sequence ++ seam sequence batch)
    end
  else ret sequence.

(** A pass adds at least one element, so [count] passes are enough. *)
Definition buildSequenceFromPool (pool : list string) (count : Z) : M (list string) :=
  if (len pool =? 0)%Z || (count <=? 0)%Z then ret []
  else
    sequence <- buildLoop (Z.to_nat count) pool count [] ;;
    ret (slice0 sequence count).

Record Segment : Set := { pool : list string; size : Z }.

(** [for (const segment of segments) composition.push(...)]. *)
Fixpoint buildSegments (segments : list Segment) (composition : list string)
  : M (list string) :=
  match segments with
  | [] => ret composition
  | segment :: rest =>
      part <- buildSequenceFromPool (pool segment) (size segment) ;;
      buildSegments rest (composition ++ part)
  end.

Definition planSegments
  (count : Z) (resolvedFocusPool resolvedSupportPool resolvedWildcardPool : list string)
  (counts : ThemeCounts) (segmentCount : Z) : list Segment :=
  let focusCount := focusCount counts in
  let supportCount := supportCount counts in
  let wildcardCount := wildcardCount counts in
  if (segmentCount <=? 1)%Z then
    [ {| pool := resolvedFocusPool; size := count |} ]
  else if (segmentCount =? 2)%Z then
    [ {| pool := resolvedFocusPool; size := focusCount |};
      {| pool := resolvedSupportPool; size := (count - focusCount)%Z |} ]
  else
    let focusFirst := Math_ceil (inject_Z focusCount / 2) in
    let focusSecond := (focusCount - focusFirst)%Z in
    let supportSize :=
      (supportCount + (if (segmentCount <? 4)%Z then wildcardCount else 0))%Z in
    [ {| pool := resolvedFocusPool; size := focusFirst |} ]
    ++ (if (0 <? supportSize)%Z
        then [ {| pool := resolvedSupportPool; size := supportSize |} ] else [])
    ++ (if (4 <=? segmentCount)%Z && (0 <? wildcardCount)%Z
        then [ {| pool := resolvedWildcardPool; size := wildcardCount |} ] else [])
    ++ (if (0 <? focusSecond)%Z
        then [ {| pool := resolvedFocusPool; size := focusSecond |} ] else []).

Definition generateThemedComposition
  (count : Z) (availableTypes : list string) (theme : WaveTheme) : M (list string) :=
  let basePool :=
    if (0 <? len availableTypes)%Z then availableTypes else ["goblin"%string] in
  let focusPool := getEnemyPoolByTypes basePool (focusTypes theme) in
  let supportPool := getEnemyPoolByTypes basePool (supportTypes theme) in
  let wildcardPool := getEnemyPoolByTypes basePool (wildcardTypes theme) in
  let resolvedFocusPool := if (0 <? len focusPool)%Z then focusPool else basePool in
  let resolvedSupportPool :=
    if (0 <? len supportPool)%Z then supportPool else resolvedFocusPool in
  let resolvedWildcardPool :=
    if (0 <? len wildcardPool)%Z then wildcardPool else resolvedSupportPool in
  let counts := allocateThemeCounts count theme in
  let segmentCount := getSegmentCount count (Waves.segmentCount theme) in
  let segments :=
    planSegments count resolvedFocusPool resolvedSupportPool resolvedWildcardPool
                 counts segmentCount in
  composition <- buildSegments segments [] ;;
  composition <-
    (if (len composition <? count)%Z
     then extra <- buildSequenceFromPool resolvedFocusPool (count - len composition) ;;
          ret (composition ++ extra)
     else ret composition) ;;
  ret (slice0 composition count).

(** The boss insertion loop, [for (let i = 0; i < bossCount; i++)], as a
    recursion on the number of passes left. *)
Fixpoint insertBosses (passes : nat) (i spacing : Z) (bossType : string)
  (spaced : list string) : list string :=
  match passes with
  | O => spaced
  | S passes' =>
      let insertAt := Z.min (len spaced) (spacing * (i + 1) + i) in
      insertBosses passes' (i + 1) spacing bossType (splice_insert spaced insertAt bossType)
  end.

(** When [supportComposition] is not empty [bossCount + 1] is at least 2;
    otherwise the function has returned before the division. *)
Definition generateWaveComposition
  (this : t) (count : Z) (availableTypes : list string) (theme : WaveTheme)
  (isBossWave : bool) : M (list string) :=
  let availableBosses := getAvailableBossTypes this in
  if isBossWave && (0 <? len availableBosses)%Z then
    let maxBosses := Z.max 1 (currentWave this / 25) in
    let bossCount := Z.min count maxBosses in
    bossType <- lift (RND_pick availableBosses) ;;
    let remaining := Z.max 0 (count - bossCount) in
    supportComposition <-
      generateThemedComposition remaining availableTypes BOSS_SUPPORT_THEME ;;
    if (len supportComposition =? 0)%Z then ret (array_of bossCount bossType)
    else
      let spacing := Z.max 1 (len supportComposition / (bossCount + 1)) in
      ret (insertBosses (Z.to_nat bossCount) 0 spacing bossType supportComposition)
  else generateThemedComposition count availableTypes theme.

(** Field updates of the class instance. *)
Definition with_scene (sc : Scene) (this : t) : t :=
  {| scene := sc; enemies := enemies this; currentWave := currentWave this;
     isSpawning := isSpawning this; waveInProgress := waveInProgress this;
     spawnTimers := spawnTimers this;
     enemiesSpawnedThisWave := enemiesSpawnedThisWave this;
     enemyTypes := enemyTypes this; rewardMultiplier := rewardMultiplier this;
     healthMultiplier := healthMultiplier this;
     enemyCountMultiplier := enemyCountMultiplier this;
     speedMultiplier := speedMultiplier this |}.

Definition with_enemies (es : list EnemyUnit) (this : t) : t :=
  {| scene := scene this; enemies := es; currentWave := currentWave this;
     isSpawning := isSpawning this; waveInProgress := waveInProgress this;
     spawnTimers := spawnTimers this;
     enemiesSpawnedThisWave := enemiesSpawnedThisWave this;
     enemyTypes := enemyTypes this; rewardMultiplier := rewardMultiplier this;
     healthMultiplier := healthMultiplier this;
     enemyCountMultiplier := enemyCountMultiplier this;
     speedMultiplier := speedMultiplier this |}.

Definition with_flags (wave : Z) (spawning inProgress : bool) (spawned : Z) (this : t) : t :=
  {| scene := scene this; enemies := enemies this; currentWave := wave;
     isSpawning := spawning; waveInProgress := inProgress;
     spawnTimers := spawnTimers this;
     enemiesSpawnedThisWave := spawned;
     enemyTypes := enemyTypes this; rewardMultiplier := rewardMultiplier this;
     healthMultiplier := healthMultiplier this;
     enemyCountMultiplier := enemyCountMultiplier this;
     speedMultiplier := speedMultiplier this |}.

Definition with_spawnTimers (timers : list nat) (this : t) : t :=
  {| scene := scene this; enemies := enemies this; currentWave := currentWave this;
     isSpawning := isSpawning this; waveInProgress := waveInProgress this;
     spawnTimers := timers;
     enemiesSpawnedThisWave := enemiesSpawnedThisWave this;
     enemyTypes := enemyTypes this; rewardMultiplier := rewardMultiplier this;
     healthMultiplier := healthMultiplier this;
     enemyCountMultiplier := enemyCountMultiplier this;
     speedMultiplier := speedMultiplier this |}.

(** [Math.floor(base * multiplier)]: the product is a double before it is
    floored. *)
Definition scale (base : Z) (multiplier : Q) : Z :=
  Math_floor (Double.mul (inject_Z base) multiplier).

Definition spawnFallbackEnemy (scaling : Scaling.t) (this : t) : t :=
  let fallbackConfig :=
    {| id := "fallback";
       health := scale 30 (Scaling.healthMultiplier scaling);
       speed := scale 80 (Scaling.speedMultiplier scaling);
       damage := 1;
       reward := scale 10 (Scaling.rewardMultiplier scaling);
       Enemies.enemyTypes := [SWARM; HUMANOID];
       unlockWave := 1 |} in
  let enemy := {| config := fallbackConfig |} in
  let this := with_enemies (enemies this ++ [enemy]) this in
  with_scene (emit (enemySpawned enemy) (scene this)) this.

(** [spawnEnemy] reads its archetype from [ENEMY_CONFIGS], an object of the
    module that a holder of one of its entries could write to.  The
    catalog is therefore passed in and handed back: the spread
    [{ ...baseConfig, health: ... }] copies the entry into a new object, and
    nothing is assigned to the entry. *)
Definition spawnEnemy (type : string) (scaling : Scaling.t)
  (catalog : list (string * EnemyConfig)) (this : t)
  : list (string * EnemyConfig) * t :=
  match lookup type catalog with
  | None => (catalog, spawnFallbackEnemy scaling this)
  | Some baseConfig =>
      let scaledConfig :=
        {| id := id baseConfig;
           health := scale (health baseConfig) (Scaling.healthMultiplier scaling);
           speed := scale (speed baseConfig) (Scaling.speedMultiplier scaling);
           damage := damage baseConfig;
           reward := scale (reward baseConfig) (Scaling.rewardMultiplier scaling);
           Enemies.enemyTypes := Enemies.enemyTypes baseConfig;
           unlockWave := unlockWave baseConfig |} in
      let enemy := {| config := scaledConfig |} in
      let this := with_enemies (enemies this ++ [enemy]) this in
      (catalog, with_scene (emit (enemySpawned enemy) (scene this)) this)
  end.

(** The bodies of the two closures that [startNextWave] registers. *)
Definition runCallback (cb : Callback) (this : t) : t :=
  match cb with
  | SpawnCallback enemyType scaling =>
      let '(_, this) := spawnEnemy enemyType scaling ENEMY_CONFIGS this in
      with_flags (currentWave this) (isSpawning this) (waveInProgress this)
                 (enemiesSpawnedThisWave this + 1) this
  | SpawningDoneCallback =>
      with_flags (currentWave this) false (waveInProgress this)
                 (enemiesSpawnedThisWave this) this
  end.

(** The [forEach] of [startNextWave]: one delayed call per entry, each kept
    in [spawnTimers]. *)
Fixpoint scheduleSpawns (waveComposition : list string) (index : Z)
  (scaling : Scaling.t) (gameSpeed : Q) (this : t) : t :=
  match waveComposition with
  | [] => this
  | enemyType :: rest =>
      let spawnDelay :=
        inject_Z (index * Scaling.spawnInterval scaling) / gameSpeed in
      let '(timer, sc) :=
        delayedCall spawnDelay (SpawnCallback enemyType scaling) (scene this) in
      let this := with_scene sc this in
      let this := with_spawnTimers (spawnTimers this ++ [timer]) this in
      scheduleSpawns rest (index + 1) scaling gameSpeed this
  end.

(** [startNextWave(gameSpeed)]: the returned boolean and the instance after
    the call.  The timer of the closing [delayedCall] is not kept.  The
    delays are those of a [gameSpeed] other than 0: dividing by 0 gives 0
    here, and [Infinity] or [NaN] in the program. *)
Definition startNextWave (gameSpeed : Q) (this : t) : M (bool * t) :=
  if waveInProgress this then ret (false, this)
  else
    let this := with_flags (currentWave this + 1) true true 0 this in
    let availableTypes := getAvailableEnemyTypes this in
    let isBossWave := isBossWaveNumber (currentWave this) in
    let theme := getWaveTheme this availableTypes isBossWave in
    let scaling := getWaveScaling this (Some theme) in
    let this := with_scene (emit (waveStarted (currentWave this)) (scene this)) this in
    waveComposition <-
      generateWaveComposition this (Scaling.enemyCount scaling) availableTypes theme
                              isBossWave ;;
    let this := scheduleSpawns waveComposition 0 scaling gameSpeed this in
    let totalSpawnTime :=
      inject_Z ((len waveComposition - 1) * Scaling.spawnInterval scaling + 500)
      / gameSpeed in
    let '(_, sc) := delayedCall totalSpawnTime SpawningDoneCallback (scene this) in
    ret (true, with_scene sc this).

(** Apply [f] to every timer kept in [spawnTimers]. *)
Definition forEachSpawnTimer (f : TimerEvent -> TimerEvent) (this : t) : t :=
  with_scene
    {| time := fold_left (fun ts timer => update_timer f timer ts)
                         (spawnTimers this) (time (scene this));
       events := events (scene this) |}
    this.

Definition clear (this : t) : t :=
  let this := forEachSpawnTimer destroy this in
  let this := with_spawnTimers [] this in
  let this := with_enemies [] this in
  with_flags (currentWave this) false false (enemiesSpawnedThisWave this) this.

Definition pauseSpawning (this : t) : t :=
  forEachSpawnTimer
    (fun timer => if negb (hasDispatched timer) then set_paused true timer else timer)
    this.

Definition resumeSpawning (this : t) : t :=
  forEachSpawnTimer
    (fun timer => if negb (hasDispatched timer) then set_paused false timer else timer)
    this.

(** The scene clock advancing by [delta] milliseconds: every timer ticks,
    then the callbacks that fired run on the instance, in order. *)
Definition clockUpdate (delta : Q) (this : t) : t :=
  let '(ts, fired) := tick_timers delta (time (scene this)) in
  let this := with_scene {| time := ts; events := events (scene this) |} this in
  fold_left (fun this cb => runCallback cb this) fired this.

End Engine.

End WaveSystemV2.

Import WaveSystemV2.

(** ** A host to run the engine on

    The random state is a counter; a shuffle rotates the array by the
    counter, a pick indexes it by the counter.  [Math.log] and [Math.pow]
    are tabulated to four decimals at the arguments the examples reach
    (waves 1, 2, 10 and 21). *)

Fixpoint rotate {A : Type} (n : nat) (l : list A) : list A :=
  match n with
  | O => l
  | S n' => rotate n' (rotate1 l)
  end.

Definition sample_log (x : Q) : Q :=
  if Qeq_bool x 2 then 0.6931
  else if Qeq_bool x 3 then 1.0986
  else if Qeq_bool x 11 then 2.3979
  else if Qeq_bool x 22 then 3.0910
  else 0.

Definition sample_pow (x y : Q) : Q :=
  if Qeq_bool x 0.1 then 0.0316
  else if Qeq_bool x 0.2 then 0.0894
  else if Qeq_bool x 1 then 1
  else if Qeq_bool x 2.1 then 3.0432
  else 0.

Definition sampleHost : Host :=
  {| Math_log := sample_log;
     Math_pow := sample_pow;
     RNG := nat;
     Shuffle := fun l g => (rotate (g mod List.length l) l, S g);
     RND_pick := fun l g => (nth (g mod List.length l) l ""%string, S g) |}.

Definition emptyScene : Scene := {| time := []; events := [] |}.

(** A fresh instance with every difficulty multiplier at its default. *)
Definition freshSystem : WaveSystemV2.t := constructor emptyScene 1 1 1 1.

Definition atWave (wave : Z) (this : WaveSystemV2.t) : WaveSystemV2.t :=
  with_flags wave (isSpawning this) (waveInProgress this)
             (enemiesSpawnedThisWave this) this.

(** ** The specification's formulas, for comparison with the code *)

(** Section 4.1, steps 2 to 5, for a tower with a damage profile: [best] and
    [worst] are the largest and the smallest blended multiplier over the
    enemy's tags, the final multiplier is [best] for one tag and the mean of
    the two for more, and the damage is the floor of the product. *)
Definition Qmax2 (a b : Q) : Q := if Qle_bool a b then b else a.

Definition bestMultiplier_spec (p : TowerDamageProfile) (tags : list EnemyType) : Q :=
  match tags with
  | [] => 1
  | tag :: rest => fold_left (fun b tag' => Qmax2 b (typeMultiplier p tag')) rest
                             (typeMultiplier p tag)
  end.

Definition worstMultiplier_spec (p : TowerDamageProfile) (tags : list EnemyType) : Q :=
  match tags with
  | [] => 1
  | tag :: rest => fold_left (fun w tag' => Math_min w (typeMultiplier p tag')) rest
                             (typeMultiplier p tag)
  end.

Definition finalMultiplier_spec (p : TowerDamageProfile) (tags : list EnemyType) : Q :=
  match tags with
  | [] => 1
  | [tag] => typeMultiplier p tag
  | _ => (bestMultiplier_spec p tags + worstMultiplier_spec p tags) / 2
  end.

Definition effectiveDamage_spec
  (baseDamage : Q) (p : TowerDamageProfile) (tags : list EnemyType) : Q :=
  inject_Z (Math_floor (baseDamage * finalMultiplier_spec p tags)).


(** Section 4.3: the spawn interval as the specification writes it. *)
Definition spawnInterval_spec (wave : Z) (theme : WaveTheme) : Z :=
  Z.max 300 (Math_round (inject_Z (Z.max 300 (800 - wave * 30))
                         * spawnIntervalMultiplier theme)).

(** [stat] is [Math.floor(base * multiplier)]: the integer at or just below
    the double that the product is. *)
Definition isFloorOfProduct (stat base : Z) (multiplier : Q) : Prop :=
  inject_Z stat <= Double.mul (inject_Z base) multiplier
  /\ Double.mul (inject_Z base) multiplier < inject_Z stat + 1.

(** The entries of a sequence whose archetype carries the boss tag. *)
Definition isBossId (enemyId : string) : bool :=
  match lookup enemyId ENEMY_CONFIGS with
  | Some config => isBoss config
  | None => false
  end.

Definition bossEntries (sequence : list string) : list string :=
  filter isBossId sequence.

(** The pool a themed composition draws from (the constant [basePool] of
    [generateThemedComposition]): the available types, or the default
    archetype when there are none. *)
Definition basePoolOf (availableTypes : list string) : list string :=
  if (0 <? len availableTypes)%Z then availableTypes else ["goblin"%string].

(** ** The damage function, the wave's multipliers and the theme allocation
    in binary64 arithmetic

    [calculateEffectiveDamage] once more on the machine's floats, every
    operation rounding as a JavaScript [number] does.  A decimal literal
    [n / 10^k] of the tables is the correctly rounded quotient of two
    exactly representable integers, which is the double the literal
    denotes.  Then the multipliers of [getWaveScaling] and
    [allocateThemeCounts] once more, every operation rounded with
    [Double.round]. *)

Module Binary64.

Import PrimFloat.

Definition of_Z (z : Z) : float :=
  match z with
  | Z0 => zero
  | Zpos _ => of_uint63 (Uint63.of_Z z)
  | Zneg p => opp (of_uint63 (Uint63.of_Z (Zpos p)))
  end.

Definition of_Q (q : Q) : float := div (of_Z (Qnum q)) (of_Z (Zpos (Qden q))).

(** [Math.floor] of a finite double. *)
Definition floor (x : float) : Z :=
  match FloatOps.Prim2SF x with
  | SpecFloat.S754_finite s m e =>
      let n := if s then Zneg m else Zpos m in
      if (0 <=? e)%Z then (n * 2 ^ e)%Z else (n / 2 ^ (- e))%Z
  | _ => 0%Z
  end.

(** The rational that a finite double is. *)
Definition to_Q (x : float) : Q :=
  match FloatOps.Prim2SF x with
  | SpecFloat.S754_finite s m e => inject_Z (if s then Zneg m else Zpos m) * 2 ^ e
  | _ => 0
  end.

Definition typeMultiplier (p : TowerDamageProfile) (t : EnemyType) : float :=
  let multipliers := ENEMY_DAMAGE_MULTIPLIERS t in
  let ratio := of_Q (primaryRatio p) in
  let tm := mul (of_Q (at_type multipliers (primary p))) ratio in
  match secondary p with
  | Some s => add tm (mul (of_Q (at_type multipliers s)) (sub one ratio))
  | None => tm
  end.

Definition bestMultiplier (p : TowerDamageProfile) (enemyTypes : list EnemyType)
  : float :=
  fold_left
    (fun best t => if ltb best (typeMultiplier p t) then typeMultiplier p t else best)
    enemyTypes one.

Definition worstMultiplier (p : TowerDamageProfile) (enemyTypes : list EnemyType)
  : float :=
  fold_left
    (fun worst t => if ltb (typeMultiplier p t) worst then typeMultiplier p t else worst)
    enemyTypes one.

Definition finalMultiplier (p : TowerDamageProfile) (enemyTypes : list EnemyType)
  : float :=
  if (1 <? Z.of_nat (List.length enemyTypes))%Z
  then div (add (bestMultiplier p enemyTypes) (worstMultiplier p enemyTypes)) (of_Z 2)
  else bestMultiplier p enemyTypes.

Definition calculateEffectiveDamage
  (baseDamage : float) (towerId : string) (enemyTypes : list EnemyType) : float :=
  match lookup towerId TOWER_DAMAGE_PROFILES with
  | None => baseDamage
  | Some damageProfile =>
      of_Z (floor (mul baseDamage (finalMultiplier damageProfile enemyTypes)))
  end.

(** [(1 + (wave - 1) * 0.15 + Math.pow(wave / 10, 1.5)) * this.healthMultiplier],
    [pow] being the value of [Math.pow(wave / 10, 1.5)]. *)
Definition healthMultiplier (wave : Z) (pow : Q) (difficulty : Q) : Q :=
  Double.mul
    (Double.add (Double.add 1 (Double.mul (inject_Z (wave - 1)) 0.15)) pow)
    difficulty.

(** [(1 + Math.min(wave * 0.04, 0.5)) * this.speedMultiplier]. *)
Definition speedMultiplier (wave : Z) (difficulty : Q) : Q :=
  Double.mul (Double.add 1 (Math_min (Double.mul (inject_Z wave) 0.04) 0.5))
             difficulty.

(** [Math.min(1.25, 0.95 + Math.log(wave + 1) * 0.08) * this.rewardMultiplier],
    [log] being the value of [Math.log(wave + 1)]. *)
Definition rewardMultiplier (log : Q) (difficulty : Q) : Q :=
  Double.mul (Math_min 1.25 (Double.add 0.95 (Double.mul log 0.08))) difficulty.

(** The local constants [ratioTotal], [focusRatio], [supportRatio] and
    [wildcardRatio] of [allocateThemeCounts]. *)
Definition ratioTotal (theme : WaveTheme) : Q :=
  Double.add (Double.add (focusRatio theme) (supportRatio theme))
             (wildcardRatio theme).

Definition normFocusRatio (theme : WaveTheme) : Q :=
  if Qgtb (ratioTotal theme) 0
  then Double.div (focusRatio theme) (ratioTotal theme) else 1.

Definition normSupportRatio (theme : WaveTheme) : Q :=
  if Qgtb (ratioTotal theme) 0
  then Double.div (supportRatio theme) (ratioTotal theme) else 0.

Definition normWildcardRatio (theme : WaveTheme) : Q :=
  if Qgtb (ratioTotal theme) 0
  then Double.div (wildcardRatio theme) (ratioTotal theme) else 0.

Definition allocateThemeCounts (total : Z) (theme : WaveTheme) : ThemeCounts :=
  let focusCount := Math_floor (Double.mul (inject_Z total) (normFocusRatio theme)) in
  let supportCount :=
    Math_floor (Double.mul (inject_Z total) (normSupportRatio theme)) in
  let wildcardCount := (total - focusCount - supportCount)%Z in
  let '(focusCount, wildcardCount) :=
    if (0 <? total)%Z && (focusCount =? 0)%Z
    then (1%Z, (total - 1 - supportCount)%Z)
    else (focusCount, wildcardCount) in
  if (wildcardCount <? 0)%Z then
    if (0 <? supportCount)%Z
    then {| focusCount := focusCount; supportCount := (total - focusCount)%Z;
            wildcardCount := 0 |}
    else {| focusCount := total; supportCount := supportCount; wildcardCount := 0 |}
  else {| focusCount := focusCount; supportCount := supportCount;
          wildcardCount := wildcardCount |}.

End Binary64.

(** ** Inputs of the examples *)

Definition ember_watch : TowerDamageProfile :=
  {| primary := FIRE; secondary := None; primaryRatio := 1.0 |}.

Definition ironspike_launcher : TowerDamageProfile :=
  {| primary := PIERCE; secondary := Some PHYSICAL; primaryRatio := 0.75 |}.

Definition rockbound_bastion : TowerDamageProfile :=
  {| primary := PHYSICAL; secondary := None; primaryRatio := 1.0 |}.





(** The three multipliers that [spawnEnemy] is handed in a wave of a game
    at the default difficulty, computed as the program computes them;
    [pow] and [log] are the values of [Math.pow(wave / 10, 1.5)] and
    [Math.log(wave + 1)].  [spawnEnemy] reads no other field. *)
Definition multipliersAt (wave : Z) (pow log : Q) : Scaling.t :=
  {| Scaling.enemyCount := 0;
     Scaling.healthMultiplier := Binary64.healthMultiplier wave pow 1;
     Scaling.speedMultiplier := Binary64.speedMultiplier wave 1;
     Scaling.rewardMultiplier := Binary64.rewardMultiplier log 1;
     Scaling.spawnInterval := 0 |}.

(** The instance after the first [startNextWave] on a fresh system. *)
Definition wave1 : WaveSystemV2.t :=
  match @startNextWave sampleHost 1 freshSystem 0%nat with
  | Some (_, this, _) => this
  | None => freshSystem
  end.

Definition swarm_pressure : WaveTheme :=
  mkTheme "swarm_pressure" [SWARM] [HUMANOID] [ARMORED] 0.6 0.2 0.2 3 0.92.

(** The timer at a position of the scene clock. *)
Definition timerAt (i : nat) (this : WaveSystemV2.t) : option TimerEvent :=
  nth_error (time (scene this)) i.

(** The guard under which [update] declares the wave complete. *)
Definition waveCompleteGuard (this : WaveSystemV2.t) : bool :=
  waveInProgress this && negb (isSpawning this) && (len (enemies this) =? 0)%Z.

(** The number of spawn callbacks that can still fire. *)
Definition pendingSpawns (this : WaveSystemV2.t) : nat :=
  List.length
    (filter (fun timer =>
               live timer
               && match callback timer with
                  | SpawnCallback _ _ => true
                  | SpawningDoneCallback => false
                  end) (time (scene this))).

(** The second wave, started after a [clear] of the first. *)
Definition wave2_after_clear : WaveSystemV2.t :=
  match @startNextWave sampleHost 1 (clear wave1) 1%nat with
  | Some (_, this, _) => this
  | None => freshSystem
  end.

(** ** config/damage.config.ts: getEffectivenessText *)

Module DamageText.

Record Effectiveness : Set := { text : string; color : Z }.

Definition Qgeb (a b : Q) : bool := Qle_bool b a.

Definition getEffectivenessText (multiplier : Q) : Effectiveness :=
  if Qgeb multiplier 1.8 then {| text := "SUPER EFFECTIVE!"; color := 0x00FF00 |}
  else if Qgeb multiplier 1.4 then {| text := "Effective"; color := 0x88FF88 |}
  else if Qgeb multiplier 1.1 then {| text := "Slightly Effective"; color := 0xAAFFAA |}
  else if Qgeb multiplier 0.9 then {| text := "Normal"; color := 0xFFFFFF |}
  else if Qgeb multiplier 0.6 then {| text := "Resisted"; color := 0xFFAAAA |}
  else if Qgeb multiplier 0.3 then {| text := "Strongly Resisted"; color := 0xFF8888 |}
  else {| text := "IMMUNE"; color := 0xFF0000 |}.

End DamageText.

(** ** ui/InfoModal.ts: the codex's net multiplier *)

Module InfoModal.

(** [calculateNetMultiplier]: one loop that keeps the running maximum and
    minimum, both started at [1.0].  The table has an entry for every
    damage type, so [multipliers[damageType] ?? 1.0] is the entry. *)
Definition calculateNetMultiplier (enemyTypes : list EnemyType) (damageType : DamageType)
  : Q :=
  if (len enemyTypes =? 0)%Z then 1.0
  else
    let '(best, worst) :=
      fold_left
        (fun '(best, worst) enemyType =>
           let mult := at_type (ENEMY_DAMAGE_MULTIPLIERS enemyType) damageType in
           (if Qgtb mult best then mult else best,
            if Qltb mult worst then mult else worst))
        enemyTypes (1.0, 1.0) in
    if (1 <? len enemyTypes)%Z then (best + worst) / 2 else best.

End InfoModal.

(** ** Boss waves: where the bosses go *)

Definition regularEntries (sequence : list string) : list string :=
  filter (fun enemyId => negb (isBossId enemyId)) sequence.

(** ** Runs of the scene clock *)

(** The scene clock advancing through a list of frames, oldest first. *)
Definition runClock `{Host} (deltas : list Q) (this : WaveSystemV2.t) : WaveSystemV2.t :=
  fold_left (fun this delta => clockUpdate delta this) deltas this.

(** Whether the timer at position [i] of the scene clock is one of the
    timers the instance kept. *)
Definition kept (i : nat) (this : WaveSystemV2.t) : bool :=
  existsb (Nat.eqb i) (spawnTimers this).

(** ** The timers of one wave on the scene clock *)

Definition isSpawnCallback (cb : Callback) : bool :=
  match cb with
  | SpawnCallback _ _ => true
  | SpawningDoneCallback => false
  end.

(** A spawn timer that runs beside the closing timer of its wave: neither
    paused nor destroyed, due before the closing timer, and, while it has
    not fired, as far along as the closing timer, which has not fired
    either. *)
Definition pendingWith (closing t : TimerEvent) : Prop :=
  paused t = false /\ destroyed t = false
  /\ isSpawnCallback (callback t) = true
  /\ delay t < delay closing
  /\ (hasDispatched t = false ->
      hasDispatched closing = false /\ elapsed t = elapsed closing).

(** The scene clock while one wave spawns undisturbed: timers that can no
    longer fire, then the spawn timers of the wave, then its closing
    timer; the flags and counters of the instance agree with what has
    fired.  [base] is the number of enemies alive when the wave started. *)
Record WaveClock (old spawns : list TimerEvent) (closing : TimerEvent) (base : Z)
  (this : WaveSystemV2.t) : Prop := {
  clock_layout : time (scene this) = old ++ spawns ++ [closing];
  clock_old : Forall (fun t => live t = false) old;
  clock_spawns : Forall (pendingWith closing) spawns;
  clock_closing :
    callback closing = SpawningDoneCallback
    /\ paused closing = false /\ destroyed closing = false;
  clock_isSpawning : isSpawning this = negb (hasDispatched closing);
  clock_spawned : enemiesSpawnedThisWave this = len (filter hasDispatched spawns);
  clock_enemies : len (enemies this) = (base + enemiesSpawnedThisWave this)%Z
}.

(** ** config/game.config.ts: difficulty levels *)

Module GameConfig.

Inductive Difficulty : Set := EASY | NORMAL | HARD.

Record DifficultyConfig : Set := {
  rewardMultiplier : Q;
  healthMultiplier : Q;
  countMultiplier : Q;
  speedMultiplier : Q
}.

Definition DIFFICULTY_CONFIG (difficulty : Difficulty) : DifficultyConfig :=
  match difficulty with
  | EASY => {| rewardMultiplier := 1.0; healthMultiplier := 1.0;
               countMultiplier := 0.95; speedMultiplier := 0.95 |}
  | NORMAL => {| rewardMultiplier := 0.75; healthMultiplier := 1.25;
                 countMultiplier := 1.05; speedMultiplier := 1.05 |}
  | HARD => {| rewardMultiplier := 0.5; healthMultiplier := 1.5;
               countMultiplier := 1.15; speedMultiplier := 1.08 |}
  end.

End GameConfig.

(** ** config/towers.config.ts *)

Module Towers.

(** The fields of [TowerConfig] that the tower class, the projectiles and
    the scene's economy read. *)
Record TowerConfig : Set := {
  id : string;
  cost : Z;
  damage : Z;
  range : Z;
  fireRate : Z;
  projectileSpeed : Z;
  damageType : DamageType;
  secondaryDamageType : option DamageType
}.

Definition mkTower (i : string) (c d r f p : Z) (t : DamageType) (s : option DamageType)
  : string * TowerConfig :=
  (i, {| id := i; cost := c; damage := d; range := r; fireRate := f;
         projectileSpeed := p; damageType := t; secondaryDamageType := s |}).

Definition TOWER_CONFIGS : list (string * TowerConfig) :=
  [ mkTower "ember_watch" 50 15 180 600 500 FIRE None;
    mkTower "rockbound_bastion" 75 25 160 1800 280 PHYSICAL None;
    mkTower "frostcoil_tower" 70 10 150 1200 380 ICE None;
    mkTower "sunflare_cannon" 120 55 170 2400 320 LIGHT (Some FIRE);
    mkTower "ironspike_launcher" 100 30 155 1400 420 PIERCE (Some PHYSICAL);
    mkTower "pyrehold" 110 20 165 1600 300 FIRE (Some PHYSICAL);
    mkTower "void_obelisk" 160 22 175 1100 450 VOID None;
    mkTower "stone_mortar" 150 65 280 3200 250 PHYSICAL (Some PIERCE);
    mkTower "dread_pyre" 180 28 170 1800 340 VOID (Some FIRE) ].

End Towers.

(** ** Events of the battle scene

    The events the entities and the wave system emit on the scene beside
    [waveStarted] and [enemySpawned]; an enemy or a tower in the payload is
    given by what the listeners read of it. *)
Inductive GameEvent : Set :=
  | enemyKilled (enemy : EnemyConfig)
  | enemyReachedBase (enemy : EnemyConfig)
  | waveComplete (nextWave bonusGold : Z)
  | towerUpgraded (level : Z).

(** ** entities/Tower.ts *)

Module Tower.

(** The fields of the class behind its statistics and its upgrades.
    [lastUpgradeTime] and the argument of [upgrade] are readings of
    [Date.now()], [lastFireTime] one of the scene's game time. *)
Record t : Set := {
  config : Towers.TowerConfig;
  level : Z;
  totalInvested : Z;
  lastFireTime : Q;
  lastUpgradeTime : Z
}.

Definition UPGRADE_MULTIPLIER : Q := 5.
Definition UPGRADE_COOLDOWN : Z := 500.

Definition constructor (config : Towers.TowerConfig) : t :=
  {| config := config; level := 1; totalInvested := Towers.cost config;
     lastFireTime := 0; lastUpgradeTime := 0 |}.

Record Stats : Set := { damage : Z; range : Z; fireRate : Z }.

(** [Math.pow] at an integer exponent is the exact power. *)
Definition getStats (this : t) : Stats :=
  let levelMultiplier := 2 ^ (level this - 1) in
  {| damage := Math_floor (inject_Z (Towers.damage (config this)) * levelMultiplier);
     range := Towers.range (config this);
     fireRate := Math_floor (inject_Z (Towers.fireRate (config this)) / levelMultiplier) |}.

Definition getUpgradeCost (this : t) : Z :=
  if (3 <=? level this)%Z then (-1)%Z
  else
    let baseCost := Towers.cost (config this) in
    let multiplier := UPGRADE_MULTIPLIER ^ level this in
    Math_floor (inject_Z baseCost * multiplier).

Definition getSellPrice (this : t) : Z :=
  Math_floor (inject_Z (totalInvested this) * 0.5).

(** [upgrade()]: the cost paid (0 when the upgrade is refused), the tower
    after the call and the events emitted. *)
Definition upgrade (currentTime : Z) (this : t) : Z * t * list GameEvent :=
  if (3 <=? level this)%Z then (0%Z, this, [])
  else if (currentTime - lastUpgradeTime this <? UPGRADE_COOLDOWN)%Z then (0%Z, this, [])
  else
    let this := {| config := config this; level := level this;
                   totalInvested := totalInvested this;
                   lastFireTime := lastFireTime this;
                   lastUpgradeTime := currentTime |} in
    let upgradeCost := getUpgradeCost this in
    if (upgradeCost <? 0)%Z then (0%Z, this, [])
    else
      let this := {| config := config this; level := (level this + 1)%Z;
                     totalInvested := (totalInvested this + upgradeCost)%Z;
                     lastFireTime := lastFireTime this;
                     lastUpgradeTime := lastUpgradeTime this |} in
      (upgradeCost, this, [towerUpgraded (level this)]).

Definition canFire (time : Q) (this : t) : bool :=
  if (Towers.projectileSpeed (config this) =? 0)%Z then false
  else Qle_bool (inject_Z (fireRate (getStats this))) (time - lastFireTime this).

Definition fire (time : Q) (this : t) : t :=
  {| config := config this; level := level this;
     totalInvested := totalInvested this;
     lastFireTime := time; lastUpgradeTime := lastUpgradeTime this |}.

End Tower.

(** ** entities/EnemyUnit.ts

    The class [EnemyUnit]: its health, the decay of its slow effect and its
    walk along the waypoints.  [active] is the flag of the game object,
    cleared when the object is destroyed.  [Math.sqrt] is a parameter. *)

Module EnemyUnits.

Record PathWaypoint : Set := { wx : Q; wy : Q }.

Record t : Set := {
  config : EnemyConfig;
  health : Q;
  maxHealth : Q;
  isDead : bool;
  active : bool;
  x : Q;
  y : Q;
  speed : Q;
  waypoints : list PathWaypoint;
  currentWaypointIndex : Z;
  slowAmount : Q;
  slowDuration : Q
}.

Definition constructor (config : EnemyConfig) (waypoints : list PathWaypoint)
  (startX startY : Q) : t :=
  {| config := config;
     health := inject_Z (Enemies.health config);
     maxHealth := inject_Z (Enemies.health config);
     isDead := false; active := true; x := startX; y := startY;
     speed := inject_Z (Enemies.speed config);
     waypoints := waypoints; currentWaypointIndex := 1;
     slowAmount := 0; slowDuration := 0 |}.

Definition with_health (h : Q) (this : t) : t :=
  {| config := config this; health := h; maxHealth := maxHealth this;
     isDead := isDead this; active := active this; x := x this; y := y this;
     speed := speed this; waypoints := waypoints this;
     currentWaypointIndex := currentWaypointIndex this;
     slowAmount := slowAmount this; slowDuration := slowDuration this |}.

Definition with_flags (dead act : bool) (this : t) : t :=
  {| config := config this; health := health this; maxHealth := maxHealth this;
     isDead := dead; active := act; x := x this; y := y this;
     speed := speed this; waypoints := waypoints this;
     currentWaypointIndex := currentWaypointIndex this;
     slowAmount := slowAmount this; slowDuration := slowDuration this |}.

Definition with_position (px py : Q) (index : Z) (this : t) : t :=
  {| config := config this; health := health this; maxHealth := maxHealth this;
     isDead := isDead this; active := active this; x := px; y := py;
     speed := speed this; waypoints := waypoints this;
     currentWaypointIndex := index;
     slowAmount := slowAmount this; slowDuration := slowDuration this |}.

Definition with_slow (amount duration : Q) (this : t) : t :=
  {| config := config this; health := health this; maxHealth := maxHealth this;
     isDead := isDead this; active := active this; x := x this; y := y this;
     speed := speed this; waypoints := waypoints this;
     currentWaypointIndex := currentWaypointIndex this;
     slowAmount := amount; slowDuration := duration |}.

(** [die()]: the unit is dead and [enemyKilled] is emitted; the game
    object is destroyed later, when the fade-out tween completes. *)
Definition die (this : t) : t * list GameEvent :=
  (with_flags true (active this) this, [enemyKilled (config this)]).

Definition takeDamage (amount : Q) (this : t) : t * list GameEvent :=
  if isDead this then (this, [])
  else
    let this := with_health (health this - amount) this in
    if Qle_bool (health this) 0 then die this else (this, []).

Definition hasReachedEnd (this : t) : bool :=
  (len (waypoints this) <=? currentWaypointIndex this)%Z.

Definition getEnemyTypes (this : t) : list EnemyType := Enemies.enemyTypes (config this).

Section Walk.

Variable Math_sqrt : Q -> Q.

(** [moveTowardsWaypoint] from the waypoint the index points at: [rest] is
    the list of waypoints from there on.  Within 10 pixels of the waypoint
    the index moves on and the function calls itself for the next one. *)
Fixpoint moveAlong (rest : list PathWaypoint) (moveDistance : Q) (this : t)
  : t * (Q * Q) :=
  match rest with
  | [] => (this, (0, 0))
  | target :: rest' =>
      let dx := wx target - x this in
      let dy := wy target - y this in
      let dist := Math_sqrt (dx * dx + dy * dy) in
      if Qltb dist 10 then
        let this := with_position (x this) (y this) (currentWaypointIndex this + 1) this in
        if (currentWaypointIndex this <? len (waypoints this))%Z
        then moveAlong rest' moveDistance this
        else (this, (0, 0))
      else (this, (dx / dist * moveDistance, dy / dist * moveDistance))
  end.

(** The index is 1 in a new unit and only grows, so it is never negative. *)
Definition moveTowardsWaypoint (moveDistance : Q) (this : t) : t * (Q * Q) :=
  if (len (waypoints this) <=? currentWaypointIndex this)%Z then (this, (0, 0))
  else moveAlong (skipn (Z.to_nat (currentWaypointIndex this)) (waypoints this))
                 moveDistance this.

Definition update (delta : Q) (this : t) : t :=
  if isDead this then this
  else
    let this :=
      if Qgtb (slowDuration this) 0 then
        let this := with_slow (slowAmount this) (slowDuration this - delta) this in
        if Qle_bool (slowDuration this) 0 then with_slow 0 (slowDuration this) this
        else this
      else this in
    let effectiveSpeed := speed this * (1 - slowAmount this / 100) in
    let moveDistance := effectiveSpeed * delta / 1000 in
    let '(this, movement) := moveTowardsWaypoint moveDistance this in
    with_position (x this + fst movement) (y this + snd movement)
                  (currentWaypointIndex this) this.

End Walk.

End EnemyUnits.

(** ** entities/Projectile.ts *)

Module Projectile.

Record t : Set := {
  active : bool;
  damage : Q;
  towerId : option string
}.

(** [hit()]: the projectile, its target and the events emitted.  The
    damage is recomputed from the tower's profile when the projectile
    carries a tower id and the target has enemy types. *)
Definition hit (this : t) (target : EnemyUnits.t)
  : t * EnemyUnits.t * list GameEvent :=
  if negb (active this) then (this, target, [])
  else
    let '(target, events) :=
      if EnemyUnits.active target then
        let effectiveDamage :=
          match towerId this with
          | Some towerId =>
              if negb (String.eqb towerId "")
                 && (0 <? len (EnemyUnits.getEnemyTypes target))%Z
              then calculateEffectiveDamage (damage this) towerId
                                            (EnemyUnits.getEnemyTypes target)
              else damage this
          | None => damage this
          end in
        EnemyUnits.takeDamage effectiveDamage target
      else (target, []) in
    ({| active := false; damage := damage this; towerId := towerId this |},
     target, events).

End Projectile.

(** ** systems/WaveSystemV2.ts: [update] and [waveComplete]

    The per-frame pass over the enemies.  The instance is given by the
    fields the two methods read and write, the enemies with their state. *)

Module WaveUpdate.

Record t : Set := {
  enemies : list EnemyUnits.t;
  waveInProgress : bool;
  isSpawning : bool;
  currentWave : Z;
  rewardMultiplier : Q
}.

Section Frame.

Context `{Host}.
Variable Math_sqrt : Q -> Q.

(** The loop [for (let i = this.enemies.length - 1; i >= 0; i--)] with
    [visits] passes to go: the index of the next pass is [visits - 1], and
    the loop ends when none is left.  Each pass reads [this.enemies[i]]
    from the array as the earlier passes left it; [None] is the
    [TypeError] of reading a field of [undefined], were the index past the
    end.  [enemy.update(delta)] changes the object in the array;
    [splice(i, 1)] shortens the array, and [enemy.destroy()] acts on the
    object that the splice drops. *)
Fixpoint updateLoop (visits : nat) (delta : Q) (enemies : list EnemyUnits.t)
  (events : list GameEvent) : option (list EnemyUnits.t * list GameEvent) :=
  match visits with
  | O => Some (enemies, events)
  | S i =>
      match nth_error enemies i with
      | None => None
      | Some enemy =>
          if EnemyUnits.isDead enemy || negb (EnemyUnits.active enemy)
          then updateLoop i delta (splice_remove enemies i) events
          else
            let enemy := EnemyUnits.update Math_sqrt delta enemy in
            let enemies := assign enemies i enemy in
            if EnemyUnits.hasReachedEnd enemy
            then updateLoop i delta (splice_remove enemies i)
                            (events ++ [enemyReachedBase (EnemyUnits.config enemy)])
            else updateLoop i delta enemies events
      end
  end.

(** The enemies and the events after the loop.  The loop always ends
    normally (shown below), so that the default is never taken. *)
Definition updateEnemies (delta : Q) (enemies : list EnemyUnits.t)
  : list EnemyUnits.t * list GameEvent :=
  match updateLoop (List.length enemies) delta enemies [] with
  | Some after => after
  | None => (enemies, [])
  end.

Definition waveComplete (this : t) : t * list GameEvent :=
  let this := {| enemies := enemies this; waveInProgress := false;
                 isSpawning := isSpawning this; currentWave := currentWave this;
                 rewardMultiplier := rewardMultiplier this |} in
  let baseBonusGold :=
    12 + inject_Z (currentWave this) * 3 + Math_pow (inject_Z (currentWave this)) 1.1 in
  let bonusGold := Math_floor (baseBonusGold * rewardMultiplier this) in
  (this, [waveComplete (currentWave this + 1) bonusGold]).

Definition update (delta : Q) (this : t) : t * list GameEvent :=
  let '(remaining, events) := updateEnemies delta (enemies this) in
  let this := {| enemies := remaining; waveInProgress := waveInProgress this;
                 isSpawning := isSpawning this; currentWave := currentWave this;
                 rewardMultiplier := rewardMultiplier this |} in
  if waveInProgress this && negb (isSpawning this) && (len (enemies this) =? 0)%Z
  then let '(this, completed) := waveComplete this in (this, events ++ completed)
  else (this, events).

End Frame.

End WaveUpdate.

(** ** scenes/BattleScene.ts: gold, lives and the towers *)

Module BattleScene.

Record t : Set := {
  gold : Z;
  lives : Z;
  gameOver : bool;
  towers : list Tower.t
}.

Definition with_gold (g : Z) (this : t) : t :=
  {| gold := g; lives := lives this; gameOver := gameOver this; towers := towers this |}.

Definition with_towers (ts : list Tower.t) (this : t) : t :=
  {| gold := gold this; lives := lives this; gameOver := gameOver this; towers := ts |}.

Definition addGold (amount : Z) (this : t) : t := with_gold (gold this + amount) this.

Definition defeat (this : t) : t :=
  {| gold := gold this; lives := lives this; gameOver := true; towers := towers this |}.

Definition loseLife (amount : Z) (this : t) : t :=
  let this := {| gold := gold this; lives := (lives this - amount)%Z;
                 gameOver := gameOver this; towers := towers this |} in
  if (lives this <=? 0)%Z then defeat this else this.

(** The listeners of [enemyKilled] and [enemyReachedBase]. *)
Definition onEnemyKilled (enemy : EnemyConfig) (this : t) : t :=
  addGold (Enemies.reward enemy) this.

Definition onEnemyReachedBase (enemy : EnemyConfig) (this : t) : t :=
  loseLife (Enemies.damage enemy) this.

(** [towers[i] = tower], the tower object being shared with the array. *)
Fixpoint store (i : nat) (tower : Tower.t) (towers : list Tower.t) : list Tower.t :=
  match towers, i with
  | [], _ => []
  | _ :: rest, O => tower :: rest
  | first :: rest, S j => first :: store j tower rest
  end.

(** [towers.splice(i, 1)]. *)
Fixpoint remove_at (i : nat) (towers : list Tower.t) : list Tower.t :=
  match towers, i with
  | [], _ => []
  | _ :: rest, O => rest
  | first :: rest, S j => first :: remove_at j rest
  end.

(** [upgradeTower(tower)] for the tower at position [i] of [towers];
    [currentTime] is what [Date.now()] returns inside [tower.upgrade()]. *)
Definition upgradeTower (currentTime : Z) (i : nat) (this : t) : option (t * list GameEvent) :=
  match nth_error (towers this) i with
  | None => None
  | Some tower =>
      let upgradeCost := Tower.getUpgradeCost tower in
      if (upgradeCost <? 0)%Z then Some (this, [])
      else if (gold this <? upgradeCost)%Z then Some (this, [])
      else
        let this := with_gold (gold this - upgradeCost) this in
        let '(actualCost, tower, events) := Tower.upgrade currentTime tower in
        Some (with_towers (store i tower (towers this)) this, events)
  end.

(** [sellTower(tower)] for the tower at position [i] of [towers]. *)
Definition sellTower (i : nat) (this : t) : option t :=
  match nth_error (towers this) i with
  | None => None
  | Some tower =>
      let sellPrice := Tower.getSellPrice tower in
      let this := addGold sellPrice this in
      Some (with_towers (remove_at i (towers this)) this)
  end.

Definition snapToGrid (x y : Q) : Z * Z :=
  let gridSize := 8 in
  let snappedX := (Math_round (x / gridSize) * 8)%Z in
  let snappedY := (Math_round (y / gridSize) * 8)%Z in
  (snappedX, snappedY).

(** The wave system the scene creates for a difficulty: only the reward
    and the health multiplier are passed on, the other two take the
    constructor's default. *)
Definition createWaveSystem (sc : Scene) (difficulty : GameConfig.Difficulty)
  : WaveSystemV2.t :=
  let diffConfig := GameConfig.DIFFICULTY_CONFIG difficulty in
  WaveSystemV2.constructor sc (GameConfig.rewardMultiplier diffConfig)
                           (GameConfig.healthMultiplier diffConfig) 1.0 1.0.

End BattleScene.

(** ** Runs of calls *)

(** Calls of [upgrade()] on one tower at the given readings of
    [Date.now()]: the tower after the calls and the total of the costs
    returned. *)
Definition upgradeRun (times : list Z) (this : Tower.t) : Tower.t * Z :=
  fold_left
    (fun '(tower, paid) currentTime =>
       let '(upgradeCost, tower, _) := Tower.upgrade currentTime tower in
       (tower, (paid + upgradeCost)%Z))
    times (this, 0%Z).

(** Calls of [takeDamage] on one unit: the unit after the calls and all the
    events emitted. *)
Definition takeDamageRun (amounts : list Q) (this : EnemyUnits.t)
  : EnemyUnits.t * list GameEvent :=
  fold_left
    (fun '(unit, events) amount =>
       let '(unit, emitted) := EnemyUnits.takeDamage amount unit in
       (unit, events ++ emitted))
    amounts (this, []).

(** An enemy the frame pass still moves: neither dead nor destroyed. *)
Definition standing (enemy : EnemyUnits.t) : bool :=
  negb (EnemyUnits.isDead enemy || negb (EnemyUnits.active enemy)).

Definition isWaveComplete (event : GameEvent) : bool :=
  match event with
  | waveComplete _ _ => true
  | _ => false
  end.

(** Frames of [WaveSystemV2.update] with nothing else in between: the
    instance after the frames and all the events emitted. *)
Definition updateRun `{Host} (Math_sqrt : Q -> Q) (deltas : list Q) (this : WaveUpdate.t)
  : WaveUpdate.t * list GameEvent :=
  fold_left
    (fun '(this, events) delta =>
       let '(this, emitted) := WaveUpdate.update Math_sqrt delta this in
       (this, events ++ emitted))
    deltas (this, []).

(** A stand-in for [Math.sqrt] that is exact on perfect squares of
    integers. *)
Definition sample_sqrt (x : Q) : Q := inject_Z (Z.sqrt (Qfloor x)).

(** A tower that fires whenever [canFire] allows it, at the given readings
    of the game time: the tower afterwards and the times of its shots. *)
Definition fireRun (times : list Q) (this : Tower.t) : Tower.t * list Q :=
  fold_left
    (fun '(tower, shots) time =>
       if Tower.canFire time tower then (Tower.fire time tower, shots ++ [time])
       else (tower, shots))
    times (this, []).

(** Every shot comes at least [rate] after the one before it, the first at
    least [rate] after [previous]. *)
Fixpoint spacedFrom (rate previous : Q) (shots : list Q) : Prop :=
  match shots with
  | [] => True
  | shot :: rest => rate <= shot - previous /\ spacedFrom rate shot rest
  end.

(** What happens to the scene's gold and towers: an enemy is killed, the
    player asks for the upgrade of the tower at a position, or sells it. *)
Inductive Action : Set :=
  | Killed (enemy : EnemyConfig)
  | Upgrade (currentTime : Z) (i : nat)
  | Sell (i : nat).

Definition act (action : Action) (this : BattleScene.t) : option BattleScene.t :=
  match action with
  | Killed enemy => Some (BattleScene.onEnemyKilled enemy this)
  | Upgrade currentTime i => option_map fst (BattleScene.upgradeTower currentTime i this)
  | Sell i => BattleScene.sellTower i this
  end.

Fixpoint actAll (actions : list Action) (this : BattleScene.t) : option BattleScene.t :=
  match actions with
  | [] => Some this
  | action :: rest =>
      match act action this with
      | Some this => actAll rest this
      | None => None
      end
  end.

(** * Properties *)

(** ** Rounding to a double

    [Double.round] is monotone, leaves every number with at most 53
    significant bits as it is (the integers up to [2 ^ 53] among them) and
    rounds only once. *)

Lemma two_neq_0 : ~ 2 == 0.
Proof. intros H. discriminate H. Qed.

Lemma pow2_pos (e : Z) : 0 < 2 ^ e.
Proof. apply Qpower_0_lt. reflexivity. Qed.

Lemma pow2_plus (a b : Z) : 2 ^ (a + b) == 2 ^ a * 2 ^ b.
Proof. apply Qpower_plus, two_neq_0. Qed.

Lemma pow2_le (a b : Z) : (a <= b)%Z -> 2 ^ a <= 2 ^ b.
Proof. intros H. apply Qpower_le_compat_l; [ exact H | discriminate ]. Qed.

Lemma pow2_Z (n : Z) : (0 <= n)%Z -> 2 ^ n == inject_Z (2 ^ n).
Proof. intros H. symmetry. exact (Zpower_Qpower 2 n H). Qed.


Lemma binade_spec (x : Q) :
  0 < x -> 2 ^ Double.binade x <= x /\ x < 2 ^ (Double.binade x + 1).
Proof.
  intros Hx. unfold Double.binade.
  destruct x as [n d]. cbn [Qnum Qden].
  assert (Hn : (0 < n)%Z).
  { unfold Qlt in Hx. cbn in Hx. lia. }
  set (ln := Z.log2 n). set (ld := Z.log2 (Z.pos d)).
  destruct (Z.log2_spec n Hn) as [Hn1 Hn2]. fold ln in Hn1, Hn2.
  destruct (Z.log2_spec (Z.pos d) eq_refl) as [Hd1 Hd2]. fold ld in Hd1, Hd2.
  assert (Hln : (0 <= ln)%Z) by apply Z.log2_nonneg.
  assert (Hld : (0 <= ld)%Z) by apply Z.log2_nonneg.
  assert (Qn1 : 2 ^ ln <= inject_Z n)
    by (rewrite pow2_Z by lia; now rewrite <- Zle_Qle).
  assert (Qn2 : inject_Z n < 2 ^ (ln + 1))
    by (rewrite pow2_Z by lia; rewrite <- Zlt_Qlt; unfold Z.succ in Hn2; lia).
  assert (Qd1 : 2 ^ ld <= inject_Z (Z.pos d))
    by (rewrite pow2_Z by lia; now rewrite <- Zle_Qle).
  assert (Qd2 : inject_Z (Z.pos d) < 2 ^ (ld + 1))
    by (rewrite pow2_Z by lia; rewrite <- Zlt_Qlt; unfold Z.succ in Hd2; lia).
  assert (Hd : 0 < inject_Z (Z.pos d)) by reflexivity.
  assert (Hlow : 2 ^ (ln - ld - 1) <= n # d).
  { rewrite (Qmake_Qdiv n d). apply Qle_shift_div_l; [ exact Hd | ].
    apply Qle_trans with (2 ^ (ln - ld - 1) * 2 ^ (ld + 1)).
    - apply Qmult_le_l; [ apply pow2_pos | now apply Qlt_le_weak ].
    - rewrite <- pow2_plus. replace (ln - ld - 1 + (ld + 1))%Z with ln by lia.
      exact Qn1. }
  assert (Hup : n # d < 2 ^ (ln - ld + 1)).
  { rewrite (Qmake_Qdiv n d). apply Qlt_shift_div_r; [ exact Hd | ].
    apply Qlt_le_trans with (2 ^ (ln - ld + 1) * 2 ^ ld).
    - rewrite <- pow2_plus. replace (ln - ld + 1 + ld)%Z with (ln + 1)%Z by lia.
      exact Qn2.
    - apply Qmult_le_l; [ apply pow2_pos | exact Qd1 ]. }
  destruct (Qle_bool (2 ^ (ln - ld)) (n # d)) eqn:Htest.
  - apply Qle_bool_iff in Htest. split; [ exact Htest | exact Hup ].
  - split; [ exact Hlow | ].
    replace (ln - ld - 1 + 1)%Z with (ln - ld)%Z by lia.
    apply Qnot_le_lt. intros Hle. apply Qle_bool_iff in Hle. congruence.
Qed.

Lemma binade_le (x y : Q) :
  0 < x -> x <= y -> (Double.binade x <= Double.binade y)%Z.
Proof.
  intros Hx Hxy.
  assert (Hy : 0 < y) by (apply Qlt_le_trans with x; assumption).
  destruct (binade_spec x Hx) as [Xlow Xup].
  destruct (binade_spec y Hy) as [Ylow Yup].
  destruct (Z_le_gt_dec (Double.binade x) (Double.binade y)) as [ Hle | Hgt ];
    [ exact Hle | ].
  exfalso. apply (Qlt_irrefl y).
  apply Qlt_le_trans with (2 ^ (Double.binade y + 1)); [ exact Yup | ].
  apply Qle_trans with (2 ^ Double.binade x); [ apply pow2_le; lia | ].
  apply Qle_trans with x; assumption.
Qed.

Lemma round_half_even_cases (x : Q) :
  Double.round_half_even x = Qfloor x
  \/ Double.round_half_even x = (Qfloor x + 1)%Z.
Proof.
  unfold Double.round_half_even.
  destruct (Qcompare _ _); [ destruct (Z.even _) | | ]; auto.
Qed.

Lemma round_half_even_Z (x : Q) (k : Z) :
  x == inject_Z k -> Double.round_half_even x = k.
Proof.
  intros Hx. unfold Double.round_half_even.
  assert (Hf : Qfloor x = k) by (rewrite (Qfloor_comp _ _ Hx); apply Qfloor_Z).
  rewrite Hf.
  destruct (Qcompare_spec (x - inject_Z k) (1 # 2)) as [ H | H | H ];
    [ exfalso | reflexivity | exfalso ]; lra.
Qed.

Lemma round_half_even_le (x y : Q) :
  x <= y -> (Double.round_half_even x <= Double.round_half_even y)%Z.
Proof.
  intros Hxy.
  pose proof (Qfloor_resp_le x y Hxy) as Hfloor.
  destruct (Z.eq_dec (Qfloor x) (Qfloor y)) as [ Heq | Hne ].
  - unfold Double.round_half_even. rewrite <- Heq.
    destruct (Qcompare_spec (x - inject_Z (Qfloor x)) (1 # 2)) as [ Hx | Hx | Hx ];
      destruct (Qcompare_spec (y - inject_Z (Qfloor x)) (1 # 2)) as [ Hy | Hy | Hy ];
      try destruct (Z.even (Qfloor x)); try lia; exfalso; lra.
  - destruct (round_half_even_cases x) as [ -> | -> ];
      destruct (round_half_even_cases y) as [ -> | -> ]; lia.
Qed.

Lemma round_half_even_lower (x : Q) (k : Z) :
  inject_Z k <= x -> (k <= Double.round_half_even x)%Z.
Proof.
  intros H. apply round_half_even_le in H.
  now rewrite (round_half_even_Z (inject_Z k) k) in H by reflexivity.
Qed.

Lemma round_half_even_upper (x : Q) (k : Z) :
  x <= inject_Z k -> (Double.round_half_even x <= k)%Z.
Proof.
  intros H. apply round_half_even_le in H.
  now rewrite (round_half_even_Z (inject_Z k) k) in H by reflexivity.
Qed.

Lemma div_pow2_le (x y : Q) (e : Z) : x <= y -> x / 2 ^ e <= y / 2 ^ e.
Proof.
  intros H. apply Qmult_le_compat_r; [ exact H | ].
  apply Qlt_le_weak, Qinv_lt_0_compat, pow2_pos.
Qed.

Lemma ulp_exponent_le (x y : Q) :
  0 < x -> x <= y -> (Double.ulp_exponent x <= Double.ulp_exponent y)%Z.
Proof.
  intros Hx Hxy. unfold Double.ulp_exponent.
  pose proof (binade_le x y Hx Hxy). lia.
Qed.

(** A positive number rounds to a number between the two powers of 2
    around it. *)
Lemma round_positive_upper (x : Q) :
  0 < x -> Double.round_positive x <= 2 ^ (Double.ulp_exponent x + 53).
Proof.
  intros Hx. unfold Double.round_positive.
  set (e := Double.ulp_exponent x).
  destruct (binade_spec x Hx) as [_ Hup].
  assert (He : (Double.binade x + 1 <= e + 53)%Z)
    by (unfold e, Double.ulp_exponent; lia).
  assert (Hq : x / 2 ^ e <= inject_Z (2 ^ 53)).
  { apply Qle_shift_div_r; [ apply pow2_pos | ].
    rewrite <- (pow2_Z 53) by lia. rewrite <- pow2_plus.
    apply Qlt_le_weak, Qlt_le_trans with (2 ^ (Double.binade x + 1));
      [ exact Hup | ].
    apply pow2_le. lia. }
  apply round_half_even_upper in Hq.
  rewrite (Z.add_comm e 53), pow2_plus.
  apply Qmult_le_compat_r; [ | apply Qlt_le_weak, pow2_pos ].
  rewrite (pow2_Z 53) by lia. now rewrite <- Zle_Qle.
Qed.

Lemma round_positive_lower (x : Q) :
  0 < x -> (-1074 <= Double.binade x - 52)%Z ->
  2 ^ Double.binade x <= Double.round_positive x.
Proof.
  intros Hx Hnormal. unfold Double.round_positive.
  assert (He : Double.ulp_exponent x = (Double.binade x - 52)%Z)
    by (unfold Double.ulp_exponent; lia).
  rewrite He.
  destruct (binade_spec x Hx) as [Hlow _].
  assert (Hq : inject_Z (2 ^ 52) <= x / 2 ^ (Double.binade x - 52)).
  { apply Qle_shift_div_l; [ apply pow2_pos | ].
    rewrite <- (pow2_Z 52) by lia. rewrite <- pow2_plus.
    replace (52 + (Double.binade x - 52))%Z with (Double.binade x) by lia.
    exact Hlow. }
  apply round_half_even_lower in Hq.
  replace (Double.binade x) with (52 + (Double.binade x - 52))%Z at 1 by lia.
  rewrite pow2_plus.
  apply Qmult_le_compat_r; [ | apply Qlt_le_weak, pow2_pos ].
  rewrite (pow2_Z 52) by lia. now rewrite <- Zle_Qle.
Qed.

Lemma round_positive_nonneg (x : Q) : 0 < x -> 0 <= Double.round_positive x.
Proof.
  intros Hx. unfold Double.round_positive.
  apply Qmult_le_0_compat; [ | apply Qlt_le_weak, pow2_pos ].
  change 0 with (inject_Z 0). rewrite <- Zle_Qle.
  apply round_half_even_lower. change (inject_Z 0) with 0.
  apply Qle_shift_div_l; [ apply pow2_pos | ]. rewrite Qmult_0_l.
  now apply Qlt_le_weak.
Qed.

Lemma round_positive_le (x y : Q) :
  0 < x -> x <= y -> Double.round_positive x <= Double.round_positive y.
Proof.
  intros Hx Hxy.
  assert (Hy : 0 < y) by (apply Qlt_le_trans with x; assumption).
  pose proof (ulp_exponent_le x y Hx Hxy) as He.
  destruct (Z.eq_dec (Double.ulp_exponent x) (Double.ulp_exponent y)) as [ Heq | Hne ].
  - unfold Double.round_positive. rewrite Heq.
    apply Qmult_le_compat_r; [ | apply Qlt_le_weak, pow2_pos ].
    rewrite <- Zle_Qle. apply round_half_even_le, div_pow2_le, Hxy.
  - assert (Hnormal : (-1074 <= Double.binade y - 52)%Z)
      by (unfold Double.ulp_exponent in *; lia).
    apply Qle_trans with (2 ^ (Double.ulp_exponent x + 53));
      [ now apply round_positive_upper | ].
    apply Qle_trans with (2 ^ Double.binade y); [ | now apply round_positive_lower ].
    apply pow2_le. unfold Double.ulp_exponent in *. lia.
Qed.

Lemma Qnum_sign (x : Q) :
  match Qnum x with
  | Z0 => x == 0
  | Zpos _ => 0 < x
  | Zneg _ => x < 0
  end.
Proof.
  destruct x as [ [ | p | p ] d ]; cbn [Qnum]; reflexivity.
Qed.

Lemma round_le (x y : Q) : x <= y -> Double.round x <= Double.round y.
Proof.
  intros Hxy. unfold Double.round.
  pose proof (Qnum_sign x) as Hx. pose proof (Qnum_sign y) as Hy.
  destruct (Qnum x) as [ | p | p ]; destruct (Qnum y) as [ | q | q ].
  - apply Qle_refl.
  - now apply round_positive_nonneg.
  - exfalso. lra.
  - exfalso. lra.
  - now apply round_positive_le.
  - exfalso. lra.
  - assert (H : 0 <= Double.round_positive (- x))
      by (apply round_positive_nonneg; lra).
    lra.
  - assert (H : 0 <= Double.round_positive (- x))
      by (apply round_positive_nonneg; lra).
    assert (H' : 0 <= Double.round_positive y)
      by (now apply round_positive_nonneg).
    lra.
  - assert (H : Double.round_positive (- y) <= Double.round_positive (- x))
      by (apply round_positive_le; lra). lra.
Qed.








#[global] Instance round_Proper : Proper (Qeq ==> Qeq) Double.round.
Proof.
  intros x y Hxy. apply Qle_antisym; apply round_le; rewrite Hxy; apply Qle_refl.
Qed.


(** *** The machine's floats

    On the operands that the examples below reach, and on a few others,
    the three rounded operations give the doubles that the machine's
    multiplication, addition and division give. *)
Lemma Double_operations_on_floats :
  forallb
    (fun '(a, b) =>
       Qeq_bool (Binary64.to_Q (PrimFloat.mul (Binary64.of_Q a) (Binary64.of_Q b)))
                (Double.mul a b)
       && Qeq_bool (Binary64.to_Q (PrimFloat.add (Binary64.of_Q a) (Binary64.of_Q b)))
                   (Double.add a b)
       && Qeq_bool (Binary64.to_Q (PrimFloat.div (Binary64.of_Q a) (Binary64.of_Q b)))
                   (Double.div a b))
    [ (90, 0.7); (90, 0.3); (19, 0.55); (19, 0.2); (19, 0.25); (0.7, 0.3);
      (0.55, 0.2); (0.75, 0.25); (0.65, 0.25); (0.9, 0.1); (0.6, 0.4);
      (9, 0.15); (4, 0.15); (10, 0.04); (5, 0.04); (1, 1.35); (1, 0.6);
      (2.35, 1); (1.6, 0.3535533905932738); (1, 0.4); (1, 0.2);
      (400, 3.35); (40, 3.35); (45, 1.4); (45, 1.2); (18, 1.4); (30, 3.35);
      (1.791759469228055, 0.08); (0.95, 0.1433407575382444);
      (1, 3); (2, 3); (0.1, 0.2); (-7, 0.3); (123456789, 0.000001) ]
  = true.
Proof. vm_compute. reflexivity. Qed.

(** *** The floor of a product *)

Lemma scale_isFloorOfProduct (base : Z) (multiplier : Q) :
  isFloorOfProduct (scale base multiplier) base multiplier.
Proof.
  unfold isFloorOfProduct, scale, Math_floor. split.
  - apply Qfloor_le.
  - rewrite <- (inject_Z_plus _ 1). apply Qlt_floor.
Qed.


(** ** Damage model *)

(** What the code computes for one tag: the blended multiplier only when it
    exceeds the neutral [1.0] the running maximum starts from. *)
Lemma single_tag_damage (baseDamage : Q) (towerId : string)
  (p : TowerDamageProfile) (tag : EnemyType) :
  lookup towerId TOWER_DAMAGE_PROFILES = Some p ->
  calculateEffectiveDamage baseDamage towerId [tag]
  = inject_Z (Math_floor (baseDamage *
       (if Qgtb (typeMultiplier p tag) 1.0 then typeMultiplier p tag else 1.0))).
Proof.
  intros Hp. unfold calculateEffectiveDamage. rewrite Hp.
  unfold finalMultiplier, bestMultiplier. simpl. reflexivity.
Qed.

(** The running maximum never falls below the neutral value it starts
    from, nor the running minimum above it: a single-tag enemy is never
    dealt less than the base damage's multiplier 1. *)
Lemma bestMultiplier_ge_neutral (p : TowerDamageProfile) (tags : list EnemyType) :
  1 <= bestMultiplier p tags.
Proof.
  unfold bestMultiplier.
  assert (Hfold : forall acc,
             acc <= fold_left
                      (fun best t => if Qgtb (typeMultiplier p t) best
                                     then typeMultiplier p t else best) tags acc).
  { induction tags as [ | tag rest IH ]; intros acc; simpl; [ apply Qle_refl | ].
    eapply Qle_trans; [ | apply IH ].
    destruct (Qgtb (typeMultiplier p tag) acc) eqn:Hgt; [ | apply Qle_refl ].
    unfold Qgtb in Hgt. apply negb_true_iff in Hgt.
    apply Qlt_le_weak, Qnot_le_lt. intros Hle.
    apply Qle_bool_iff in Hle. congruence. }
  eapply Qle_trans; [ | apply Hfold ]. discriminate.
Qed.

Lemma worstMultiplier_le_neutral (p : TowerDamageProfile) (tags : list EnemyType) :
  worstMultiplier p tags <= 1.
Proof.
  unfold worstMultiplier.
  assert (Hfold : forall acc,
             fold_left
               (fun worst t => if Qltb (typeMultiplier p t) worst
                               then typeMultiplier p t else worst) tags acc <= acc).
  { induction tags as [ | tag rest IH ]; intros acc; simpl; [ apply Qle_refl | ].
    eapply Qle_trans; [ apply IH | ].
    destruct (Qltb (typeMultiplier p tag) acc) eqn:Hlt; [ | apply Qle_refl ].
    unfold Qltb in Hlt. apply negb_true_iff in Hlt.
    apply Qlt_le_weak, Qnot_le_lt. intros Hle.
    apply Qle_bool_iff in Hle. congruence. }
  eapply Qle_trans; [ apply Hfold | ]. discriminate.
Qed.

Lemma single_tag_never_resisted (p : TowerDamageProfile) (tag : EnemyType) :
  1 <= finalMultiplier p [tag].
Proof. apply (bestMultiplier_ge_neutral p [tag]). Qed.

(** C1, evaluated on the code.  The frost archer carries the single tag
    [AQUATIC], whose fire multiplier is 0.6, and Ember Watch deals pure fire
    damage: the specification's formula gives [floor (15 * 0.6) = 9], the
    code returns the base damage 15, the resistance being ignored.  The
    goblin carries the single tag [SWARM]; against the Ironspike Launcher
    its blended multiplier is 0.825: the formula gives
    [floor (30 * 0.825) = 24], the code returns 30. *)
Theorem single_tag_resistance_ignored :
  lookup "ember_watch" TOWER_DAMAGE_PROFILES = Some ember_watch
  /\ typeMultiplier ember_watch AQUATIC == 0.6
  /\ effectiveDamage_spec 15 ember_watch [AQUATIC] = 9
  /\ calculateEffectiveDamage 15 "ember_watch" [AQUATIC] = 15
  /\ lookup "ironspike_launcher" TOWER_DAMAGE_PROFILES = Some ironspike_launcher
  /\ typeMultiplier ironspike_launcher SWARM == 0.825
  /\ effectiveDamage_spec 30 ironspike_launcher [SWARM] = 24
  /\ calculateEffectiveDamage 30 "ironspike_launcher" [SWARM] = 30.
Proof. repeat split. Qed.

(** The same calls in binary64 arithmetic, with the values the
    specification's formula takes there. *)
Lemma damage_examples_binary64 :
  Binary64.floor (Binary64.calculateEffectiveDamage
                    (Binary64.of_Z 15) "ember_watch" [AQUATIC]) = 15%Z
  /\ Binary64.floor (PrimFloat.mul (Binary64.of_Z 15)
                       (Binary64.typeMultiplier ember_watch AQUATIC)) = 9%Z
  /\ Binary64.floor (Binary64.calculateEffectiveDamage
                       (Binary64.of_Z 30) "ironspike_launcher" [SWARM]) = 30%Z
  /\ Binary64.floor (PrimFloat.mul (Binary64.of_Z 30)
                       (Binary64.typeMultiplier ironspike_launcher SWARM)) = 24%Z
  /\ Binary64.floor (Binary64.calculateEffectiveDamage
                       (Binary64.of_Z 30) "ironspike_launcher" [ELEMENTAL; UNDEAD])
     = 21%Z
  /\ Binary64.floor
       (PrimFloat.mul (Binary64.of_Z 30)
          (PrimFloat.div
             (PrimFloat.add (Binary64.typeMultiplier ironspike_launcher UNDEAD)
                            (Binary64.typeMultiplier ironspike_launcher ELEMENTAL))
             (Binary64.of_Z 2))) = 16%Z
  /\ PrimFloat.eqb (Binary64.finalMultiplier rockbound_bastion [CONSTRUCT; ARMORED])
                   (Binary64.of_Q 1.15) = true.
Proof. vm_compute. repeat split. Qed.

(** The constructed pair of the specification: against pure physical damage
    a construct has multiplier 1.8 and an armored enemy 0.5, and the code
    applies exactly 1.15. *)
Lemma two_tag_mean_example :
  typeMultiplier rockbound_bastion CONSTRUCT == 1.8
  /\ typeMultiplier rockbound_bastion ARMORED == 0.5
  /\ finalMultiplier rockbound_bastion [CONSTRUCT; ARMORED] == 1.15.
Proof. repeat split. Qed.

(** C2, evaluated on the code.  The shadow archer carries [ELEMENTAL] and
    [UNDEAD]; against the Ironspike Launcher the two blended multipliers are
    0.45 and 0.625, both below neutral.  Their mean is 0.5375 (damage 16 of
    30); the code averages the smaller one with the neutral 1.0 its running
    maximum starts from, giving 0.725 (damage 21). *)
Theorem multi_tag_mean_uses_neutral_seed :
  lookup "ironspike_launcher" TOWER_DAMAGE_PROFILES = Some ironspike_launcher
  /\ typeMultiplier ironspike_launcher ELEMENTAL == 0.45
  /\ typeMultiplier ironspike_launcher UNDEAD == 0.625
  /\ finalMultiplier_spec ironspike_launcher [ELEMENTAL; UNDEAD] == 0.5375
  /\ finalMultiplier ironspike_launcher [ELEMENTAL; UNDEAD] == 0.725
  /\ effectiveDamage_spec 30 ironspike_launcher [ELEMENTAL; UNDEAD] = 16
  /\ calculateEffectiveDamage 30 "ironspike_launcher" [ELEMENTAL; UNDEAD] = 21.
Proof. repeat split. Qed.

(** ** Theme allocation *)


Lemma Qgtb_true (a b : Q) : Qgtb a b = true -> b < a.
Proof.
  unfold Qgtb. intros Hb. apply negb_true_iff in Hb.
  apply Qnot_le_lt. intros Hle. apply Qle_bool_iff in Hle. congruence.
Qed.

Section NormalizedRatios.

Variable theme : WaveTheme.
Hypothesis focus_nonneg : 0 <= focusRatio theme.
Hypothesis support_nonneg : 0 <= supportRatio theme.
Hypothesis wildcard_nonneg : 0 <= wildcardRatio theme.

Lemma normFocusRatio_nonneg : 0 <= normFocusRatio theme.
Proof.
  unfold normFocusRatio.
  destruct (Qgtb _ 0) eqn:Hpos; [ | discriminate ].
  apply Qgtb_true in Hpos. apply Qle_shift_div_l; [ exact Hpos | ].
  now rewrite Qmult_0_l.
Qed.

Lemma normSupportRatio_nonneg : 0 <= normSupportRatio theme.
Proof.
  unfold normSupportRatio.
  destruct (Qgtb _ 0) eqn:Hpos; [ | apply Qle_refl ].
  apply Qgtb_true in Hpos. apply Qle_shift_div_l; [ exact Hpos | ].
  now rewrite Qmult_0_l.
Qed.

Lemma normRatios_focus_support_le_1 :
  normFocusRatio theme + normSupportRatio theme <= 1.
Proof.
  unfold normFocusRatio, normSupportRatio.
  destruct (Qgtb _ 0) eqn:Hpos; [ | discriminate ].
  apply Qgtb_true in Hpos.
  set (T := focusRatio theme + supportRatio theme + wildcardRatio theme) in *.
  assert (Hsum : focusRatio theme / T + supportRatio theme / T
                 == (focusRatio theme + supportRatio theme) / T).
  { field. intros Hz. rewrite Hz in Hpos. now apply Qlt_irrefl in Hpos. }
  rewrite Hsum. apply Qle_shift_div_r; [ exact Hpos | ].
  rewrite Qmult_1_l. unfold T.
  rewrite <- (Qplus_0_r (focusRatio theme + supportRatio theme)) at 1.
  apply Qplus_le_r. exact wildcard_nonneg.
Qed.

End NormalizedRatios.

Lemma floor_share_nonneg (total : Z) (x : Q) :
  (0 <= total)%Z -> 0 <= x -> (0 <= Math_floor (inject_Z total * x))%Z.
Proof.
  intros Ht Hx. unfold Math_floor.
  change 0%Z with (Qfloor 0). apply Qfloor_resp_le.
  apply Qmult_le_0_compat; [ | exact Hx ].
  change 0 with (inject_Z 0). now rewrite <- Zle_Qle.
Qed.

Lemma floor_shares_le_total (total : Z) (x y : Q) :
  (0 <= total)%Z -> x + y <= 1 ->
  (Math_floor (inject_Z total * x) + Math_floor (inject_Z total * y) <= total)%Z.
Proof.
  intros Ht Hxy. unfold Math_floor.
  rewrite Zle_Qle, inject_Z_plus.
  apply Qle_trans with (inject_Z total * x + inject_Z total * y).
  - apply Qplus_le_compat; apply Qfloor_le.
  - rewrite <- Qmult_plus_distr_r.
    rewrite <- (Qmult_1_l (inject_Z total)) at 2.
    rewrite (Qmult_comm (inject_Z total)).
    apply Qmult_le_compat_r; [ exact Hxy | ].
    change 0 with (inject_Z 0). now rewrite <- Zle_Qle.
Qed.

(** *** The allocation in binary64 arithmetic *)


Section RoundedRatios.

Variable theme : WaveTheme.
Hypothesis focus_nonneg : 0 <= focusRatio theme.
Hypothesis support_nonneg : 0 <= supportRatio theme.
Hypothesis wildcard_nonneg : 0 <= wildcardRatio theme.




End RoundedRatios.







(** ** Sequence construction *)

Section Composition.

Context {h : Host} {laws : HostLaws h}.

Lemma bind_lift {A B : Type} (f : RNG -> A * RNG) (k : A -> M B) (g : RNG) :
  bind (lift f) k g = k (fst (f g)) (snd (f g)).
Proof. unfold bind, lift. destruct (f g); reflexivity. Qed.

Lemma rotate1_length {A : Type} (l : list A) :
  List.length (rotate1 l) = List.length l.
Proof.
  destruct l as [ | x rest ]; simpl; [ reflexivity | ].
  rewrite length_app. simpl. lia.
Qed.

Lemma rotate1_In {A : Type} (l : list A) (x : A) : In x (rotate1 l) -> In x l.
Proof.
  destruct l as [ | y rest ]; simpl; [ tauto | ].
  rewrite in_app_iff. simpl. tauto.
Qed.

Lemma seam_length (sequence batch : list string) :
  List.length (seam sequence batch) = List.length batch.
Proof.
  unfold seam.
  destruct (rev sequence) as [ | lastElem ? ]; [ reflexivity | ].
  destruct batch as [ | first [ | second rest ] ]; try reflexivity.
  destruct (String.eqb lastElem first); [ apply rotate1_length | reflexivity ].
Qed.

Lemma seam_In (sequence batch : list string) (x : string) :
  In x (seam sequence batch) -> In x batch.
Proof.
  unfold seam.
  destruct (rev sequence) as [ | lastElem ? ]; [ tauto | ].
  destruct batch as [ | first [ | second rest ] ]; try tauto.
  destruct (String.eqb lastElem first); [ apply rotate1_In | tauto ].
Qed.

(** With a non-empty pool every pass of the loop lengthens the sequence, so
    the loop finishes within the fuel it is given and returns at least
    [count] entries, all of them from the pool. *)
Lemma buildLoop_ok (fuel : nat) (pool : list string) (count : Z) :
  pool <> [] ->
  forall (sequence : list string) (g : RNG),
    (count - len sequence <= Z.of_nat fuel)%Z ->
    exists sequence' g',
      buildLoop fuel pool count sequence g = Some (sequence', g')
      /\ (count <= len sequence')%Z
      /\ (forall x, In x sequence' -> In x sequence \/ In x pool).
Proof.
  intros Hpool. induction fuel as [ | fuel IH ]; intros sequence g Hfuel.
  - simpl. destruct (len sequence <? count)%Z eqn:Hlt.
    + apply Z.ltb_lt in Hlt. lia.
    + apply Z.ltb_ge in Hlt. exists sequence, g. unfold ret. auto.
  - simpl. destruct (len sequence <? count)%Z eqn:Hlt.
    + rewrite bind_lift.
      set (batch := fst (Shuffle pool g)).
      assert (Hbatch : (1 <= len (seam sequence batch))%Z).
      { unfold len. rewrite seam_length. unfold batch. rewrite Shuffle_length.
        destruct pool; [ congruence | simpl; lia ]. }
      destruct (IH (sequence ++ seam sequence batch) (snd (Shuffle pool g)))
        as (sequence' & g' & Hrun & Hlen & Hin).
      { unfold len in *. rewrite length_app. lia. }
      exists sequence', g'. repeat split; try assumption.
      intros x Hx. destruct (Hin x Hx) as [Hx' | Hx']; [ | now right ].
      apply in_app_iff in Hx'. destruct Hx' as [Hx' | Hx']; [ now left | ].
      right. apply seam_In in Hx'. now apply Shuffle_incl in Hx'.
    + apply Z.ltb_ge in Hlt. exists sequence, g. unfold ret. auto.
Qed.

Lemma slice0_length {A : Type} (l : list A) (count : Z) :
  (0 <= count <= len l)%Z -> len (slice0 l count) = count.
Proof.
  intros Hcount. unfold slice0, len in *.
  destruct (count <? 0)%Z eqn:Hneg; [ apply Z.ltb_lt in Hneg; lia | ].
  rewrite length_firstn. lia.
Qed.

Lemma In_firstn {A : Type} (n : nat) (l : list A) (x : A) :
  In x (firstn n l) -> In x l.
Proof.
  intros Hx. rewrite <- (firstn_skipn n l). apply in_or_app. now left.
Qed.

Lemma slice0_In {A : Type} (l : list A) (count : Z) (x : A) :
  In x (slice0 l count) -> In x l.
Proof.
  unfold slice0. destruct (count <? 0)%Z; apply In_firstn.
Qed.

(** [buildSequenceFromPool] always returns; its entries come from the pool,
    and from a non-empty pool it returns exactly [count] of them (none when
    [count] is not positive). *)
Lemma buildSequenceFromPool_ok (pool : list string) (count : Z) (g : RNG) :
  exists sequence g',
    buildSequenceFromPool pool count g = Some (sequence, g')
    /\ (forall x, In x sequence -> In x pool)
    /\ (pool <> [] -> len sequence = Z.max 0 count).
Proof.
  unfold buildSequenceFromPool.
  destruct ((len pool =? 0)%Z || (count <=? 0)%Z) eqn:Hguard.
  - exists [], g. unfold ret. repeat split; [ intros x [] | ].
    intros Hpool. apply orb_true_iff in Hguard. destruct Hguard as [Hz | Hz].
    + apply Z.eqb_eq in Hz. destruct pool; [ congruence | discriminate ].
    + apply Z.leb_le in Hz. unfold len. simpl. lia.
  - apply orb_false_iff in Hguard. destruct Hguard as [Hpool Hcount].
    apply Z.eqb_neq in Hpool. apply Z.leb_gt in Hcount.
    assert (Hne : pool <> []) by (intros ->; apply Hpool; reflexivity).
    destruct (buildLoop_ok (Z.to_nat count) pool count Hne [] g)
      as (sequence & g' & Hrun & Hlen & Hin).
    { unfold len. simpl. lia. }
    unfold bind at 1. rewrite Hrun.
    exists (slice0 sequence count), g'. unfold ret. repeat split.
    + intros x Hx. apply slice0_In in Hx.
      destruct (Hin x Hx) as [ [] | Hx' ]; exact Hx'.
    + intros _. rewrite slice0_length; lia.
Qed.

Lemma buildSegments_ok (segments : list Segment) :
  forall (composition : list string) (g : RNG),
  exists sequence g',
    buildSegments segments composition g = Some (sequence, g')
    /\ (forall x, In x sequence ->
          In x composition \/ exists s, In s segments /\ In x (pool s)).
Proof.
  induction segments as [ | segment rest IH ]; intros composition g.
  - exists composition, g. simpl. unfold ret. auto.
  - simpl.
    destruct (buildSequenceFromPool_ok (pool segment) (size segment) g)
      as (part & g1 & Hrun & Hin & _).
    unfold bind at 1. rewrite Hrun.
    destruct (IH (composition ++ part) g1) as (sequence & g' & Hrest & Hin').
    exists sequence, g'. split; [ exact Hrest | ].
    intros x Hx. destruct (Hin' x Hx) as [Hx' | (s & Hs & Hx')].
    + apply in_app_iff in Hx'. destruct Hx' as [Hx' | Hx']; [ now left | ].
      right. exists segment. split; [ now left | now apply Hin ].
    + right. exists s. split; [ now right | exact Hx' ].
Qed.

Lemma getEnemyPoolByTypes_In (availableTypes : list string) (types : list EnemyType)
  (x : string) :
  In x (getEnemyPoolByTypes availableTypes types) -> In x availableTypes.
Proof.
  unfold getEnemyPoolByTypes. destruct (len types =? 0)%Z; [ intros [] | ].
  intros Hx. now apply filter_In in Hx.
Qed.

Lemma planSegments_pools (count : Z) (rF rS rW : list string)
  (counts : ThemeCounts) (segmentCount : Z) (s : Segment) :
  In s (planSegments count rF rS rW counts segmentCount) ->
  pool s = rF \/ pool s = rS \/ pool s = rW.
Proof.
  unfold planSegments.
  destruct (segmentCount <=? 1)%Z.
  { intros [<- | []]. now left. }
  destruct (segmentCount =? 2)%Z.
  { intros [<- | [<- | []]]; [ now left | now right; left ]. }
  rewrite !in_app_iff.
  intros [ [<- | []] | [Hs | [Hs | Hs] ] ]; [ now left | | | ].
  - destruct (0 <? _)%Z; [ | destruct Hs ].
    destruct Hs as [<- | []]. now right; left.
  - destruct (_ && _); [ | destruct Hs ].
    destruct Hs as [<- | []]. now right; right.
  - destruct (0 <? _)%Z; [ | destruct Hs ].
    destruct Hs as [<- | []]. now left.
Qed.

Lemma basePoolOf_nonempty (availableTypes : list string) :
  basePoolOf availableTypes <> [].
Proof.
  unfold basePoolOf. destruct availableTypes; simpl; discriminate.
Qed.

Lemma resolved_nonempty (chosen fallback : list string) :
  fallback <> [] -> (if (0 <? len chosen)%Z then chosen else fallback) <> [].
Proof.
  intros Hf. destruct chosen; simpl; [ exact Hf | discriminate ].
Qed.

Lemma resolved_In (chosen fallback base : list string) (x : string) :
  (forall y, In y chosen -> In y base) ->
  (forall y, In y fallback -> In y base) ->
  In x (if (0 <? len chosen)%Z then chosen else fallback) -> In x base.
Proof.
  intros Hc Hf. destruct (0 <? len chosen)%Z; auto.
Qed.

(** A themed composition always returns, has exactly [count] entries for a
    non-negative [count], and draws every entry from the base pool. *)
Lemma generateThemedComposition_ok
  (count : Z) (availableTypes : list string) (theme : WaveTheme) (g : RNG) :
  exists sequence g',
    generateThemedComposition count availableTypes theme g = Some (sequence, g')
    /\ ((0 <= count)%Z -> len sequence = count)
    /\ (forall x, In x sequence -> In x (basePoolOf availableTypes)).
Proof.
  unfold generateThemedComposition. fold (basePoolOf availableTypes).
  set (basePool := basePoolOf availableTypes).
  set (focusPool := getEnemyPoolByTypes basePool (focusTypes theme)).
  set (supportPool := getEnemyPoolByTypes basePool (supportTypes theme)).
  set (wildcardPool := getEnemyPoolByTypes basePool (wildcardTypes theme)).
  set (rF := if (0 <? len focusPool)%Z then focusPool else basePool).
  set (rS := if (0 <? len supportPool)%Z then supportPool else rF).
  set (rW := if (0 <? len wildcardPool)%Z then wildcardPool else rS).
  assert (HrF : forall x, In x rF -> In x basePool).
  { intros x. apply resolved_In; [ apply getEnemyPoolByTypes_In | auto ]. }
  assert (HrS : forall x, In x rS -> In x basePool).
  { intros x. apply resolved_In; [ apply getEnemyPoolByTypes_In | exact HrF ]. }
  assert (HrW : forall x, In x rW -> In x basePool).
  { intros x. apply resolved_In; [ apply getEnemyPoolByTypes_In | exact HrS ]. }
  assert (HrFne : rF <> []) by (apply resolved_nonempty, basePoolOf_nonempty).
  set (segments := planSegments count rF rS rW _ _).
  destruct (buildSegments_ok segments [] g) as (composition & g1 & Hrun & Hin).
  assert (Hcomp : forall x, In x composition -> In x basePool).
  { intros x Hx. destruct (Hin x Hx) as [ [] | (s & Hs & Hx') ].
    apply planSegments_pools in Hs.
    destruct Hs as [Hs | [Hs | Hs]]; rewrite Hs in Hx'; auto. }
  unfold bind at 1. rewrite Hrun.
  destruct (len composition <? count)%Z eqn:Hshort.
  - apply Z.ltb_lt in Hshort.
    destruct (buildSequenceFromPool_ok rF (count - len composition) g1)
      as (extra & g2 & Hrun2 & Hin2 & Hlen2).
    specialize (Hlen2 HrFne).
    unfold bind. rewrite Hrun2. unfold ret.
    exists (slice0 (composition ++ extra) count), g2. repeat split.
    + intros Hcount. apply slice0_length.
      unfold len in *. rewrite length_app. lia.
    + intros x Hx. apply slice0_In in Hx. apply in_app_iff in Hx.
      destruct Hx as [Hx | Hx]; [ now apply Hcomp | now apply HrF, Hin2 ].
  - apply Z.ltb_ge in Hshort. unfold bind, ret.
    exists (slice0 composition count), g1. repeat split.
    + intros Hcount. apply slice0_length. lia.
    + intros x Hx. apply slice0_In in Hx. now apply Hcomp.
Qed.

Lemma splice_insert_length {A : Type} (l : list A) (at_ : Z) (x : A) :
  List.length (splice_insert l at_ x) = S (List.length l).
Proof.
  unfold splice_insert. rewrite length_app. simpl.
  rewrite <- (firstn_skipn (Z.to_nat at_) l) at 3. rewrite length_app. lia.
Qed.

Lemma insertBosses_length (passes : nat) :
  forall (i spacing : Z) (bossType : string) (spaced : list string),
    List.length (insertBosses passes i spacing bossType spaced)
    = (passes + List.length spaced)%nat.
Proof.
  induction passes as [ | passes IH ]; intros i spacing bossType spaced; simpl.
  - reflexivity.
  - rewrite IH, splice_insert_length. lia.
Qed.

(** Composing a wave always returns, and returns exactly [count] entries
    when [count] is not negative. *)
Lemma generateWaveComposition_ok
  (this : WaveSystemV2.t) (count : Z) (availableTypes : list string)
  (theme : WaveTheme) (isBossWave : bool) (g : RNG) :
  exists sequence g',
    generateWaveComposition this count availableTypes theme isBossWave g
    = Some (sequence, g')
    /\ ((0 <= count)%Z -> len sequence = count).
Proof.
  unfold generateWaveComposition.
  destruct (isBossWave && (0 <? len (getAvailableBossTypes this))%Z).
  - rewrite bind_lift.
    set (bossType := fst (RND_pick (getAvailableBossTypes this) g)).
    set (g1 := snd (RND_pick (getAvailableBossTypes this) g)).
    set (bossCount := Z.min count (Z.max 1 (currentWave this / 25))).
    destruct (generateThemedComposition_ok (Z.max 0 (count - bossCount))
                availableTypes BOSS_SUPPORT_THEME g1)
      as (support & g2 & Hrun & Hlen & _).
    unfold bind. rewrite Hrun. specialize (Hlen ltac:(lia)).
    destruct (len support =? 0)%Z eqn:Hempty; unfold ret.
    + apply Z.eqb_eq in Hempty.
      exists (array_of bossCount bossType), g2. split; [ reflexivity | ].
      intros Hcount. unfold array_of, len. rewrite repeat_length. lia.
    + exists (insertBosses (Z.to_nat bossCount) 0
                (Z.max 1 (len support / (bossCount + 1))) bossType support), g2.
      split; [ reflexivity | ].
      intros Hcount. unfold len in *. rewrite insertBosses_length. lia.
  - destruct (generateThemedComposition_ok count availableTypes theme g)
      as (sequence & g' & Hrun & Hlen & _).
    exists sequence, g'. split; [ exact Hrun | exact Hlen ].
Qed.

(** C3.  For every enemy count [N >= 0], every theme and every pool of
    available archetypes, on a boss wave or not, composing the wave returns
    a sequence of exactly [N] entries. *)
Theorem generateWaveComposition_length
  (this : WaveSystemV2.t) (count : Z) (availableTypes : list string)
  (theme : WaveTheme) (isBossWave : bool) (g : RNG) :
  (0 <= count)%Z ->
  exists sequence g',
    generateWaveComposition this count availableTypes theme isBossWave g
    = Some (sequence, g')
    /\ len sequence = count.
Proof.
  intros Hcount.
  destruct (generateWaveComposition_ok this count availableTypes theme isBossWave g)
    as (sequence & g' & Hrun & Hlen).
  exists sequence, g'. split; [ exact Hrun | now apply Hlen ].
Qed.

(** ** Boss waves *)

Lemma isBossWaveNumber_spec (wave : Z) :
  isBossWaveNumber wave = true <-> (wave mod 10 = 0 /\ 0 < wave)%Z.
Proof.
  unfold isBossWaveNumber. rewrite andb_true_iff, Z.eqb_eq, Z.ltb_lt.
  split; intros [Hrem Hpos]; split; try exact Hpos.
  - rewrite <- Z.rem_mod_nonneg; [ exact Hrem | lia | lia ].
  - rewrite Z.rem_mod_nonneg; [ exact Hrem | lia | lia ].
Qed.

Lemma bossEntries_none (l : list string) :
  (forall x, In x l -> isBossId x = false) -> bossEntries l = [].
Proof.
  induction l as [ | y l IH ]; intros Hall; simpl; [ reflexivity | ].
  rewrite (Hall y (or_introl eq_refl)). apply IH.
  intros x Hx. apply Hall. now right.
Qed.

Lemma bossEntries_repeat (bossType : string) (n : nat) :
  isBossId bossType = true -> bossEntries (repeat bossType n) = repeat bossType n.
Proof.
  intros Hboss. induction n as [ | n IH ]; simpl; [ reflexivity | ].
  rewrite Hboss. f_equal. exact IH.
Qed.

Lemma bossEntries_splice (l : list string) (at_ : Z) (bossType : string) :
  isBossId bossType = true ->
  List.length (bossEntries (splice_insert l at_ bossType))
  = S (List.length (bossEntries l)).
Proof.
  intros Hboss. unfold bossEntries, splice_insert.
  rewrite filter_app. simpl. rewrite Hboss.
  rewrite <- (firstn_skipn (Z.to_nat at_) l) at 3.
  rewrite filter_app, !length_app. simpl. lia.
Qed.

Lemma bossEntries_insertBosses (passes : nat) (bossType : string) :
  isBossId bossType = true ->
  forall (i spacing : Z) (spaced : list string),
    List.length (bossEntries (insertBosses passes i spacing bossType spaced))
    = (passes + List.length (bossEntries spaced))%nat.
Proof.
  intros Hboss. induction passes as [ | passes IH ]; intros i spacing spaced; simpl.
  - reflexivity.
  - rewrite IH, bossEntries_splice by exact Hboss. lia.
Qed.

(** The regular pool never holds a boss: its entries passed the filter that
    excludes bosses, or it is the default archetype. *)
Lemma getAvailableEnemyTypes_not_boss (this : WaveSystemV2.t) (x : string) :
  In x (getAvailableEnemyTypes this) -> isBossId x = false.
Proof.
  unfold getAvailableEnemyTypes.
  destruct (len (filter _ (enemyTypes this)) =? 0)%Z.
  - intros [<- | []]. reflexivity.
  - intros Hx. apply filter_In in Hx. destruct Hx as [_ Hx].
    unfold isBossId. destruct (lookup x ENEMY_CONFIGS); [ | reflexivity ].
    apply andb_true_iff in Hx. destruct Hx as [_ Hx].
    now apply negb_true_iff in Hx.
Qed.

Lemma getAvailableEnemyTypes_base (this : WaveSystemV2.t) :
  basePoolOf (getAvailableEnemyTypes this) = getAvailableEnemyTypes this.
Proof.
  unfold basePoolOf, getAvailableEnemyTypes.
  destruct (len (filter _ (enemyTypes this)) =? 0)%Z eqn:Hempty.
  - reflexivity.
  - apply Z.eqb_neq in Hempty.
    destruct (filter _ (enemyTypes this)); [ now elim Hempty | reflexivity ].
Qed.

Lemma getAvailableBossTypes_boss (this : WaveSystemV2.t) (x : string) :
  In x (getAvailableBossTypes this) -> isBossId x = true.
Proof.
  unfold getAvailableBossTypes. intros Hx.
  apply filter_In in Hx. destruct Hx as [_ Hx].
  unfold isBossId. destruct (lookup x ENEMY_CONFIGS); [ | discriminate ].
  apply andb_true_iff in Hx. now destruct Hx.
Qed.

(** C7, amended.  A wave is a boss wave exactly when its number is a
    positive multiple of 10.  On a boss wave with an unlocked boss
    archetype, for every count multiplier, the composed sequence holds
    [min (enemyCount, max (1, floor (wave / 25)))] boss entries (none for a
    negative enemy count): the boss count is capped by the wave's enemy
    count, and is [max (1, floor (wave / 25))] whenever the wave has at
    least that many enemies. *)
Theorem boss_wave_boss_entries (this : WaveSystemV2.t) (g : RNG) :
  let wave := currentWave this in
  let availableTypes := getAvailableEnemyTypes this in
  let isBossWave := isBossWaveNumber wave in
  let theme := getWaveTheme this availableTypes isBossWave in
  let count := Scaling.enemyCount (getWaveScaling this (Some theme)) in
  let maxBosses := Z.max 1 (wave / 25) in
  (isBossWave = true <-> (wave mod 10 = 0 /\ 0 < wave)%Z)
  /\ (isBossWave = true -> getAvailableBossTypes this <> [] ->
      exists sequence g',
        generateWaveComposition this count availableTypes theme isBossWave g
        = Some (sequence, g')
        /\ len (bossEntries sequence) = Z.max 0 (Z.min count maxBosses)
        /\ ((maxBosses <= count)%Z -> len (bossEntries sequence) = maxBosses)).
Proof.
  intros wave availableTypes isBossWave theme count maxBosses.
  split; [ apply isBossWaveNumber_spec | ].
  intros Hboss Hbosses. rewrite Hboss. unfold generateWaveComposition.
  assert (Hsome : (0 <? len (getAvailableBossTypes this))%Z = true).
  { destruct (getAvailableBossTypes this); [ congruence | reflexivity ]. }
  rewrite Hsome. cbn [andb]. rewrite bind_lift.
  set (bossType := fst (RND_pick (getAvailableBossTypes this) g)).
  set (g1 := snd (RND_pick (getAvailableBossTypes this) g)).
  fold wave. fold maxBosses.
  set (bossCount := Z.min count maxBosses).
  assert (HbossType : isBossId bossType = true).
  { apply (getAvailableBossTypes_boss this). now apply RND_pick_In. }
  destruct (generateThemedComposition_ok (Z.max 0 (count - bossCount))
              availableTypes BOSS_SUPPORT_THEME g1)
    as (support & g2 & Hrun & _ & Hin).
  unfold bind. rewrite Hrun.
  assert (Hsupport : bossEntries support = []).
  { apply bossEntries_none. intros x Hx.
    apply (getAvailableEnemyTypes_not_boss this).
    apply Hin in Hx. unfold availableTypes in Hx.
    now rewrite getAvailableEnemyTypes_base in Hx. }
  destruct (len support =? 0)%Z; unfold ret.
  - exists (array_of bossCount bossType), g2. split; [ reflexivity | ].
    unfold array_of. rewrite bossEntries_repeat by exact HbossType.
    unfold len. rewrite repeat_length. lia.
  - exists (insertBosses (Z.to_nat bossCount) 0
              (Z.max 1 (len support / (bossCount + 1))) bossType support), g2.
    split; [ reflexivity | ].
    unfold len. rewrite bossEntries_insertBosses by exact HbossType.
    rewrite Hsupport. simpl. lia.
Qed.

(** C9.  For every wave number the regular pool returned by
    [getAvailableEnemyTypes] holds no archetype tagged boss, and so every
    entry of a composed non-boss wave is a non-boss archetype. *)
Theorem regular_pool_has_no_boss
  (this : WaveSystemV2.t) (count : Z) (theme : WaveTheme) (g : RNG) :
  (forall x, In x (getAvailableEnemyTypes this) -> isBossId x = false)
  /\ exists sequence g',
       generateWaveComposition this count (getAvailableEnemyTypes this) theme false g
       = Some (sequence, g')
       /\ forall x, In x sequence -> isBossId x = false.
Proof.
  split; [ apply getAvailableEnemyTypes_not_boss | ].
  unfold generateWaveComposition. cbn [andb].
  destruct (generateThemedComposition_ok count (getAvailableEnemyTypes this) theme g)
    as (sequence & g' & Hrun & _ & Hin).
  exists sequence, g'. split; [ exact Hrun | ].
  intros x Hx. apply (getAvailableEnemyTypes_not_boss this).
  apply Hin in Hx. now rewrite getAvailableEnemyTypes_base in Hx.
Qed.

(** ** Scheduling *)

(** The [forEach] of [startNextWave] registers one spawn callback per entry
    of the composition, in order, and keeps exactly those timers. *)
Lemma scheduleSpawns_spec (waveComposition : list string) :
  forall (index : Z) (scaling : Scaling.t) (gameSpeed : Q) (this : WaveSystemV2.t),
    let this' := scheduleSpawns waveComposition index scaling gameSpeed this in
    map callback (time (scene this'))
    = map callback (time (scene this))
      ++ map (fun enemyType => SpawnCallback enemyType scaling) waveComposition
    /\ spawnTimers this'
       = spawnTimers this
         ++ seq (List.length (time (scene this))) (List.length waveComposition)
    /\ events (scene this') = events (scene this)
    /\ currentWave this' = currentWave this
    /\ isSpawning this' = isSpawning this
    /\ waveInProgress this' = waveInProgress this
    /\ enemies this' = enemies this.
Proof.
  induction waveComposition as [ | enemyType rest IH ];
    intros index scaling gameSpeed this.
  - simpl. rewrite !app_nil_r. repeat split.
  - cbn [scheduleSpawns delayedCall].
    match goal with
    | |- context [scheduleSpawns rest ?i scaling gameSpeed ?t] =>
        specialize (IH i scaling gameSpeed t)
    end.
    cbv zeta in IH.
    destruct IH as (Hcb & Hkept & Hev & Hwave & Hsp & Hin & Hen).
    cbv zeta. rewrite Hcb, Hkept, Hev, Hwave, Hsp, Hin, Hen.
    cbn [with_spawnTimers with_scene scene time spawnTimers events currentWave
         isSpawning waveInProgress enemies].
    rewrite map_app, length_app. cbn [map callback List.length seq].
    rewrite <- !app_assoc. cbn [app]. rewrite Nat.add_1_r.
    repeat split.
Qed.

(** A call of [startNextWave] while no wave is in progress is accepted: the
    counter advances by one, the wave is announced, the clock receives one
    spawn callback per entry of the composed sequence followed by the
    closing callback, and the kept timers are the spawn timers alone. *)
Lemma startNextWave_accepted (gameSpeed : Q) (this : WaveSystemV2.t) (g : RNG) :
  waveInProgress this = false ->
  let started := with_flags (currentWave this + 1) true true 0 this in
  let availableTypes := getAvailableEnemyTypes started in
  let isBossWave := isBossWaveNumber (currentWave started) in
  let theme := getWaveTheme started availableTypes isBossWave in
  let scaling := getWaveScaling started (Some theme) in
  let announced :=
    with_scene (emit (waveStarted (currentWave started)) (scene started)) started in
  exists waveComposition g' this',
    generateWaveComposition announced (Scaling.enemyCount scaling) availableTypes
                            theme isBossWave g
    = Some (waveComposition, g')
    /\ startNextWave gameSpeed this g = Some (true, this', g')
    /\ currentWave this' = (currentWave this + 1)%Z
    /\ waveInProgress this' = true
    /\ isSpawning this' = true
    /\ events (scene this') = events (scene this) ++ [waveStarted (currentWave this + 1)]
    /\ map callback (time (scene this'))
       = map callback (time (scene this))
         ++ map (fun enemyType => SpawnCallback enemyType scaling) waveComposition
         ++ [SpawningDoneCallback]
    /\ spawnTimers this'
       = spawnTimers this
         ++ seq (List.length (time (scene this))) (List.length waveComposition).
Proof.
  intros Hidle started availableTypes isBossWave theme scaling announced.
  destruct (generateWaveComposition_ok announced (Scaling.enemyCount scaling)
              availableTypes theme isBossWave g)
    as (waveComposition & g' & Hrun & _).
  pose proof (scheduleSpawns_spec waveComposition 0 scaling gameSpeed announced)
    as Hsched.
  cbv zeta in Hsched.
  destruct Hsched as (Hcb & Hkept & Hev & Hwave & Hsp & Hin & _).
  eexists waveComposition, g', _. split; [ exact Hrun | ].
  split.
  { unfold startNextWave. rewrite Hidle.
    fold started. fold availableTypes. fold isBossWave. fold theme. fold scaling.
    fold announced. unfold bind. rewrite Hrun.
    cbn [delayedCall]. unfold ret. reflexivity. }
  cbn [with_scene scene time spawnTimers events currentWave isSpawning
       waveInProgress].
  rewrite map_app, Hcb, Hkept, Hev, Hwave, Hsp, Hin.
  cbn [map callback]. rewrite <- app_assoc.
  repeat split.
Qed.

(** The position of the closing timer is never among the timers that the
    same call keeps. *)
Lemma closing_timer_not_kept (registered scheduled : nat) :
  ~ In (registered + scheduled)%nat (seq registered scheduled).
Proof. rewrite in_seq. lia. Qed.

End Composition.

(** The sample host satisfies the laws. *)
Lemma rotate_length {A : Type} (n : nat) :
  forall l : list A, List.length (rotate n l) = List.length l.
Proof.
  induction n as [ | n IH ]; intros l; simpl; [ reflexivity | ].
  rewrite IH. apply rotate1_length.
Qed.

Lemma rotate_In {A : Type} (n : nat) :
  forall (l : list A) (x : A), In x (rotate n l) -> In x l.
Proof.
  induction n as [ | n IH ]; intros l x; simpl; [ tauto | ].
  intros Hx. apply rotate1_In. now apply IH.
Qed.

Lemma sampleHost_laws : HostLaws sampleHost.
Proof.
  constructor; simpl.
  - intros l g. apply rotate_length.
  - intros l g x. apply rotate_In.
  - intros l g Hl. apply nth_In. apply Nat.mod_upper_bound.
    destruct l; [ congruence | discriminate ].
Qed.

Lemma generateWaveComposition_length_witness :
  exists sequence g',
    @generateWaveComposition sampleHost (atWave 10 freshSystem) 27
      (getAvailableEnemyTypes (atWave 10 freshSystem)) BOSS_SUPPORT_THEME true 3%nat
    = Some (sequence, g')
    /\ len sequence = 27%Z.
Proof.
  apply (@generateWaveComposition_length sampleHost sampleHost_laws).
  lia.
Defined.

Lemma boss_wave_boss_entries_witness :
  exists sequence g',
    @generateWaveComposition sampleHost (atWave 10 freshSystem) 27
      (getAvailableEnemyTypes (atWave 10 freshSystem)) BOSS_SUPPORT_THEME true 3%nat
    = Some (sequence, g')
    /\ len (bossEntries sequence) = 1%Z.
Proof.
  destruct (proj2 (@boss_wave_boss_entries sampleHost sampleHost_laws
                     (atWave 10 freshSystem) 3%nat) eq_refl)
    as (sequence & g' & Hrun & Hcount & _).
  - discriminate.
  - exists sequence, g'. split; [ exact Hrun | exact Hcount ].
Defined.

(** C7, the claim as stated fails on the code.  With a count multiplier of
    0 wave 10 has no enemies: it is a boss wave, the warlord is unlocked and
    [max (1, floor (10 / 25))] is 1, yet the composed sequence is empty and
    only the closing timer is scheduled. *)
Lemma boss_count_capped_by_enemy_count :
  let this := atWave 10 (constructor emptyScene 1 1 0 1) in
  let availableTypes := getAvailableEnemyTypes this in
  let theme := getWaveTheme this availableTypes (isBossWaveNumber 10) in
  let count := Scaling.enemyCount (@getWaveScaling sampleHost this (Some theme)) in
  isBossWaveNumber 10 = true
  /\ getAvailableBossTypes this = ["warlord"%string]
  /\ Z.max 1 (10 / 25) = 1%Z
  /\ count = 0%Z
  /\ @generateWaveComposition sampleHost this count availableTypes theme true 0%nat
     = Some ([], 1%nat)
  /\ len (bossEntries []) <> Z.max 1 (10 / 25).
Proof. vm_compute. repeat split. discriminate. Qed.

Lemma regular_pool_has_no_boss_witness :
  (forall x, In x (getAvailableEnemyTypes (atWave 15 freshSystem)) -> isBossId x = false)
  /\ exists sequence g',
       @generateWaveComposition sampleHost (atWave 15 freshSystem) 38
         (getAvailableEnemyTypes (atWave 15 freshSystem))
         (nth 2 WAVE_THEME_CYCLE BOSS_SUPPORT_THEME) false 5%nat
       = Some (sequence, g')
       /\ forall x, In x sequence -> isBossId x = false.
Proof.
  exact (@regular_pool_has_no_boss sampleHost sampleHost_laws
           (atWave 15 freshSystem) 38
           (nth 2 WAVE_THEME_CYCLE BOSS_SUPPORT_THEME) 5%nat).
Defined.

(** ** Wave runtime *)

(** C4.  A call of [startNextWave] while a wave is in progress returns
    [false] and leaves the instance as it was: the wave counter, the kept
    timers, the scene clock and the emitted events are unchanged, and no
    random draw is made. *)
Theorem startNextWave_rejected_in_progress
  {h : Host} (gameSpeed : Q) (this : WaveSystemV2.t) (g : RNG) :
  waveInProgress this = true ->
  startNextWave gameSpeed this g = Some (false, this, g).
Proof.
  intros Hbusy. unfold startNextWave. rewrite Hbusy. reflexivity.
Qed.

Lemma startNextWave_rejected_in_progress_witness :
  @startNextWave sampleHost 1 wave1 1%nat = Some (false, wave1, 1%nat).
Proof.
  apply (@startNextWave_rejected_in_progress sampleHost).
  reflexivity.
Defined.

(** ** Spawn interval *)

(** C8, the claim as stated fails on the code.  Wave 21 runs the theme
    [swarm_pressure], whose multiplier is 0.92: the base interval is 300,
    the themed value is [round 276 = 276], and the code returns the floor
    280 where the specification's formula gives 300. *)
Lemma spawnInterval_below_300 :
  let this := atWave 21 freshSystem in
  let theme := getWaveTheme this (getAvailableEnemyTypes this) (isBossWaveNumber 21) in
  theme = swarm_pressure
  /\ Scaling.spawnInterval (@getWaveScaling sampleHost this (Some theme)) = 280%Z
  /\ spawnInterval_spec 21 theme = 300%Z
  /\ Scaling.spawnInterval (@getWaveScaling sampleHost this (Some theme))
     <> spawnInterval_spec 21 theme.
Proof. vm_compute. repeat split. discriminate. Qed.

(** C8, amended.  For every wave number and every theme the spawn interval
    is [max (280, round (max (300, 800 - wave * 30) * multiplier))]: the
    floor after the theme adjustment is 280, not 300.  It agrees with the
    specification's formula exactly when the themed value is at least 300,
    and lies in [280, 300) otherwise. *)
Theorem spawnInterval_formula {h : Host} (this : WaveSystemV2.t) (theme : WaveTheme) :
  let wave := currentWave this in
  let base := Z.max 300 (800 - wave * 30) in
  let themed := Math_round (inject_Z base * spawnIntervalMultiplier theme) in
  let interval := Scaling.spawnInterval (getWaveScaling this (Some theme)) in
  interval = Z.max 280 themed
  /\ (280 <= interval)%Z
  /\ ((300 <= themed)%Z -> interval = spawnInterval_spec wave theme)
  /\ ((themed < 300)%Z ->
      (interval < 300)%Z /\ spawnInterval_spec wave theme = 300%Z).
Proof.
  intros wave base themed interval.
  assert (Hdef : interval = Z.max 280 themed) by reflexivity.
  assert (Hspec : spawnInterval_spec wave theme = Z.max 300 themed) by reflexivity.
  rewrite Hspec, Hdef. repeat split; lia.
Qed.

(** ** Pausing and clearing *)

(** C6, evaluated on the code.  Wave 1 on a fresh system schedules eight
    spawn timers, kept at positions 0 to 7, and the closing timer at
    position 8 with delay 6163, which is not kept.  [pauseSpawning] pauses
    the eight and leaves the closing timer running: 6163 ms into the pause
    it fires, and the wave-complete guard holds with all eight spawns still
    pending.  [clear] destroys the eight and leaves the closing timer live:
    it fires after the clear, and when a second wave has been started in
    between it ends that wave's spawning phase with two spawns pending. *)
Theorem closing_timer_escapes_pause_and_clear :
  spawnTimers wave1 = [0; 1; 2; 3; 4; 5; 6; 7]%nat
  /\ option_map callback (timerAt 8 wave1) = Some SpawningDoneCallback
  /\ option_map delay (timerAt 8 wave1) = Some 6163
  /\ option_map paused (timerAt 7 (pauseSpawning wave1)) = Some true
  /\ option_map paused (timerAt 8 (pauseSpawning wave1)) = Some false
  /\ option_map hasDispatched (timerAt 8 (clockUpdate 6163 (pauseSpawning wave1)))
     = Some true
  /\ pendingSpawns (clockUpdate 6163 (pauseSpawning wave1)) = 8%nat
  /\ waveCompleteGuard (clockUpdate 6163 (pauseSpawning wave1)) = true
  /\ option_map destroyed (timerAt 7 (clear wave1)) = Some true
  /\ option_map live (timerAt 8 (clear wave1)) = Some true
  /\ option_map hasDispatched (timerAt 8 (clockUpdate 6163 (clear wave1)))
     = Some true
  /\ isSpawning wave2_after_clear = true
  /\ isSpawning (clockUpdate 6163 wave2_after_clear) = false
  /\ pendingSpawns (clockUpdate 6163 wave2_after_clear) = 2%nat.
Proof. vm_compute. repeat split. Qed.

(** Pausing and resuming the kept timers of wave 1 restores the instance:
    no delay and no elapsed time is lost. *)
Lemma pause_resume_roundtrip :
  resumeSpawning (pauseSpawning wave1) = wave1
  /\ map elapsed (time (scene (clockUpdate 5000 (pauseSpawning wave1))))
     = [0; 0; 0; 0; 0; 0; 0; 0; 5000].
Proof. vm_compute. split; reflexivity. Qed.

(** What does hold: a kept spawn timer keeps its position in the schedule
    across a pause of any length, and fires after the resume once its own
    delay has run. *)
Lemma paused_timer_keeps_elapsed (delta : Q) (timer : TimerEvent) :
  paused timer = true -> tick_timer delta timer = (timer, false).
Proof.
  intros Hp. unfold tick_timer. rewrite Hp, andb_false_r. reflexivity.
Qed.

Lemma destroyed_timer_never_fires (delta : Q) (timer : TimerEvent) :
  destroyed timer = true -> tick_timer delta timer = (timer, false).
Proof.
  intros Hd. unfold tick_timer, live. rewrite Hd, andb_false_r. reflexivity.
Qed.

(** ** Spawning *)

Lemma lookup_entry {T : Type} (key : string) (rec : list (string * T)) (v : T) :
  NoDup (map fst rec) -> In (key, v) rec -> lookup key rec = Some v.
Proof.
  induction rec as [ | [k w] rest IH ]; intros Hnd Hin; [ destruct Hin | ].
  cbn [map fst] in Hnd. inversion Hnd as [ | ? ? Hfresh Hrest ]; subst.
  cbn [lookup]. destruct Hin as [ Heq | Hin ].
  - injection Heq as -> ->. now rewrite String.eqb_refl.
  - destruct (String.eqb_spec key k) as [ -> | Hne ].
    + exfalso. apply Hfresh. change k with (fst (k, v)). now apply in_map.
    + now apply IH.
Qed.

Lemma lookup_found {T : Type} (key : string) (rec : list (string * T)) (v : T) :
  lookup key rec = Some v -> In (key, v) rec.
Proof.
  induction rec as [ | [k w] rest IH ]; cbn [lookup]; [ discriminate | ].
  destruct (String.eqb_spec key k) as [ -> | Hne ].
  - intros [= ->]. now left.
  - intros Hrest. right. now apply IH.
Qed.

(** C10.  [spawnEnemy] leaves the catalog as it was, appends one unit and
    announces it, and changes nothing else of the instance.  For an
    archetype of the catalog the unit carries a copy of the entry whose
    health, speed and reward are the floors of the products of the entry's
    values with the wave's multipliers, each product a double; for a name
    that is not in the catalog it carries the fallback entry with the
    floors of the products of 30, 80 and 10.  A second spawn of the same
    name gives an equal unit: the values scaled are the catalog's each
    time.  At wave 10 of a game at the default difficulty the warlord (400,
    18, 60) gets 1339, 25 and 68 and the goblin (40, 45, 8) gets 134, 62 and
    9; at wave 5 the goblin gets 78, 54 and 8; a name that is not in the
    catalog gets 100, 112 and 11 at wave 10. *)
Theorem spawnEnemy_floors_stats :
  (forall (catalog : list (string * EnemyConfig)) (type : string)
          (scaling : Scaling.t) (this : WaveSystemV2.t),
      NoDup (map fst catalog) ->
      exists unit : EnemyUnit,
        spawnEnemy type scaling catalog this
        = (catalog,
           with_scene (emit (enemySpawned unit) (scene this))
                      (with_enemies (enemies this ++ [unit]) this))
        /\ (forall baseConfig : EnemyConfig,
              In (type, baseConfig) catalog ->
              isFloorOfProduct (health (config unit)) (health baseConfig)
                               (Scaling.healthMultiplier scaling)
              /\ isFloorOfProduct (speed (config unit)) (speed baseConfig)
                                  (Scaling.speedMultiplier scaling)
              /\ isFloorOfProduct (reward (config unit)) (reward baseConfig)
                                  (Scaling.rewardMultiplier scaling)
              /\ id (config unit) = id baseConfig
              /\ damage (config unit) = damage baseConfig
              /\ Enemies.enemyTypes (config unit) = Enemies.enemyTypes baseConfig
              /\ unlockWave (config unit) = unlockWave baseConfig)
        /\ ((forall baseConfig : EnemyConfig, ~ In (type, baseConfig) catalog) ->
            isFloorOfProduct (health (config unit)) 30
                             (Scaling.healthMultiplier scaling)
            /\ isFloorOfProduct (speed (config unit)) 80
                                (Scaling.speedMultiplier scaling)
            /\ isFloorOfProduct (reward (config unit)) 10
                                (Scaling.rewardMultiplier scaling)
            /\ id (config unit) = "fallback"%string
            /\ damage (config unit) = 1%Z
            /\ Enemies.enemyTypes (config unit) = [SWARM; HUMANOID]
            /\ unlockWave (config unit) = 1%Z)
        /\ enemies (snd (spawnEnemy type scaling catalog
                           (snd (spawnEnemy type scaling catalog this))))
           = enemies this ++ [unit; unit])
  /\ (let stats (this : WaveSystemV2.t) :=
        map (fun unit => (health (config unit), speed (config unit),
                          reward (config unit))) (enemies this) in
      let wave5 := multipliersAt 5 0.3535533905932738 1.791759469228055 in
      let wave10 := multipliersAt 10 1 2.3978952727983707 in
      stats (snd (spawnEnemy "warlord" wave10 ENEMY_CONFIGS freshSystem))
      = [(1339, 25, 68)%Z]
      /\ stats (snd (spawnEnemy "goblin" wave10 ENEMY_CONFIGS freshSystem))
         = [(134, 62, 9)%Z]
      /\ stats (snd (spawnEnemy "goblin" wave5 ENEMY_CONFIGS freshSystem))
         = [(78, 54, 8)%Z]
      /\ stats (snd (spawnEnemy "no such archetype" wave10 ENEMY_CONFIGS freshSystem))
         = [(100, 112, 11)%Z]
      /\ option_map (fun c => (health c, speed c, reward c))
                    (lookup "warlord" (fst (spawnEnemy "warlord" wave10 ENEMY_CONFIGS
                                              freshSystem)))
         = Some (400, 18, 60)%Z).
Proof.
  split.
  - intros catalog type scaling this Hkeys. unfold spawnEnemy.
    destruct (lookup type catalog) as [ found | ] eqn:Hlookup.
    + eexists. split; [ reflexivity | ]. split; [ | split ].
      * intros baseConfig Hin.
        pose proof (lookup_entry type catalog baseConfig Hkeys Hin) as Hentry.
        assert (Hsame : found = baseConfig) by congruence. subst found.
        cbn [config health speed reward id damage Enemies.enemyTypes unlockWave].
        repeat split; apply scale_isFloorOfProduct.
      * intros Habsent. exfalso.
        exact (Habsent found (lookup_found type catalog found Hlookup)).
      * cbn [snd with_scene with_enemies enemies]. now rewrite <- app_assoc.
    + eexists. split; [ reflexivity | ]. split; [ | split ].
      * intros baseConfig Hin.
        pose proof (lookup_entry type catalog baseConfig Hkeys Hin). congruence.
      * intros _.
        cbn [config health speed reward id damage Enemies.enemyTypes unlockWave].
        repeat split; apply scale_isFloorOfProduct.
      * unfold spawnFallbackEnemy.
        cbn [snd with_scene with_enemies enemies]. now rewrite <- app_assoc.
  - vm_compute. repeat split.
Qed.

Lemma NoDup_ENEMY_CONFIGS : NoDup (map fst ENEMY_CONFIGS).
Proof.
  assert (Hdec : nodup string_dec (map fst ENEMY_CONFIGS) = map fst ENEMY_CONFIGS)
    by (vm_compute; reflexivity).
  rewrite <- Hdec. apply NoDup_nodup.
Defined.

Lemma spawnEnemy_floors_stats_witness :
  exists unit : EnemyUnit,
    spawnEnemy "warlord" (multipliersAt 10 1 2.3978952727983707) ENEMY_CONFIGS
               freshSystem
    = (ENEMY_CONFIGS,
       with_scene (emit (enemySpawned unit) (scene freshSystem))
                  (with_enemies (enemies freshSystem ++ [unit]) freshSystem)).
Proof.
  destruct (proj1 spawnEnemy_floors_stats ENEMY_CONFIGS "warlord"%string
              (multipliersAt 10 1 2.3978952727983707) freshSystem
              NoDup_ENEMY_CONFIGS) as [unit [Hspawn _]].
  exists unit. exact Hspawn.
Defined.

(** * Further properties of the code *)

(** ** Damage model: bounds, tag order, neutral cases *)

Lemma lookup_In {T : Type} (key : string) (rec : list (string * T)) (v : T) :
  lookup key rec = Some v -> In v (map snd rec).
Proof.
  induction rec as [ | [k w] rest IH ]; simpl; [ discriminate | ].
  destruct (String.eqb key k).
  - intros [= ->]. now left.
  - intros Hrest. right. now apply IH.
Qed.

(** Every weighted multiplier of a catalog tower lies between the smallest
    and the largest entry of the resistance table. *)
Lemma typeMultiplier_range (p : TowerDamageProfile) (t : EnemyType) :
  In p (map snd TOWER_DAMAGE_PROFILES) ->
  0.3 <= typeMultiplier p t /\ typeMultiplier p t <= 1.8.
Proof.
  simpl. intros Hin.
  repeat (destruct Hin as [ <- | Hin ];
          [ destruct t; vm_compute; split; discriminate | ]).
  destruct Hin.
Qed.

Lemma Qgtb_lt (a b : Q) : Qgtb a b = true -> b < a.
Proof.
  unfold Qgtb. intros Hb. apply negb_true_iff in Hb.
  apply Qnot_le_lt. intros Hle. apply Qle_bool_iff in Hle. congruence.
Qed.

Lemma Qgtb_le (a b : Q) : Qgtb a b = false -> a <= b.
Proof.
  unfold Qgtb. intros Hb. apply negb_false_iff in Hb. now apply Qle_bool_iff.
Qed.

Lemma Qltb_lt (a b : Q) : Qltb a b = true -> a < b.
Proof. unfold Qltb. apply (Qgtb_lt b a). Qed.

Lemma Qltb_le (a b : Q) : Qltb a b = false -> b <= a.
Proof. unfold Qltb. apply (Qgtb_le b a). Qed.

Section MultiplierBounds.

Variable p : TowerDamageProfile.
Variables lo hi : Q.
Hypothesis range : forall t, lo <= typeMultiplier p t /\ typeMultiplier p t <= hi.
Hypothesis lo_le_1 : lo <= 1.
Hypothesis hi_ge_1 : 1 <= hi.

Lemma bestMultiplier_le_hi (tags : list EnemyType) : bestMultiplier p tags <= hi.
Proof.
  unfold bestMultiplier.
  assert (Hfold : forall acc, acc <= hi ->
             fold_left
               (fun best t => if Qgtb (typeMultiplier p t) best
                              then typeMultiplier p t else best) tags acc <= hi).
  { induction tags as [ | tag rest IH ]; intros acc Hacc; simpl; [ exact Hacc | ].
    apply IH. destruct (Qgtb _ acc); [ apply range | exact Hacc ]. }
  apply Hfold. apply Qle_trans with 1; [ discriminate | exact hi_ge_1 ].
Qed.

Lemma worstMultiplier_ge_lo (tags : list EnemyType) : lo <= worstMultiplier p tags.
Proof.
  unfold worstMultiplier.
  assert (Hfold : forall acc, lo <= acc ->
             lo <= fold_left
                     (fun worst t => if Qltb (typeMultiplier p t) worst
                                     then typeMultiplier p t else worst) tags acc).
  { induction tags as [ | tag rest IH ]; intros acc Hacc; simpl; [ exact Hacc | ].
    apply IH. destruct (Qltb _ acc); [ apply range | exact Hacc ]. }
  apply Hfold. apply Qle_trans with 1; [ exact lo_le_1 | discriminate ].
Qed.

Lemma finalMultiplier_range (tags : list EnemyType) :
  (1 + lo) / 2 <= finalMultiplier p tags /\ finalMultiplier p tags <= hi.
Proof.
  pose proof (bestMultiplier_ge_neutral p tags) as Hb1.
  pose proof (bestMultiplier_le_hi tags) as Hb2.
  pose proof (worstMultiplier_le_neutral p tags) as Hw1.
  pose proof (worstMultiplier_ge_lo tags) as Hw2.
  unfold finalMultiplier.
  destruct (1 <? Z.of_nat (List.length tags))%Z; split.
  - apply Qle_shift_div_l; [ reflexivity | ].
    unfold Qdiv. rewrite <- Qmult_assoc.
    setoid_replace (/ 2 * 2) with 1 by reflexivity. rewrite Qmult_1_r.
    now apply Qplus_le_compat.
  - apply Qle_shift_div_r; [ reflexivity | ].
    setoid_replace (hi * 2) with (hi + hi) by ring.
    apply Qplus_le_compat; [ exact Hb2 | ].
    now apply Qle_trans with 1.
  - apply Qle_trans with 1; [ | exact Hb1 ].
    apply Qle_shift_div_r; [ reflexivity | ].
    setoid_replace (1 * 2) with (1 + 1) by ring.
    now apply Qplus_le_compat; [ apply Qle_refl | ].
  - exact Hb2.
Qed.

End MultiplierBounds.

(** X1.  For every tower of the catalog and every list of enemy types, the
    damage dealt lies between the floors of 65% and of 180% of a
    non-negative base damage; a base damage of 2 or more always deals at
    least 1. *)
Theorem damage_within_catalog_bounds
  (baseDamage : Q) (towerId : string) (p : TowerDamageProfile)
  (enemyTypes : list EnemyType) :
  lookup towerId TOWER_DAMAGE_PROFILES = Some p ->
  0 <= baseDamage ->
  inject_Z (Math_floor (baseDamage * 0.65))
  <= calculateEffectiveDamage baseDamage towerId enemyTypes
  /\ calculateEffectiveDamage baseDamage towerId enemyTypes
     <= inject_Z (Math_floor (baseDamage * 1.8))
  /\ (2 <= baseDamage -> 1 <= calculateEffectiveDamage baseDamage towerId enemyTypes).
Proof.
  intros Hp Hbase.
  assert (Hrange : 0.65 <= finalMultiplier p enemyTypes
                   /\ finalMultiplier p enemyTypes <= 1.8).
  { destruct (finalMultiplier_range p 0.3 1.8) with (tags := enemyTypes)
      as [Hlo Hhi]; try discriminate.
    - intros t. apply typeMultiplier_range. now apply lookup_In with towerId.
    - split; [ | exact Hhi ].
      eapply Qle_trans; [ | exact Hlo ]. discriminate. }
  destruct Hrange as [Hlo Hhi].
  unfold calculateEffectiveDamage. rewrite Hp.
  assert (Hlow : (Math_floor (baseDamage * 0.65)
                  <= Math_floor (baseDamage * finalMultiplier p enemyTypes))%Z).
  { apply Qfloor_resp_le. rewrite !(Qmult_comm baseDamage).
    now apply Qmult_le_compat_r. }
  repeat split.
  - now rewrite <- Zle_Qle.
  - rewrite <- Zle_Qle. apply Qfloor_resp_le. rewrite !(Qmult_comm baseDamage).
    now apply Qmult_le_compat_r.
  - intros Htwo. change 1 with (inject_Z 1). rewrite <- Zle_Qle.
    eapply Z.le_trans; [ | exact Hlow ].
    change 1%Z with (Qfloor 1.3). apply Qfloor_resp_le.
    setoid_replace 1.3 with (2 * 0.65) by reflexivity.
    now apply Qmult_le_compat_r.
Qed.

Lemma damage_within_catalog_bounds_witness :
  inject_Z (Math_floor (55 * 0.65))
  <= calculateEffectiveDamage 55 "sunflare_cannon" [CONSTRUCT; TANK]
  /\ calculateEffectiveDamage 55 "sunflare_cannon" [CONSTRUCT; TANK]
     <= inject_Z (Math_floor (55 * 1.8))
  /\ (2 <= 55 -> 1 <= calculateEffectiveDamage 55 "sunflare_cannon" [CONSTRUCT; TANK]).
Proof.
  apply (damage_within_catalog_bounds 55 "sunflare_cannon"
           {| primary := LIGHT; secondary := Some FIRE; primaryRatio := 0.7 |}).
  - reflexivity.
  - discriminate.
Defined.

(** The two running extrema of the damage loops, over any valuation of the
    enemy types: their result does not depend on the order of the list. *)
Section RunningExtrema.

Variable val : EnemyType -> Q.

Lemma max_step_proper (a a' : Q) (t : EnemyType) :
  a == a' ->
  (if Qgtb (val t) a then val t else a) == (if Qgtb (val t) a' then val t else a').
Proof.
  intros Ha. unfold Qgtb. rewrite (Qleb_comp _ _ (Qeq_refl (val t)) _ _ Ha).
  destruct (Qle_bool (val t) a'); simpl; [ exact Ha | reflexivity ].
Qed.

Lemma min_step_proper (a a' : Q) (t : EnemyType) :
  a == a' ->
  (if Qltb (val t) a then val t else a) == (if Qltb (val t) a' then val t else a').
Proof.
  intros Ha. unfold Qltb. rewrite (Qleb_comp _ _ Ha _ _ (Qeq_refl (val t))).
  destruct (Qle_bool a' (val t)); simpl; [ exact Ha | reflexivity ].
Qed.

Lemma max_fold_proper (l : list EnemyType) :
  forall a a', a == a' ->
    fold_left (fun best t => if Qgtb (val t) best then val t else best) l a
    == fold_left (fun best t => if Qgtb (val t) best then val t else best) l a'.
Proof.
  induction l as [ | t l IH ]; intros a a' Ha; simpl; [ exact Ha | ].
  apply IH. now apply max_step_proper.
Qed.

Lemma min_fold_proper (l : list EnemyType) :
  forall a a', a == a' ->
    fold_left (fun worst t => if Qltb (val t) worst then val t else worst) l a
    == fold_left (fun worst t => if Qltb (val t) worst then val t else worst) l a'.
Proof.
  induction l as [ | t l IH ]; intros a a' Ha; simpl; [ exact Ha | ].
  apply IH. now apply min_step_proper.
Qed.

Lemma three_way_extremum (a x y u1 u2 : Q) (le : Q -> Q -> Prop) :
  (forall b c, le b c -> le c b -> b == c) ->
  (u1 = a \/ u1 = x \/ u1 = y) -> (u2 = a \/ u2 = x \/ u2 = y) ->
  le a u1 -> le x u1 -> le y u1 -> le a u2 -> le x u2 -> le y u2 ->
  u1 == u2.
Proof.
  intros Hanti H1 H2 Ha1 Hx1 Hy1 Ha2 Hx2 Hy2.
  apply Hanti.
  - destruct H1 as [ -> | [ -> | -> ] ]; assumption.
  - destruct H2 as [ -> | [ -> | -> ] ]; assumption.
Qed.

Lemma max_step_facts (a : Q) (t : EnemyType) :
  let u := if Qgtb (val t) a then val t else a in
  (u = a \/ u = val t) /\ a <= u /\ val t <= u.
Proof.
  cbv zeta. destruct (Qgtb (val t) a) eqn:Hgt.
  - apply Qgtb_lt in Hgt. repeat split;
      [ now right | now apply Qlt_le_weak | apply Qle_refl ].
  - apply Qgtb_le in Hgt. repeat split; [ now left | apply Qle_refl | exact Hgt ].
Qed.

Lemma min_step_facts (a : Q) (t : EnemyType) :
  let u := if Qltb (val t) a then val t else a in
  (u = a \/ u = val t) /\ u <= a /\ u <= val t.
Proof.
  cbv zeta. destruct (Qltb (val t) a) eqn:Hlt.
  - apply Qltb_lt in Hlt. repeat split;
      [ now right | now apply Qlt_le_weak | apply Qle_refl ].
  - apply Qltb_le in Hlt. repeat split; [ now left | apply Qle_refl | exact Hlt ].
Qed.

Lemma max_step_swap (a : Q) (x y : EnemyType) :
  (if Qgtb (val y) (if Qgtb (val x) a then val x else a)
   then val y else (if Qgtb (val x) a then val x else a))
  == (if Qgtb (val x) (if Qgtb (val y) a then val y else a)
      then val x else (if Qgtb (val y) a then val y else a)).
Proof.
  destruct (max_step_facts a x) as (Hcx & Hax & Hxx).
  destruct (max_step_facts a y) as (Hcy & Hay & Hyy).
  destruct (max_step_facts (if Qgtb (val x) a then val x else a) y)
    as (Hc1 & Hl1 & Hr1).
  destruct (max_step_facts (if Qgtb (val y) a then val y else a) x)
    as (Hc2 & Hl2 & Hr2).
  apply (three_way_extremum a (val x) (val y) _ _ Qle).
  - intros b c. apply Qle_antisym.
  - destruct Hc1 as [ -> | -> ]; [ destruct Hcx as [ -> | -> ] | ]; tauto.
  - destruct Hc2 as [ -> | -> ]; [ destruct Hcy as [ -> | -> ] | ]; tauto.
  - now apply Qle_trans with (if Qgtb (val x) a then val x else a).
  - now apply Qle_trans with (if Qgtb (val x) a then val x else a).
  - exact Hr1.
  - now apply Qle_trans with (if Qgtb (val y) a then val y else a).
  - exact Hr2.
  - now apply Qle_trans with (if Qgtb (val y) a then val y else a).
Qed.

Lemma min_step_swap (a : Q) (x y : EnemyType) :
  (if Qltb (val y) (if Qltb (val x) a then val x else a)
   then val y else (if Qltb (val x) a then val x else a))
  == (if Qltb (val x) (if Qltb (val y) a then val y else a)
      then val x else (if Qltb (val y) a then val y else a)).
Proof.
  destruct (min_step_facts a x) as (Hcx & Hax & Hxx).
  destruct (min_step_facts a y) as (Hcy & Hay & Hyy).
  destruct (min_step_facts (if Qltb (val x) a then val x else a) y)
    as (Hc1 & Hl1 & Hr1).
  destruct (min_step_facts (if Qltb (val y) a then val y else a) x)
    as (Hc2 & Hl2 & Hr2).
  apply (three_way_extremum a (val x) (val y) _ _ (fun b c => c <= b)).
  - intros b c Hcb Hbc. now apply Qle_antisym.
  - destruct Hc1 as [ -> | -> ]; [ destruct Hcx as [ -> | -> ] | ]; tauto.
  - destruct Hc2 as [ -> | -> ]; [ destruct Hcy as [ -> | -> ] | ]; tauto.
  - now apply Qle_trans with (if Qltb (val x) a then val x else a).
  - now apply Qle_trans with (if Qltb (val x) a then val x else a).
  - exact Hr1.
  - now apply Qle_trans with (if Qltb (val y) a then val y else a).
  - exact Hr2.
  - now apply Qle_trans with (if Qltb (val y) a then val y else a).
Qed.

Lemma max_fold_permutation (l l' : list EnemyType) :
  Permutation l l' ->
  forall a,
    fold_left (fun best t => if Qgtb (val t) best then val t else best) l a
    == fold_left (fun best t => if Qgtb (val t) best then val t else best) l' a.
Proof.
  induction 1 as [ | x l l' _ IH | x y l | l l' l'' _ IH1 _ IH2 ]; intros a; simpl.
  - reflexivity.
  - apply IH.
  - apply max_fold_proper, max_step_swap.
  - now rewrite IH1.
Qed.

Lemma min_fold_permutation (l l' : list EnemyType) :
  Permutation l l' ->
  forall a,
    fold_left (fun worst t => if Qltb (val t) worst then val t else worst) l a
    == fold_left (fun worst t => if Qltb (val t) worst then val t else worst) l' a.
Proof.
  induction 1 as [ | x l l' _ IH | x y l | l l' l'' _ IH1 _ IH2 ]; intros a; simpl.
  - reflexivity.
  - apply IH.
  - apply min_fold_proper, min_step_swap.
  - now rewrite IH1.
Qed.

End RunningExtrema.

Lemma finalMultiplier_permutation (p : TowerDamageProfile) (tags tags' : list EnemyType) :
  Permutation tags tags' -> finalMultiplier p tags == finalMultiplier p tags'.
Proof.
  intros Hperm. unfold finalMultiplier.
  rewrite (Permutation_length Hperm).
  assert (Hb : bestMultiplier p tags == bestMultiplier p tags')
    by (apply (max_fold_permutation (typeMultiplier p)), Hperm).
  assert (Hw : worstMultiplier p tags == worstMultiplier p tags')
    by (apply (min_fold_permutation (typeMultiplier p)), Hperm).
  destruct (1 <? _)%Z; [ | exact Hb ].
  now rewrite Hb, Hw.
Qed.

(** X2.  The damage dealt does not depend on the order in which an archetype
    lists its enemy types. *)
Theorem damage_ignores_type_order
  (baseDamage : Q) (towerId : string) (enemyTypes enemyTypes' : list EnemyType) :
  Permutation enemyTypes enemyTypes' ->
  calculateEffectiveDamage baseDamage towerId enemyTypes
  = calculateEffectiveDamage baseDamage towerId enemyTypes'.
Proof.
  intros Hperm. unfold calculateEffectiveDamage.
  destruct (lookup towerId TOWER_DAMAGE_PROFILES) as [ p | ]; [ | reflexivity ].
  f_equal. apply Qfloor_comp.
  now rewrite (finalMultiplier_permutation p _ _ Hperm).
Qed.

Lemma damage_ignores_type_order_witness :
  calculateEffectiveDamage 30 "ironspike_launcher" [HUMANOID; ARMORED]
  = calculateEffectiveDamage 30 "ironspike_launcher" [ARMORED; HUMANOID].
Proof.
  apply (damage_ignores_type_order 30 "ironspike_launcher").
  apply perm_swap.
Defined.

Lemma damage_no_types (n : Z) (towerId : string) :
  calculateEffectiveDamage (inject_Z n) towerId [] = inject_Z n.
Proof.
  unfold calculateEffectiveDamage.
  destruct (lookup towerId TOWER_DAMAGE_PROFILES); [ | reflexivity ].
  f_equal. unfold Math_floor. rewrite <- (Qfloor_Z n) at 2.
  apply Qfloor_comp. unfold finalMultiplier, bestMultiplier. simpl.
  setoid_replace 1.0 with 1 by reflexivity. apply Qmult_1_r.
Qed.

(** X3.  The neutral cases.  A target that lists no enemy type takes exactly an
    integer base damage from every tower, known or not; a tower without a
    damage profile deals its base damage to every target; and no tower of
    [TOWER_CONFIGS] is without one: each has a profile under its own id,
    with the damage types of its configuration. *)
Theorem damage_neutral_cases :
  (forall (n : Z) (towerId : string),
      calculateEffectiveDamage (inject_Z n) towerId [] = inject_Z n)
  /\ (forall (baseDamage : Q) (towerId : string) (enemyTypes : list EnemyType),
        lookup towerId TOWER_DAMAGE_PROFILES = None ->
        calculateEffectiveDamage baseDamage towerId enemyTypes = baseDamage)
  /\ (forall (towerId : string) (config : Towers.TowerConfig),
        lookup towerId Towers.TOWER_CONFIGS = Some config ->
        Towers.id config = towerId
        /\ exists damageProfile,
             lookup towerId TOWER_DAMAGE_PROFILES = Some damageProfile
             /\ primary damageProfile = Towers.damageType config
             /\ secondary damageProfile = Towers.secondaryDamageType config).
Proof.
  split; [ exact damage_no_types | ]. split.
  - intros baseDamage towerId enemyTypes Hnone.
    unfold calculateEffectiveDamage. now rewrite Hnone.
  - intros towerId config.
    unfold Towers.TOWER_CONFIGS, Towers.mkTower. cbn [lookup].
    repeat
      (match goal with
       | |- context [String.eqb towerId ?key] =>
           destruct (String.eqb towerId key) eqn:Hkey;
           [ apply String.eqb_eq in Hkey; subst towerId; intros [= <-];
             split; [ reflexivity | ];
             eexists; split; [ vm_compute; reflexivity | split; reflexivity ]
           | clear Hkey ]
       end).
    discriminate.
Qed.

(** ** The codex mirrors the damage calculation *)

Lemma max_fold_ext (val val' : EnemyType -> Q) (l : list EnemyType) :
  (forall t, val t == val' t) ->
  forall a a', a == a' ->
    fold_left (fun best t => if Qgtb (val t) best then val t else best) l a
    == fold_left (fun best t => if Qgtb (val' t) best then val' t else best) l a'.
Proof.
  intros Hval. induction l as [ | t l IH ]; intros a a' Ha; simpl; [ exact Ha | ].
  apply IH. unfold Qgtb. rewrite (Qleb_comp _ _ (Hval t) _ _ Ha).
  destruct (Qle_bool (val' t) a'); simpl; [ exact Ha | apply Hval ].
Qed.

Lemma min_fold_ext (val val' : EnemyType -> Q) (l : list EnemyType) :
  (forall t, val t == val' t) ->
  forall a a', a == a' ->
    fold_left (fun worst t => if Qltb (val t) worst then val t else worst) l a
    == fold_left (fun worst t => if Qltb (val' t) worst then val' t else worst) l a'.
Proof.
  intros Hval. induction l as [ | t l IH ]; intros a a' Ha; simpl; [ exact Ha | ].
  apply IH. unfold Qltb. rewrite (Qleb_comp _ _ Ha _ _ (Hval t)).
  destruct (Qle_bool a' (val' t)); simpl; [ exact Ha | apply Hval ].
Qed.

(** The single loop of the codex computes the two extrema side by side. *)
Lemma netMultiplier_fold (damageType : DamageType) (l : list EnemyType) :
  forall best worst,
    fold_left
      (fun '(best, worst) enemyType =>
         let mult := at_type (ENEMY_DAMAGE_MULTIPLIERS enemyType) damageType in
         (if Qgtb mult best then mult else best,
          if Qltb mult worst then mult else worst))
      l (best, worst)
    = (fold_left
         (fun best t =>
            if Qgtb (at_type (ENEMY_DAMAGE_MULTIPLIERS t) damageType) best
            then at_type (ENEMY_DAMAGE_MULTIPLIERS t) damageType else best) l best,
       fold_left
         (fun worst t =>
            if Qltb (at_type (ENEMY_DAMAGE_MULTIPLIERS t) damageType) worst
            then at_type (ENEMY_DAMAGE_MULTIPLIERS t) damageType else worst) l worst).
Proof.
  induction l as [ | t l IH ]; intros best worst; simpl; [ reflexivity | ].
  apply IH.
Qed.

(** X4.  For a tower that deals a single damage type, the net multiplier the
    codex shows for that type is the multiplier applied in combat, for every
    list of enemy types. *)
Theorem codex_matches_combat
  (p : TowerDamageProfile) (enemyTypes : list EnemyType) :
  secondary p = None ->
  primaryRatio p == 1 ->
  finalMultiplier p enemyTypes
  == InfoModal.calculateNetMultiplier enemyTypes (primary p).
Proof.
  intros Hsec Hratio.
  assert (Hval : forall t,
             typeMultiplier p t == at_type (ENEMY_DAMAGE_MULTIPLIERS t) (primary p)).
  { intros t. unfold typeMultiplier. rewrite Hsec. cbv zeta.
    rewrite Hratio. apply Qmult_1_r. }
  unfold InfoModal.calculateNetMultiplier, finalMultiplier, len.
  destruct enemyTypes as [ | t rest ]; [ reflexivity | ].
  change (Z.of_nat (List.length (t :: rest)) =? 0)%Z with false. cbv iota.
  rewrite netMultiplier_fold.
  assert (Hb := max_fold_ext _ _ (t :: rest) Hval 1.0 1.0 (Qeq_refl _)).
  assert (Hw := min_fold_ext _ _ (t :: rest) Hval 1.0 1.0 (Qeq_refl _)).
  unfold bestMultiplier, worstMultiplier.
  destruct (1 <? _)%Z; [ | exact Hb ].
  now rewrite Hb, Hw.
Qed.

Lemma codex_matches_combat_witness :
  finalMultiplier ember_watch [SWARM; UNDEAD]
  == InfoModal.calculateNetMultiplier [SWARM; UNDEAD] (primary ember_watch).
Proof.
  apply (codex_matches_combat ember_watch [SWARM; UNDEAD]); reflexivity.
Defined.

(** ** Effectiveness labels *)

(** X5.  Each label of [getEffectivenessText] is shown on exactly one interval
    of multipliers; everything below 0.3 reads as immune. *)
Theorem effectiveness_label_intervals (multiplier : Q) :
  let label := DamageText.text (DamageText.getEffectivenessText multiplier) in
  (label = "SUPER EFFECTIVE!"%string <-> 1.8 <= multiplier)
  /\ (label = "Effective"%string <-> 1.4 <= multiplier /\ multiplier < 1.8)
  /\ (label = "Slightly Effective"%string <-> 1.1 <= multiplier /\ multiplier < 1.4)
  /\ (label = "Normal"%string <-> 0.9 <= multiplier /\ multiplier < 1.1)
  /\ (label = "Resisted"%string <-> 0.6 <= multiplier /\ multiplier < 0.9)
  /\ (label = "Strongly Resisted"%string <-> 0.3 <= multiplier /\ multiplier < 0.6)
  /\ (label = "IMMUNE"%string <-> multiplier < 0.3).
Proof.
  cbv zeta. unfold DamageText.getEffectivenessText, DamageText.Qgeb.
  repeat match goal with
         | |- context [Qle_bool ?a multiplier] =>
             let H := fresh "H" in
             destruct (Qle_bool a multiplier) eqn:H;
             [ apply Qle_bool_iff in H
             | assert (multiplier < a)
                 by (apply Qnot_le_lt; intros Hle; apply Qle_bool_iff in Hle;
                     congruence);
               clear H ]
         end;
    cbn [DamageText.text];
    unfold Qle, Qlt in *; cbn [Qnum Qden] in *;
    repeat split; intros; try discriminate; try lia.
Qed.

(** ** Theme selection *)

(** What every theme of the tables satisfies. *)
Lemma theme_tables_valid (theme : WaveTheme) :
  theme = BOSS_SUPPORT_THEME
  \/ In theme WAVE_THEME_CYCLE
  \/ (exists wave, EARLY_WAVE_THEMES wave = Some theme) ->
  0 < focusRatio theme /\ 0 <= supportRatio theme /\ 0 <= wildcardRatio theme
  /\ focusRatio theme + supportRatio theme + wildcardRatio theme == 1
  /\ (1 <= segmentCount theme <= 4)%Z
  /\ focusTypes theme <> []
  /\ 0.92 <= spawnIntervalMultiplier theme /\ spawnIntervalMultiplier theme <= 1.1.
Proof.
  intros [ -> | [ Hin | (wave & Hearly) ] ].
  - vm_compute. repeat split; discriminate.
  - simpl in Hin.
    repeat (destruct Hin as [ <- | Hin ];
            [ vm_compute; repeat split; discriminate | ]).
    destruct Hin.
  - unfold EARLY_WAVE_THEMES in Hearly.
    repeat match type of Hearly with
           | (if ?c then _ else _) = _ =>
               destruct c;
               [ injection Hearly as <-; vm_compute; repeat split; discriminate | ]
           end.
    discriminate.
Qed.

(** The shape of a synthesized "new threat" theme: its focus is the
    non-empty list of the strategic types among the newly unlocked ones, and
    the available pool holds an archetype of one of them. *)
Lemma getUnlockTheme_shape
  (this : WaveSystemV2.t) (availableTypes : list string) (theme : WaveTheme) :
  getUnlockTheme this availableTypes = Some theme ->
  exists focus,
    focus <> []
    /\ focus = filter (fun type => existsb (EnemyType_eqb type) strategicTypes)
                      (getNewEnemyTypesForWave this)
    /\ getEnemyPoolByTypes availableTypes focus <> []
    /\ theme = mkTheme "new_threat" focus [SWARM; HUMANOID; ARMORED] [TANK]
                       0.65 0.25 0.1 3 1.0.
Proof.
  unfold getUnlockTheme.
  generalize (getNewEnemyTypesForWave this) as newlyUnlockedTypes.
  intros newlyUnlockedTypes.
  destruct (len newlyUnlockedTypes =? 0)%Z; [ discriminate | ].
  set (focus := filter _ newlyUnlockedTypes).
  destruct (len focus =? 0)%Z eqn:Hfocus; [ discriminate | ].
  destruct (len (getEnemyPoolByTypes availableTypes focus) =? 0)%Z eqn:Hpool;
    [ discriminate | ].
  intros [= <-]. exists focus. repeat split.
  - intros Hnil. rewrite Hnil in Hfocus. discriminate.
  - intros Hnil. rewrite Hnil in Hpool. discriminate.
Qed.

(** X6.  Whatever the wave, the pool and the boss flag, the selected theme has a
    positive focus ratio, non-negative support and wildcard ratios that add
    up to 1 with it, a segment count between 1 and 4, at least one focus
    type, and a spawn-interval multiplier between 0.92 and 1.1. *)
Theorem getWaveTheme_valid
  (this : WaveSystemV2.t) (availableTypes : list string) (isBossWave : bool) :
  let theme := getWaveTheme this availableTypes isBossWave in
  0 < focusRatio theme /\ 0 <= supportRatio theme /\ 0 <= wildcardRatio theme
  /\ focusRatio theme + supportRatio theme + wildcardRatio theme == 1
  /\ (1 <= segmentCount theme <= 4)%Z
  /\ focusTypes theme <> []
  /\ 0.92 <= spawnIntervalMultiplier theme /\ spawnIntervalMultiplier theme <= 1.1.
Proof.
  cbv zeta. unfold getWaveTheme.
  destruct isBossWave; [ apply theme_tables_valid; now left | ].
  destruct (EARLY_WAVE_THEMES (currentWave this)) as [ earlyTheme | ] eqn:Hearly;
    [ apply theme_tables_valid; right; right; now exists (currentWave this) | ].
  destruct (getUnlockTheme this availableTypes) as [ unlockTheme | ] eqn:Hunlock.
  - apply getUnlockTheme_shape in Hunlock.
    destruct Hunlock as (focus & Hfocus & _ & _ & ->).
    unfold mkTheme.
    cbn [focusRatio supportRatio wildcardRatio segmentCount focusTypes
         spawnIntervalMultiplier].
    repeat split; try discriminate. exact Hfocus.
  - apply theme_tables_valid.
    destruct (nth_in_or_default
                (Z.to_nat (Z.rem (Z.max 0 (currentWave this - 5)) (len WAVE_THEME_CYCLE)))
                WAVE_THEME_CYCLE BOSS_SUPPORT_THEME) as [ Hin | -> ];
      [ right; now left | now left ].
Qed.

(** No archetype unlocks after wave 15. *)
Lemma no_unlock_after_15 (this : WaveSystemV2.t) :
  (15 < currentWave this)%Z -> getNewEnemyTypesForWave this = [].
Proof.
  intros Hlate. unfold getNewEnemyTypesForWave.
  assert (Hall : forall config, In config (map snd ENEMY_CONFIGS) ->
                                (unlockWave config <=? 15)%Z = true).
  { apply forallb_forall. vm_compute. reflexivity. }
  generalize (@nil EnemyType) as types.
  induction (map snd ENEMY_CONFIGS) as [ | config rest IH ]; intros types; simpl;
    [ reflexivity | ].
  assert (Hc : (unlockWave config =? currentWave this)%Z = false).
  { apply Z.eqb_neq. specialize (Hall config (or_introl eq_refl)).
    apply Z.leb_le in Hall. lia. }
  rewrite Hc. apply IH. intros c Hin. apply Hall. now right.
Qed.

(** X7.  Past wave 15 every wave that is not a boss wave takes its theme from the
    cycle, at position [(wave - 5) mod 8]: the themes repeat with period 8
    for ever. *)
Theorem getWaveTheme_cycles (this : WaveSystemV2.t) (availableTypes : list string) :
  (15 < currentWave this)%Z ->
  getWaveTheme this availableTypes false
  = nth (Z.to_nat ((currentWave this - 5) mod 8)) WAVE_THEME_CYCLE BOSS_SUPPORT_THEME
  /\ In (getWaveTheme this availableTypes false) WAVE_THEME_CYCLE
  /\ getWaveTheme (atWave (currentWave this + 8) this) availableTypes false
     = getWaveTheme this availableTypes false.
Proof.
  intros Hlate.
  assert (Hform : forall that : WaveSystemV2.t,
             (15 < currentWave that)%Z ->
             getWaveTheme that availableTypes false
             = nth (Z.to_nat ((currentWave that - 5) mod 8)) WAVE_THEME_CYCLE
                   BOSS_SUPPORT_THEME).
  { intros that Hthat. unfold getWaveTheme.
    assert (Hearly : EARLY_WAVE_THEMES (currentWave that) = None).
    { unfold EARLY_WAVE_THEMES.
      repeat match goal with
             | |- context [(currentWave that =? ?u)%Z] =>
                 replace (currentWave that =? u)%Z with false
                   by (symmetry; apply Z.eqb_neq; lia)
             end.
      reflexivity. }
    rewrite Hearly. unfold getUnlockTheme.
    rewrite (no_unlock_after_15 that Hthat). cbn [len List.length Z.of_nat Z.eqb].
    change (len WAVE_THEME_CYCLE) with 8%Z.
    rewrite Z.max_r by lia. rewrite Z.rem_mod_nonneg by lia. reflexivity. }
  rewrite (Hform this Hlate). repeat split.
  - apply nth_In. change (List.length WAVE_THEME_CYCLE) with 8%nat.
    pose proof (Z.mod_pos_bound (currentWave this - 5) 8 ltac:(lia)). lia.
  - rewrite (Hform (atWave (currentWave this + 8) this)) by (simpl; lia).
    cbn [atWave with_flags currentWave].
    replace (currentWave this + 8 - 5)%Z with (currentWave this - 5 + 1 * 8)%Z by lia.
    now rewrite Z.mod_add by lia.
Qed.

Lemma getWaveTheme_cycles_witness :
  getWaveTheme (atWave 21 freshSystem) [] false
  = nth (Z.to_nat ((21 - 5) mod 8)) WAVE_THEME_CYCLE BOSS_SUPPORT_THEME
  /\ In (getWaveTheme (atWave 21 freshSystem) [] false) WAVE_THEME_CYCLE
  /\ getWaveTheme (atWave (21 + 8) (atWave 21 freshSystem)) [] false
     = getWaveTheme (atWave 21 freshSystem) [] false.
Proof.
  apply (getWaveTheme_cycles (atWave 21 freshSystem) []).
  simpl. lia.
Defined.

Lemma EnemyType_eqb_eq (a b : EnemyType) : EnemyType_eqb a b = true <-> a = b.
Proof. destruct a, b; simpl; split; congruence. Qed.

Lemma existsb_EnemyType_eqb (x : EnemyType) (s : list EnemyType) :
  existsb (EnemyType_eqb x) s = true <-> In x s.
Proof.
  rewrite existsb_exists. split.
  - intros (y & Hy & Heq). apply EnemyType_eqb_eq in Heq. now subst.
  - intros Hx. exists x. split; [ exact Hx | now apply EnemyType_eqb_eq ].
Qed.

Lemma set_add_spec (x : EnemyType) (s : list EnemyType) :
  NoDup s ->
  NoDup (set_add x s) /\ (forall y, In y (set_add x s) <-> y = x \/ In y s).
Proof.
  intros Hs. unfold set_add.
  destruct (existsb (EnemyType_eqb x) s) eqn:Hmem.
  - apply existsb_EnemyType_eqb in Hmem. split; [ exact Hs | ].
    intros y. split; [ now right | intros [ -> | Hy ]; assumption ].
  - assert (Hnot : ~ In x s).
    { intros Hx. apply existsb_EnemyType_eqb in Hx. congruence. }
    split.
    + apply NoDup_app; [ exact Hs | repeat constructor; intros [] | ].
      intros y Hy [ <- | [] ]. now apply Hnot.
    + intros y. rewrite in_app_iff. simpl. intuition congruence.
Qed.

(** The inner loop of [getNewEnemyTypesForWave] over one archetype. *)
Lemma add_types_spec (enemyTypes : list EnemyType) :
  forall types, NoDup types ->
    let types' :=
      fold_left
        (fun types enemyType =>
           if EnemyType_eqb enemyType BOSS then types else set_add enemyType types)
        enemyTypes types in
    NoDup types'
    /\ (forall y, In y types' <-> In y types \/ (In y enemyTypes /\ y <> BOSS)).
Proof.
  induction enemyTypes as [ | t rest IH ]; intros types Hnd; cbn [fold_left]; cbv zeta.
  - split; [ exact Hnd | ]. intros y. simpl. tauto.
  - destruct (EnemyType_eqb t BOSS) eqn:Hboss.
    + apply EnemyType_eqb_eq in Hboss. subst t.
      destruct (IH types Hnd) as [Hnd' Hin]. split; [ exact Hnd' | ].
      intros y. rewrite Hin. simpl. intuition congruence.
    + assert (Hnb : t <> BOSS).
      { intros ->. simpl in Hboss. discriminate. }
      destruct (set_add_spec t types Hnd) as [Hnd1 Hin1].
      destruct (IH (set_add t types) Hnd1) as [Hnd' Hin]. split; [ exact Hnd' | ].
      intros y. rewrite Hin, Hin1. simpl. intuition congruence.
Qed.

Lemma getNewEnemyTypesForWave_spec (this : WaveSystemV2.t) :
  NoDup (getNewEnemyTypesForWave this)
  /\ forall y, In y (getNewEnemyTypesForWave this) <->
       y <> BOSS
       /\ exists config, In config (map snd ENEMY_CONFIGS)
                         /\ unlockWave config = currentWave this
                         /\ In y (Enemies.enemyTypes config).
Proof.
  unfold getNewEnemyTypesForWave.
  assert (Hgen : forall configs types, NoDup types ->
             let types' :=
               fold_left
                 (fun types config =>
                    if (unlockWave config =? currentWave this)%Z
                    then fold_left
                           (fun types enemyType =>
                              if EnemyType_eqb enemyType BOSS then types
                              else set_add enemyType types)
                           (Enemies.enemyTypes config) types
                    else types) configs types in
             NoDup types'
             /\ forall y, In y types' <->
                  In y types
                  \/ (y <> BOSS
                      /\ exists config, In config configs
                                        /\ unlockWave config = currentWave this
                                        /\ In y (Enemies.enemyTypes config))).
  { induction configs as [ | config rest IH ]; intros types Hnd;
      cbn [fold_left]; cbv zeta.
    - split; [ exact Hnd | ]. intros y. split; [ now left | ].
      intros [ Hy | (_ & c & [] & _) ]. exact Hy.
    - destruct (unlockWave config =? currentWave this)%Z eqn:Hwave.
      + apply Z.eqb_eq in Hwave.
        destruct (add_types_spec (Enemies.enemyTypes config) types Hnd)
          as [Hnd1 Hin1]. cbv zeta in Hnd1, Hin1.
        destruct (IH _ Hnd1) as [Hnd' Hin]. split; [ exact Hnd' | ].
        intros y. rewrite Hin, Hin1. split.
        * intros [ [ Hy | [Hy Hnb] ] | (Hnb & c & Hc & Hw & Hy) ].
          -- now left.
          -- right. split; [ exact Hnb | ]. exists config. simpl. auto.
          -- right. split; [ exact Hnb | ]. exists c. simpl. auto.
        * intros [ Hy | (Hnb & c & [ <- | Hc ] & Hw & Hy) ].
          -- now left; left.
          -- left. right. now split.
          -- right. split; [ exact Hnb | ]. now exists c.
      + apply Z.eqb_neq in Hwave.
        destruct (IH types Hnd) as [Hnd' Hin]. split; [ exact Hnd' | ].
        intros y. rewrite Hin. split.
        * intros [ Hy | (Hnb & c & Hc & Hw & Hy) ]; [ now left | ].
          right. split; [ exact Hnb | ]. exists c. simpl. auto.
        * intros [ Hy | (Hnb & c & [ <- | Hc ] & Hw & Hy) ];
            [ now left | congruence | ].
          right. split; [ exact Hnb | ]. now exists c. }
  destruct (Hgen (map snd ENEMY_CONFIGS) [] (NoDup_nil _)) as [Hnd Hin].
  split; [ exact Hnd | ].
  intros y. rewrite Hin. simpl. tauto.
Qed.

(** X8.  A "new threat" theme spotlights exactly the strategic, non-boss types of
    the archetypes that unlock on the current wave, each listed once. *)
Theorem new_threat_focus
  (this : WaveSystemV2.t) (availableTypes : list string) (theme : WaveTheme) :
  getUnlockTheme this availableTypes = Some theme ->
  NoDup (focusTypes theme)
  /\ forall type, In type (focusTypes theme) <->
       type <> BOSS
       /\ In type strategicTypes
       /\ exists config, In config (map snd ENEMY_CONFIGS)
                         /\ unlockWave config = currentWave this
                         /\ In type (Enemies.enemyTypes config).
Proof.
  intros Hunlock. apply getUnlockTheme_shape in Hunlock.
  destruct Hunlock as (focus & _ & Hfocus & _ & ->).
  unfold mkTheme. cbn [focusTypes]. subst focus.
  destruct (getNewEnemyTypesForWave_spec this) as [Hnd Hin].
  split; [ now apply NoDup_filter | ].
  intros type. rewrite filter_In, Hin, existsb_EnemyType_eqb. tauto.
Qed.

Lemma new_threat_focus_witness :
  NoDup [UNDEAD; ARMORED; BEAST; TANK]
  /\ forall type, In type [UNDEAD; ARMORED; BEAST; TANK] <->
       type <> BOSS
       /\ In type strategicTypes
       /\ exists config, In config (map snd ENEMY_CONFIGS)
                         /\ unlockWave config = 5%Z
                         /\ In type (Enemies.enemyTypes config).
Proof.
  apply (new_threat_focus (atWave 5 freshSystem)
           (getAvailableEnemyTypes (atWave 5 freshSystem))
           (mkTheme "new_threat" [UNDEAD; ARMORED; BEAST; TANK]
                    [SWARM; HUMANOID; ARMORED] [TANK] 0.65 0.25 0.1 3 1.0)).
  vm_compute. reflexivity.
Defined.

(** ** Segment planning *)

Lemma getSegmentCount_bounds (total preferred : Z) :
  (1 <= getSegmentCount total preferred <= 4)%Z
  /\ (getSegmentCount total preferred <= Z.max 1 preferred)%Z
  /\ ((total < 8)%Z -> getSegmentCount total preferred = 1%Z).
Proof.
  unfold getSegmentCount. repeat split; try lia.
  intros Hsmall.
  assert (total / 8 <= 0)%Z.
  { destruct (Z.le_gt_cases 0 total) as [Hpos | Hneg].
    - rewrite Z.div_small by lia. lia.
    - pose proof (Z.div_lt_upper_bound total 8 0 ltac:(lia) ltac:(lia)). lia. }
  lia.
Qed.

Lemma ceil_half_bounds (n : Z) :
  (0 <= n)%Z -> (0 <= Math_ceil (inject_Z n / 2) <= n)%Z.
Proof.
  intros Hn. unfold Math_ceil.
  assert (Hnq : 0 <= inject_Z n)
    by (change 0 with (inject_Z 0); now rewrite <- Zle_Qle).
  split.
  - change 0%Z with (Qceiling 0). apply Qceiling_resp_le.
    apply Qle_shift_div_l; [ reflexivity | ]. now rewrite Qmult_0_l.
  - rewrite <- (Qceiling_Z n) at 2. apply Qceiling_resp_le.
    apply Qle_shift_div_r; [ reflexivity | ].
    setoid_replace (inject_Z n * 2) with (inject_Z n + inject_Z n) by ring.
    rewrite <- (Qplus_0_r (inject_Z n)) at 1. now apply Qplus_le_r.
Qed.

(** The counts that [allocateThemeCounts] returns for a non-negative total
    and non-negative ratios. *)
Lemma allocateThemeCounts_counts (total : Z) (theme : WaveTheme) :
  (0 <= total)%Z ->
  0 <= focusRatio theme -> 0 <= supportRatio theme -> 0 <= wildcardRatio theme ->
  let counts := allocateThemeCounts total theme in
  (0 <= focusCount counts)%Z /\ (0 <= supportCount counts)%Z
  /\ (0 <= wildcardCount counts)%Z
  /\ (focusCount counts + supportCount counts + wildcardCount counts = total)%Z.
Proof.
  intros Htotal Hf Hs Hw.
  set (focusFloor := Math_floor (inject_Z total * normFocusRatio theme)).
  set (supportFloor := Math_floor (inject_Z total * normSupportRatio theme)).
  assert (Hf0 : (0 <= focusFloor)%Z)
    by (apply floor_share_nonneg; [ exact Htotal | now apply normFocusRatio_nonneg ]).
  assert (Hs0 : (0 <= supportFloor)%Z)
    by (apply floor_share_nonneg; [ exact Htotal | now apply normSupportRatio_nonneg ]).
  assert (Hsum : (focusFloor + supportFloor <= total)%Z)
    by (apply floor_shares_le_total;
        [ exact Htotal | now apply normRatios_focus_support_le_1 ]).
  cbv zeta. unfold allocateThemeCounts. fold focusFloor. fold supportFloor.
  destruct ((0 <? total)%Z && (focusFloor =? 0)%Z) eqn:Hbump.
  - apply andb_true_iff in Hbump. destruct Hbump as [Hpos Hzero].
    apply Z.ltb_lt in Hpos. apply Z.eqb_eq in Hzero.
    destruct (total - 1 - supportFloor <? 0)%Z eqn:Hneg;
      [ apply Z.ltb_lt in Hneg | apply Z.ltb_ge in Hneg ].
    + destruct (0 <? supportFloor)%Z eqn:Hsup;
        [ | apply Z.ltb_ge in Hsup; lia ].
      cbn [focusCount supportCount wildcardCount]. lia.
    + cbn [focusCount supportCount wildcardCount]. lia.
  - destruct (total - focusFloor - supportFloor <? 0)%Z eqn:Hneg;
      [ apply Z.ltb_lt in Hneg; lia | ].
    cbn [focusCount supportCount wildcardCount]. lia.
Qed.

Lemma planned_segments_fill_the_wave_full
  (count : Z) (theme : WaveTheme) (focus support wildcard : list string) :
  (0 <= count)%Z ->
  0 <= focusRatio theme -> 0 <= supportRatio theme -> 0 <= wildcardRatio theme ->
  let segments :=
    planSegments count focus support wildcard (allocateThemeCounts count theme)
                 (getSegmentCount count (segmentCount theme)) in
  fold_right (fun segment total => (size segment + total)%Z) 0%Z segments = count
  /\ Forall (fun segment => (0 <= size segment)%Z) segments
  /\ option_map pool (hd_error segments) = Some focus
  /\ (1 <= List.length segments <= 4)%nat.
Proof.
  intros Hcount Hf Hs Hw.
  destruct (allocateThemeCounts_counts count theme Hcount Hf Hs Hw)
    as (Hfc & Hsc & Hwc & Hsum).
  cbv zeta in Hfc, Hsc, Hwc, Hsum. cbv zeta.
  set (counts := allocateThemeCounts count theme) in *. clearbody counts.
  set (n := getSegmentCount count (segmentCount theme)). clearbody n.
  pose proof (ceil_half_bounds (focusCount counts) Hfc) as Hceil.
  unfold planSegments.
  destruct (n <=? 1)%Z eqn:H1.
  { cbn. repeat split; try lia. repeat constructor. exact Hcount. }
  destruct (n =? 2)%Z eqn:H2.
  { cbn. repeat split; try lia. repeat constructor; cbn [size]; lia. }
  set (focusFirst := Math_ceil (inject_Z (focusCount counts) / 2)) in *.
  destruct (n <? 4)%Z eqn:H4.
  - assert (H4' : (4 <=? n)%Z = false) by (apply Z.leb_gt; now apply Z.ltb_lt).
    rewrite H4'. cbn [andb].
    destruct (0 <? supportCount counts + wildcardCount counts)%Z eqn:Hsup;
      destruct (0 <? focusCount counts - focusFirst)%Z eqn:Hsec;
      cbn [app fold_right size hd_error option_map pool List.length];
      try apply Z.ltb_lt in Hsup; try apply Z.ltb_ge in Hsup;
      try apply Z.ltb_lt in Hsec; try apply Z.ltb_ge in Hsec;
      (repeat split; [ lia | repeat constructor; cbn [size]; lia | lia | lia ]).
  - assert (H4' : (4 <=? n)%Z = true) by (apply Z.leb_le; now apply Z.ltb_ge).
    rewrite H4'. cbn [andb]. rewrite Z.add_0_r.
    destruct (0 <? supportCount counts)%Z eqn:Hsup;
      destruct (0 <? wildcardCount counts)%Z eqn:Hwild;
      destruct (0 <? focusCount counts - focusFirst)%Z eqn:Hsec;
      cbn [app fold_right size hd_error option_map pool List.length];
      try apply Z.ltb_lt in Hsup; try apply Z.ltb_ge in Hsup;
      try apply Z.ltb_lt in Hwild; try apply Z.ltb_ge in Hwild;
      try apply Z.ltb_lt in Hsec; try apply Z.ltb_ge in Hsec;
      (repeat split; [ lia | repeat constructor; cbn [size]; lia | lia | lia ]).
Qed.

Lemma planned_segments_fill_the_wave_aux
  (count : Z) (theme : WaveTheme) (focus support wildcard : list string) :
  (0 <= count)%Z ->
  0 <= focusRatio theme -> 0 <= supportRatio theme -> 0 <= wildcardRatio theme ->
  fold_right (fun segment total => (size segment + total)%Z) 0%Z
    (planSegments count focus support wildcard (allocateThemeCounts count theme)
                  (getSegmentCount count (segmentCount theme))) = count
  /\ Forall (fun segment => (0 <= size segment)%Z)
            (planSegments count focus support wildcard (allocateThemeCounts count theme)
                          (getSegmentCount count (segmentCount theme))).
Proof.
  intros Hcount Hf Hs Hw.
  destruct (planned_segments_fill_the_wave_full count theme focus support wildcard
              Hcount Hf Hs Hw) as (Hsum & Hsizes & _).
  split; assumption.
Qed.

(** X9.  For a non-negative count and a theme with non-negative ratios, the
    planned segments open with the focus pool, number between one and four,
    have non-negative sizes, and their sizes add up to the count: no padding
    and no truncation is needed afterwards. *)
Theorem planned_segments_fill_the_wave
  (count : Z) (theme : WaveTheme) (focus support wildcard : list string) :
  (0 <= count)%Z ->
  0 <= focusRatio theme -> 0 <= supportRatio theme -> 0 <= wildcardRatio theme ->
  let segments :=
    planSegments count focus support wildcard (allocateThemeCounts count theme)
                 (getSegmentCount count (segmentCount theme)) in
  fold_right (fun segment total => (size segment + total)%Z) 0%Z segments = count
  /\ Forall (fun segment => (0 <= size segment)%Z) segments
  /\ option_map pool (hd_error segments) = Some focus
  /\ (1 <= List.length segments <= 4)%nat.
Proof. exact (planned_segments_fill_the_wave_full count theme focus support wildcard). Qed.

Lemma planned_segments_fill_the_wave_witness :
  let segments :=
    planSegments 27 ["a"%string] ["b"%string] ["c"%string]
                 (allocateThemeCounts 27 BOSS_SUPPORT_THEME)
                 (getSegmentCount 27 (segmentCount BOSS_SUPPORT_THEME)) in
  fold_right (fun segment total => (size segment + total)%Z) 0%Z segments = 27%Z
  /\ Forall (fun segment => (0 <= size segment)%Z) segments
  /\ option_map pool (hd_error segments) = Some ["a"%string]
  /\ (1 <= List.length segments <= 4)%nat.
Proof.
  apply (planned_segments_fill_the_wave 27 BOSS_SUPPORT_THEME);
    [ lia | discriminate | discriminate | discriminate ].
Defined.

Section PlanFollowed.

Context {h : Host} {laws : HostLaws h}.

(** Built from non-empty pools, the segments come out one after the other,
    each with exactly its planned size and drawn from its own pool. *)
Lemma buildSegments_parts (segments : list Segment) :
  Forall (fun segment => pool segment <> [] /\ (0 <= size segment)%Z) segments ->
  forall (composition : list string) (g : RNG),
  exists parts g',
    buildSegments segments composition g = Some (composition ++ List.concat parts, g')
    /\ Forall2 (fun segment part =>
                  len part = size segment
                  /\ forall x, In x part -> In x (pool segment)) segments parts.
Proof.
  induction 1 as [ | segment rest [Hpool Hsize] _ IH ]; intros composition g.
  - exists [], g. simpl. rewrite app_nil_r. split; [ reflexivity | constructor ].
  - simpl.
    destruct (buildSequenceFromPool_ok (pool segment) (size segment) g)
      as (part & g1 & Hrun & Hin & Hlen).
    unfold bind at 1. rewrite Hrun.
    destruct (IH (composition ++ part) g1) as (parts & g' & Hrest & Hparts).
    exists (part :: parts), g'. split.
    + rewrite Hrest. simpl. now rewrite <- app_assoc.
    + constructor; [ | exact Hparts ].
      split; [ rewrite (Hlen Hpool); lia | exact Hin ].
Qed.

Lemma concat_parts_length (segments : list Segment) (parts : list (list string)) :
  Forall2 (fun segment part =>
             len part = size segment
             /\ forall x, In x part -> In x (pool segment)) segments parts ->
  len (List.concat parts)
  = fold_right (fun segment total => (size segment + total)%Z) 0%Z segments.
Proof.
  induction 1 as [ | segment part segments parts [Hlen _] _ IH ]; simpl;
    [ reflexivity | ].
  unfold len in *. rewrite length_app. lia.
Qed.

(** X10.  For a non-negative count and a theme with non-negative ratios, the
    themed sequence is exactly the planned segments laid end to end: each
    segment contributes as many entries as planned, all from its own
    resolved pool, and nothing is padded or cut. *)
Theorem themed_sequence_follows_plan
  (count : Z) (availableTypes : list string) (theme : WaveTheme) (g : RNG) :
  (0 <= count)%Z ->
  0 <= focusRatio theme -> 0 <= supportRatio theme -> 0 <= wildcardRatio theme ->
  let basePool := basePoolOf availableTypes in
  let focusPool := getEnemyPoolByTypes basePool (focusTypes theme) in
  let supportPool := getEnemyPoolByTypes basePool (supportTypes theme) in
  let wildcardPool := getEnemyPoolByTypes basePool (wildcardTypes theme) in
  let resolvedFocusPool := if (0 <? len focusPool)%Z then focusPool else basePool in
  let resolvedSupportPool :=
    if (0 <? len supportPool)%Z then supportPool else resolvedFocusPool in
  let resolvedWildcardPool :=
    if (0 <? len wildcardPool)%Z then wildcardPool else resolvedSupportPool in
  let segments :=
    planSegments count resolvedFocusPool resolvedSupportPool resolvedWildcardPool
                 (allocateThemeCounts count theme)
                 (getSegmentCount count (segmentCount theme)) in
  exists parts g',
    generateThemedComposition count availableTypes theme g = Some (List.concat parts, g')
    /\ Forall2 (fun segment part =>
                  len part = size segment
                  /\ forall x, In x part -> In x (pool segment)) segments parts.
Proof.
  intros Hcount Hf Hs Hw basePool focusPool supportPool wildcardPool
         resolvedFocusPool resolvedSupportPool resolvedWildcardPool segments.
  assert (HrF : resolvedFocusPool <> [])
    by (apply resolved_nonempty, basePoolOf_nonempty).
  assert (HrS : resolvedSupportPool <> []) by (apply resolved_nonempty, HrF).
  assert (HrW : resolvedWildcardPool <> []) by (apply resolved_nonempty, HrS).
  destruct (planned_segments_fill_the_wave_aux count theme resolvedFocusPool
              resolvedSupportPool resolvedWildcardPool Hcount Hf Hs Hw)
    as (Hsum & Hsizes).
  fold segments in Hsum, Hsizes.
  assert (Hok : Forall (fun segment => pool segment <> [] /\ (0 <= size segment)%Z)
                       segments).
  { apply Forall_forall. intros segment Hin. split.
    - destruct (planSegments_pools _ _ _ _ _ _ _ Hin) as [ -> | [ -> | -> ] ];
        assumption.
    - revert segment Hin. now apply Forall_forall. }
  destruct (buildSegments_parts segments Hok [] g) as (parts & g' & Hrun & Hparts).
  exists parts, g'. split; [ | exact Hparts ].
  unfold generateThemedComposition. fold (basePoolOf availableTypes).
  fold basePool. fold focusPool. fold supportPool. fold wildcardPool.
  fold resolvedFocusPool. fold resolvedSupportPool. fold resolvedWildcardPool.
  fold segments. unfold bind at 1. rewrite Hrun. cbn [app].
  pose proof (concat_parts_length segments parts Hparts) as Hlen.
  rewrite Hsum in Hlen.
  replace (len (List.concat parts) <? count)%Z with false
    by (symmetry; apply Z.ltb_ge; lia).
  unfold bind, ret. do 2 f_equal.
  unfold slice0. replace (count <? 0)%Z with false by (symmetry; apply Z.ltb_ge; lia).
  apply firstn_all2. unfold len in Hlen. lia.
Qed.

End PlanFollowed.

Lemma themed_sequence_follows_plan_witness :
  exists parts g',
    @generateThemedComposition sampleHost 27 ["goblin"; "footman"; "warrior"]%string
      BOSS_SUPPORT_THEME 2%nat
    = Some (List.concat parts, g')
    /\ Forall2 (fun segment part =>
                  len part = size segment
                  /\ forall x, In x part -> In x (pool segment))
               [ {| pool := ["footman"; "warrior"]%string; size := 7 |};
                 {| pool := ["goblin"]%string; size := 14 |};
                 {| pool := ["footman"; "warrior"]%string; size := 6 |} ]
               parts.
Proof.
  apply (@themed_sequence_follows_plan sampleHost sampleHost_laws 27
           ["goblin"; "footman"; "warrior"]%string BOSS_SUPPORT_THEME 2%nat);
    [ lia | discriminate | discriminate | discriminate ].
Defined.

(** ** Boss waves: where the bosses go *)

Lemma regularEntries_splice (l : list string) (at_ : Z) (bossType : string) :
  isBossId bossType = true ->
  regularEntries (splice_insert l at_ bossType) = regularEntries l.
Proof.
  intros Hboss. unfold regularEntries, splice_insert.
  rewrite filter_app. simpl. rewrite Hboss. simpl.
  rewrite <- filter_app. now rewrite firstn_skipn.
Qed.

Lemma regularEntries_insertBosses (passes : nat) (bossType : string) :
  isBossId bossType = true ->
  forall (i spacing : Z) (spaced : list string),
    regularEntries (insertBosses passes i spacing bossType spaced)
    = regularEntries spaced.
Proof.
  intros Hboss. induction passes as [ | passes IH ]; intros i spacing spaced; simpl.
  - reflexivity.
  - rewrite IH. now apply regularEntries_splice.
Qed.

Lemma regularEntries_all (l : list string) :
  (forall x, In x l -> isBossId x = false) -> regularEntries l = l.
Proof.
  intros Hall. apply forallb_filter_id. apply forallb_forall.
  intros x Hx. now rewrite (Hall x Hx).
Qed.

Lemma regularEntries_repeat (bossType : string) (n : nat) :
  isBossId bossType = true -> regularEntries (repeat bossType n) = [].
Proof.
  intros Hboss. induction n as [ | n IH ]; simpl; [ reflexivity | ].
  now rewrite Hboss.
Qed.

Lemma splice_insert_before {A : Type} (l : list A) (at_ : Z) (x : A) (k : nat) :
  (k < Z.to_nat at_)%nat -> (k < List.length l)%nat ->
  nth_error (splice_insert l at_ x) k = nth_error l k.
Proof.
  intros Hat Hlen. unfold splice_insert.
  rewrite nth_error_app1 by (rewrite length_firstn; lia).
  rewrite nth_error_firstn.
  destruct (k <? Z.to_nat at_)%nat eqn:Hk; [ reflexivity | ].
  apply Nat.ltb_ge in Hk. lia.
Qed.

Lemma splice_insert_at {A : Type} (l : list A) (at_ : Z) (x : A) :
  (0 <= at_ <= len l)%Z ->
  nth_error (splice_insert l at_ x) (Z.to_nat at_) = Some x.
Proof.
  intros Hat. unfold splice_insert, len in *.
  rewrite nth_error_app2 by (rewrite length_firstn; lia).
  rewrite length_firstn.
  replace (Z.to_nat at_ - Nat.min (Z.to_nat at_) (List.length l))%nat with 0%nat by lia.
  reflexivity.
Qed.

(** The insertion loop only writes at or after its current insertion point:
    what lies before it stays where it is. *)
Lemma insertBosses_before (passes : nat) (bossType : string) (spacing : Z) :
  (1 <= spacing)%Z ->
  forall (i : Z) (spaced : list string) (k : nat),
    (0 <= i)%Z ->
    (Z.of_nat k < Z.min (len spaced) (spacing * (i + 1) + i))%Z ->
    nth_error (insertBosses passes i spacing bossType spaced) k = nth_error spaced k.
Proof.
  intros Hspacing. induction passes as [ | passes IH ]; intros i spaced k Hi Hk.
  - reflexivity.
  - cbn [insertBosses]. rewrite IH.
    + apply splice_insert_before; unfold len in *; lia.
    + lia.
    + unfold len in *. rewrite splice_insert_length. nia.
Qed.

(** Pass [j] of the loop puts its boss behind [spacing * (j + 1)] entries of
    the support composition, when there are that many. *)
Lemma insertBosses_at (passes : nat) (bossType : string) (spacing : Z) :
  (1 <= spacing)%Z ->
  forall (i : Z) (spaced : list string) (j : Z),
    (0 <= i)%Z -> (i <= j < i + Z.of_nat passes)%Z ->
    (spacing * (j + 1) + j <= len spaced + (j - i))%Z ->
    nth_error (insertBosses passes i spacing bossType spaced)
              (Z.to_nat (spacing * (j + 1) + j))
    = Some bossType.
Proof.
  intros Hspacing. induction passes as [ | passes IH ]; intros i spaced j Hi Hj Hfit.
  - lia.
  - cbn [insertBosses].
    destruct (Z.eq_dec j i) as [ -> | Hne ].
    + rewrite insertBosses_before.
      * replace (Z.min (len spaced) (spacing * (i + 1) + i))
          with (spacing * (i + 1) + i)%Z by lia.
        apply splice_insert_at. nia.
      * exact Hspacing.
      * lia.
      * unfold len in *. rewrite splice_insert_length. nia.
    + apply IH; [ lia | lia | ].
      unfold len in *. rewrite splice_insert_length. lia.
Qed.

Section BossWaves.

Context {h : Host} {laws : HostLaws h}.

(** X11.  On a boss wave with a boss unlocked, the composition is the themed
    support composition with copies of one picked boss put in: taking the
    bosses out gives the support composition back in its order, the wave
    opens with a support enemy whenever there is one, and boss [j] stands
    behind [spacing * (j + 1)] support enemies when the support composition
    is that long. *)
Theorem boss_wave_layout
  (this : WaveSystemV2.t) (count : Z) (theme : WaveTheme) (g : RNG) :
  getAvailableBossTypes this <> [] ->
  let availableTypes := getAvailableEnemyTypes this in
  let bossCount := Z.min count (Z.max 1 (currentWave this / 25)) in
  let bossType := fst (RND_pick (getAvailableBossTypes this) g) in
  exists support sequence g',
    generateThemedComposition (Z.max 0 (count - bossCount)) availableTypes
      BOSS_SUPPORT_THEME (snd (RND_pick (getAvailableBossTypes this) g))
    = Some (support, g')
    /\ generateWaveComposition this count availableTypes theme true g
       = Some (sequence, g')
    /\ In bossType (getAvailableBossTypes this)
    /\ regularEntries sequence = support
    /\ (forall x, In x (bossEntries sequence) -> x = bossType)
    /\ (support <> [] -> hd_error sequence = hd_error support)
    /\ let spacing := Z.max 1 (len support / (bossCount + 1)) in
       forall j, (0 <= j < bossCount)%Z -> (spacing * (j + 1) <= len support)%Z ->
         nth_error sequence (Z.to_nat (spacing * (j + 1) + j)) = Some bossType.
Proof.
  intros Hbosses availableTypes bossCount bossType.
  assert (Hpick : In bossType (getAvailableBossTypes this))
    by (now apply RND_pick_In).
  assert (HbossType : isBossId bossType = true)
    by (now apply (getAvailableBossTypes_boss this)).
  destruct (generateThemedComposition_ok (Z.max 0 (count - bossCount))
              availableTypes BOSS_SUPPORT_THEME
              (snd (RND_pick (getAvailableBossTypes this) g)))
    as (support & g' & Hrun & _ & Hin).
  assert (Hregular : forall x, In x support -> isBossId x = false).
  { intros x Hx. apply (getAvailableEnemyTypes_not_boss this).
    apply Hin in Hx. unfold availableTypes in Hx.
    now rewrite getAvailableEnemyTypes_base in Hx. }
  assert (Hsome : (0 <? len (getAvailableBossTypes this))%Z = true).
  { destruct (getAvailableBossTypes this); [ congruence | reflexivity ]. }
  assert (Hgen : generateWaveComposition this count availableTypes theme true g
                 = Some (if (len support =? 0)%Z
                         then array_of bossCount bossType
                         else insertBosses (Z.to_nat bossCount) 0
                                (Z.max 1 (len support / (bossCount + 1)))
                                bossType support, g')).
  { unfold generateWaveComposition. rewrite Hsome. cbn [andb].
    rewrite bind_lift. fold bossCount. unfold bind. rewrite Hrun.
    fold bossType. destruct (len support =? 0)%Z; reflexivity. }
  eexists support, _, g'. split; [ exact Hrun | ]. split; [ exact Hgen | ].
  split; [ exact Hpick | ].
  destruct (len support =? 0)%Z eqn:Hempty.
  - apply Z.eqb_eq in Hempty.
    assert (support = []) as ->
      by (destruct support; [ reflexivity | discriminate ]).
    unfold array_of. split; [ | split; [ | split ] ].
    + now apply regularEntries_repeat.
    + intros x Hx. unfold bossEntries in Hx. apply filter_In in Hx.
      destruct Hx as [Hx _]. now apply repeat_spec in Hx.
    + intros Hne. now elim Hne.
    + cbv zeta. intros j Hj Hfit.
      pose proof (Z.le_max_l 1 (len (@nil string) / (bossCount + 1))) as Hone.
      change (len (@nil string)) with 0%Z in Hfit at 2. nia.
  - apply Z.eqb_neq in Hempty. split; [ | split; [ | split ] ].
    + rewrite regularEntries_insertBosses by exact HbossType.
      now apply regularEntries_all.
    + intros x Hx. unfold bossEntries in Hx. apply filter_In in Hx.
      destruct Hx as [Hx Hb].
      assert (Hcases : forall passes i spacing spaced,
                 In x (insertBosses passes i spacing bossType spaced) ->
                 x = bossType \/ In x spaced).
      { induction passes as [ | passes IH ]; intros i spacing spaced Hx'.
        - now right.
        - cbn [insertBosses] in Hx'. apply IH in Hx'.
          destruct Hx' as [ Hx' | Hx' ]; [ now left | ].
          unfold splice_insert in Hx'. apply in_app_or in Hx'.
          destruct Hx' as [ Hx' | [ Hx' | Hx' ] ].
          + right. rewrite <- (firstn_skipn (Z.to_nat (Z.min (len spaced)
                       (spacing * (i + 1) + i))) spaced).
            apply in_or_app. now left.
          + now left.
          + right. rewrite <- (firstn_skipn (Z.to_nat (Z.min (len spaced)
                       (spacing * (i + 1) + i))) spaced).
            apply in_or_app. now right. }
      destruct (Hcases _ _ _ _ Hx) as [ Heq | Hsupport ]; [ exact Heq | ].
      rewrite (Hregular x Hsupport) in Hb. discriminate.
    + intros _. rewrite <- !nth_error_0. apply insertBosses_before.
      * lia.
      * lia.
      * unfold len in *. destruct support; [ now elim Hempty | simpl; lia ].
    + cbv zeta. intros j Hj Hfit. apply insertBosses_at; lia.
Qed.

End BossWaves.

Lemma boss_wave_layout_witness :
  exists support sequence g',
    @generateWaveComposition sampleHost (atWave 10 freshSystem) 27
      (getAvailableEnemyTypes (atWave 10 freshSystem)) BOSS_SUPPORT_THEME true 3%nat
    = Some (sequence, g')
    /\ regularEntries sequence = support
    /\ (forall x, In x (bossEntries sequence) -> x = "warlord"%string).
Proof.
  destruct (@boss_wave_layout sampleHost sampleHost_laws (atWave 10 freshSystem) 27
              BOSS_SUPPORT_THEME 3%nat)
    as (support & sequence & g' & _ & Hrun & _ & Hregular & Hbosses & _).
  - discriminate.
  - exists support, sequence, g'. split; [ exact Hrun | ].
    split; [ exact Hregular | exact Hbosses ].
Defined.

(** X12.  Every boss wave of an instance built by the constructor has a boss to
    pick: the first boss is unlocked at wave 10, the first boss wave. *)
Theorem boss_waves_have_a_boss (this : WaveSystemV2.t) :
  enemyTypes this = map fst ENEMY_CONFIGS ->
  isBossWaveNumber (currentWave this) = true ->
  In "warlord"%string (getAvailableBossTypes this).
Proof.
  intros Htypes Hboss. apply isBossWaveNumber_spec in Hboss.
  destruct Hboss as [Hmod Hpos].
  assert (Hten : (10 <= currentWave this)%Z).
  { destruct (Z.lt_ge_cases (currentWave this) 10) as [ Hlt | Hge ]; [ | lia ].
    rewrite Z.mod_small in Hmod by lia. lia. }
  unfold getAvailableBossTypes. apply filter_In. split.
  - rewrite Htypes. vm_compute. tauto.
  - assert (Hwarlord : exists config,
               lookup "warlord"%string ENEMY_CONFIGS = Some config
               /\ unlockWave config = 10%Z /\ isBoss config = true).
    { eexists. split; [ vm_compute; reflexivity | split; reflexivity ]. }
    destruct Hwarlord as (config & Hlookup & Hunlock & Htag).
    cbv beta. rewrite Hlookup, Hunlock, Htag, andb_true_r.
    apply Z.leb_le. exact Hten.
Qed.

Lemma boss_waves_have_a_boss_witness :
  In "warlord"%string (getAvailableBossTypes (atWave 20 freshSystem)).
Proof. apply boss_waves_have_a_boss; reflexivity. Defined.

(** ** Kept timers under [clear], [pauseSpawning] and [resumeSpawning] *)

Lemma update_timer_nth (f : TimerEvent -> TimerEvent) (j : nat) :
  forall (ts : list TimerEvent) (i : nat),
    nth_error (update_timer f j ts) i
    = if (i =? j)%nat then option_map f (nth_error ts i) else nth_error ts i.
Proof.
  induction j as [ | j IH ]; intros [ | t ts ] [ | i ]; simpl; try reflexivity.
  - now destruct (i =? j)%nat.
  - apply IH.
Qed.

(** Applying an idempotent [f] to every kept timer applies it once to each
    timer whose position is kept, however often the position is listed. *)
Lemma forEach_nth (f : TimerEvent -> TimerEvent) :
  (forall t, f (f t) = f t) ->
  forall (timers : list nat) (ts : list TimerEvent) (i : nat),
    nth_error (fold_left (fun ts timer => update_timer f timer ts) timers ts) i
    = option_map (if existsb (Nat.eqb i) timers then f else fun t => t)
                 (nth_error ts i).
Proof.
  intros Hidem. induction timers as [ | j timers IH ]; intros ts i.
  - simpl. now destruct (nth_error ts i).
  - cbn [fold_left existsb]. rewrite IH, update_timer_nth.
    destruct (i =? j)%nat; cbn [orb].
    + destruct (nth_error ts i) as [ t | ]; [ | reflexivity ].
      destruct (existsb (Nat.eqb i) timers); simpl; [ now rewrite Hidem | reflexivity ].
    + reflexivity.
Qed.

Lemma nth_error_ext_eq {A : Type} (l l' : list A) :
  (forall i, nth_error l i = nth_error l' i) -> l = l'.
Proof.
  revert l'. induction l as [ | x l IH ]; intros [ | y l' ] Hall.
  - reflexivity.
  - specialize (Hall 0%nat). discriminate.
  - specialize (Hall 0%nat). discriminate.
  - pose proof (Hall 0%nat) as Hhead. injection Hhead as ->.
    f_equal. apply IH. intros i. exact (Hall (S i)).
Qed.

Lemma tick_timers_fst (delta : Q) (ts : list TimerEvent) :
  fst (tick_timers delta ts) = map (fun t => fst (tick_timer delta t)) ts.
Proof.
  induction ts as [ | t ts IH ]; [ reflexivity | ].
  cbn [tick_timers map]. destruct (tick_timer delta t) as [t' fired].
  destruct (tick_timers delta ts) as [ts' cbs]. simpl in *. now rewrite IH.
Qed.

Lemma tick_timers_snd (delta : Q) (ts : list TimerEvent) :
  snd (tick_timers delta ts)
  = map callback (filter (fun t => snd (tick_timer delta t)) ts).
Proof.
  induction ts as [ | t ts IH ]; [ reflexivity | ].
  cbn [tick_timers filter]. destruct (tick_timer delta t) as [t' fired].
  destruct (tick_timers delta ts) as [ts' cbs]. simpl in *.
  destruct fired; simpl; now rewrite IH.
Qed.

Section ClockRuns.

Context {h : Host}.

Lemma runCallback_frame (cb : Callback) (this : WaveSystemV2.t) :
  time (scene (runCallback cb this)) = time (scene this)
  /\ spawnTimers (runCallback cb this) = spawnTimers this
  /\ currentWave (runCallback cb this) = currentWave this
  /\ waveInProgress (runCallback cb this) = waveInProgress this.
Proof.
  destruct cb as [ enemyType scaling | ]; cbn [runCallback].
  - unfold spawnEnemy, spawnFallbackEnemy.
    destruct (lookup enemyType ENEMY_CONFIGS); repeat split.
  - repeat split.
Qed.

Lemma runCallbacks_frame (fired : list Callback) :
  forall this : WaveSystemV2.t,
    let this' := fold_left (fun this cb => runCallback cb this) fired this in
    time (scene this') = time (scene this)
    /\ spawnTimers this' = spawnTimers this
    /\ currentWave this' = currentWave this
    /\ waveInProgress this' = waveInProgress this.
Proof.
  induction fired as [ | cb fired IH ]; intros this; [ repeat split | ].
  cbn [fold_left]. cbv zeta.
  destruct (IH (runCallback cb this)) as (Ht & Hk & Hw & Hp).
  destruct (runCallback_frame cb this) as (Ht' & Hk' & Hw' & Hp').
  rewrite Ht, Hk, Hw, Hp. repeat split; assumption.
Qed.

(** A clock update ticks every timer of the scene clock and leaves the list
    of kept timers alone. *)
Lemma clockUpdate_time (delta : Q) (this : WaveSystemV2.t) :
  time (scene (clockUpdate delta this))
  = map (fun t => fst (tick_timer delta t)) (time (scene this))
  /\ spawnTimers (clockUpdate delta this) = spawnTimers this.
Proof.
  unfold clockUpdate. rewrite <- tick_timers_fst.
  destruct (tick_timers delta (time (scene this))) as [ts fired].
  match goal with
  | |- context [fold_left _ fired ?start] =>
      destruct (runCallbacks_frame fired start) as (Ht & Hk & _)
  end.
  rewrite Ht, Hk. split; reflexivity.
Qed.

(** Over a run of the clock, a timer that is paused or destroyed stays as
    it is, whatever the frames are. *)
Lemma runClock_frozen (deltas : list Q) :
  forall (this : WaveSystemV2.t) (i : nat) (t : TimerEvent),
    nth_error (time (scene this)) i = Some t ->
    paused t = true \/ destroyed t = true ->
    nth_error (time (scene (runClock deltas this))) i = Some t.
Proof.
  induction deltas as [ | delta deltas IH ]; intros this i t Hnth Hfrozen.
  - exact Hnth.
  - cbn [runClock fold_left]. apply IH; [ | exact Hfrozen ].
    destruct (clockUpdate_time delta this) as [-> _].
    rewrite nth_error_map, Hnth. cbn [option_map]. f_equal.
    destruct Hfrozen as [ Hp | Hd ].
    + now rewrite paused_timer_keeps_elapsed.
    + now rewrite destroyed_timer_never_fires.
Qed.

(** X13.  [clear] destroys exactly the kept timers and leaves every other timer
    of the scene clock as it was; the instance is idle afterwards, keeps
    its wave counter, and no later run of the clock changes a timer that
    was kept, so none of them fires. *)
Theorem clear_destroys_kept_timers (this : WaveSystemV2.t) :
  let cleared := clear this in
  (forall i, nth_error (time (scene cleared)) i
             = option_map (if kept i this then destroy else fun t => t)
                          (nth_error (time (scene this)) i))
  /\ (forall deltas i t,
        kept i this = true -> nth_error (time (scene this)) i = Some t ->
        nth_error (time (scene (runClock deltas cleared))) i = Some (destroy t))
  /\ spawnTimers cleared = [] /\ enemies cleared = []
  /\ waveInProgress cleared = false /\ isSpawning cleared = false
  /\ currentWave cleared = currentWave this
  /\ events (scene cleared) = events (scene this).
Proof.
  assert (Hnth : forall i, nth_error (time (scene (clear this))) i
                 = option_map (if kept i this then destroy else fun t => t)
                              (nth_error (time (scene this)) i)).
  { intros i. unfold clear, forEachSpawnTimer, kept.
    cbn [with_flags with_enemies with_spawnTimers with_scene scene time].
    now apply forEach_nth. }
  cbv zeta. split; [ exact Hnth | ]. split; [ | repeat split ].
  intros deltas i t Hkept Ht. apply runClock_frozen.
  - rewrite Hnth, Hkept, Ht. reflexivity.
  - now right.
Qed.

Lemma pause_step_idempotent (b : bool) (t : TimerEvent) :
  let f := fun timer => if negb (hasDispatched timer) then set_paused b timer else timer in
  f (f t) = f t.
Proof.
  destruct t as [ d e p [ | ] ds cb ]; reflexivity.
Qed.

Lemma pauseSpawning_nth (this : WaveSystemV2.t) (i : nat) :
  nth_error (time (scene (pauseSpawning this))) i
  = option_map (fun t => if kept i this && negb (hasDispatched t)
                         then set_paused true t else t)
               (nth_error (time (scene this)) i).
Proof.
  unfold pauseSpawning, forEachSpawnTimer, kept.
  cbn [with_scene scene time].
  rewrite forEach_nth by (intros t; apply (pause_step_idempotent true)).
  destruct (nth_error (time (scene this)) i) as [ t | ]; [ | reflexivity ].
  now destruct (existsb (Nat.eqb i) (spawnTimers this)).
Qed.

Lemma resumeSpawning_nth (this : WaveSystemV2.t) (i : nat) :
  nth_error (time (scene (resumeSpawning this))) i
  = option_map (fun t => if kept i this && negb (hasDispatched t)
                         then set_paused false t else t)
               (nth_error (time (scene this)) i).
Proof.
  unfold resumeSpawning, forEachSpawnTimer, kept.
  cbn [with_scene scene time].
  rewrite forEach_nth by (intros t; apply (pause_step_idempotent false)).
  destruct (nth_error (time (scene this)) i) as [ t | ]; [ | reflexivity ].
  now destruct (existsb (Nat.eqb i) (spawnTimers this)).
Qed.

Lemma same_clock (this this' : WaveSystemV2.t) :
  time (scene this) = time (scene this') ->
  with_scene {| time := time (scene this); events := events (scene this') |} this'
  = this'.
Proof.
  intros ->. destruct this' as [ [ ts evs ] ]. reflexivity.
Qed.

(** X14.  [pauseSpawning] freezes every kept timer that has not fired: over any
    run of the clock it keeps its elapsed time and does not fire.
    [resumeSpawning] undoes a pause: after both, the instance is what
    [resumeSpawning] alone gives, and it is the instance before the pause
    when no kept pending timer was paused then. *)
Theorem pause_freezes_kept_timers (this : WaveSystemV2.t) :
  (forall deltas i t,
     kept i this = true -> nth_error (time (scene this)) i = Some t ->
     hasDispatched t = false ->
     nth_error (time (scene (runClock deltas (pauseSpawning this)))) i
     = Some (set_paused true t))
  /\ resumeSpawning (pauseSpawning this) = resumeSpawning this
  /\ ((forall i t, kept i this = true -> nth_error (time (scene this)) i = Some t ->
                   hasDispatched t = false -> paused t = false) ->
      resumeSpawning (pauseSpawning this) = this).
Proof.
  assert (Hcompose : time (scene (resumeSpawning (pauseSpawning this)))
                     = time (scene (resumeSpawning this))).
  { apply nth_error_ext_eq. intros i.
    rewrite !resumeSpawning_nth, pauseSpawning_nth.
    change (kept i (pauseSpawning this)) with (kept i this).
    destruct (nth_error (time (scene this)) i) as [ t | ]; [ | reflexivity ].
    cbn [option_map]. f_equal.
    destruct (kept i this), t as [ d e p [ | ] ds cb ]; reflexivity. }
  assert (Hresume : resumeSpawning (pauseSpawning this) = resumeSpawning this).
  { change (resumeSpawning (pauseSpawning this))
      with (with_scene
              {| time := time (scene (resumeSpawning (pauseSpawning this)));
                 events := events (scene this) |} this).
    rewrite Hcompose. reflexivity. }
  split; [ | split; [ exact Hresume | ] ].
  - intros deltas i t Hkept Ht Hd. apply runClock_frozen.
    + rewrite pauseSpawning_nth, Ht. cbn [option_map]. rewrite Hkept, Hd. reflexivity.
    + now left.
  - intros Hunpaused. rewrite Hresume.
    assert (Hsame : time (scene (resumeSpawning this)) = time (scene this)).
    { apply nth_error_ext_eq. intros i. rewrite resumeSpawning_nth.
      destruct (nth_error (time (scene this)) i) as [ t | ] eqn:Ht; [ | reflexivity ].
      cbn [option_map]. f_equal.
      destruct (kept i this) eqn:Hkept, (hasDispatched t) eqn:Hd;
        cbn [andb negb]; try reflexivity.
      pose proof (Hunpaused i t Hkept Ht Hd) as Hp.
      destruct t. simpl in *. now subst. }
    unfold resumeSpawning, forEachSpawnTimer in *.
    cbn [with_scene scene time] in Hsame. rewrite Hsame.
    destruct this as [ [ ts evs ] ]. reflexivity.
Qed.

End ClockRuns.

(** ** Caps of the wave scaling *)

Lemma Math_min_cases (a b : Q) :
  (a <= b /\ Math_min a b = a) \/ (b < a /\ Math_min a b = b).
Proof.
  unfold Math_min. destruct (Qle_bool a b) eqn:Hle.
  - left. split; [ now apply Qle_bool_iff | reflexivity ].
  - right. split; [ | reflexivity ].
    apply Qnot_le_lt. intros Hab. apply Qle_bool_iff in Hab. congruence.
Qed.

(** X15.  From wave 0 on and for non-negative difficulty multipliers, the speed
    multiplier of a wave lies between the difficulty's and one and a half
    times it, and is one and a half times it from wave 13 on; the reward
    multiplier is at most 1.25 times the difficulty's whatever the
    logarithm returns; the spawn interval never goes below 280 ms. *)
Theorem wave_scaling_caps {h : Host} (this : WaveSystemV2.t) (theme : option WaveTheme) :
  (0 <= currentWave this)%Z ->
  0 <= speedMultiplier this -> 0 <= rewardMultiplier this ->
  let scaling := getWaveScaling this theme in
  speedMultiplier this <= Scaling.speedMultiplier scaling
  /\ Scaling.speedMultiplier scaling <= 1.5 * speedMultiplier this
  /\ ((13 <= currentWave this)%Z ->
      Scaling.speedMultiplier scaling == 1.5 * speedMultiplier this)
  /\ Scaling.rewardMultiplier scaling <= 1.25 * rewardMultiplier this
  /\ (280 <= Scaling.spawnInterval scaling)%Z.
Proof.
  intros Hwave Hspeed Hreward. cbv zeta.
  unfold getWaveScaling.
  cbn [Scaling.speedMultiplier Scaling.rewardMultiplier Scaling.spawnInterval].
  assert (Hw : 0 <= inject_Z (currentWave this))
    by (change 0 with (inject_Z 0); now rewrite <- Zle_Qle).
  set (wave := inject_Z (currentWave this)) in *.
  set (s := speedMultiplier this) in *. set (r := rewardMultiplier this) in *.
  destruct (Math_min_cases (wave * 0.04) 0.5) as [ [Hlow ->] | [Hhigh ->] ];
    destruct (Math_min_cases 1.25 (0.95 + Math_log (wave + 1) * 0.08))
      as [ [Hcap ->] | [Hbelow ->] ].
  all: repeat split; try nra.
  all: try (destruct theme; lia).
  all: intros Hlate;
    assert (Hl : 13 <= wave)
      by (change 13 with (inject_Z 13); unfold wave; now rewrite <- Zle_Qle);
    try nra.
Qed.

Lemma wave_scaling_caps_witness :
  Scaling.speedMultiplier (@getWaveScaling sampleHost (atWave 21 freshSystem) None)
  == 1.5 * 1.
Proof.
  apply (@wave_scaling_caps sampleHost (atWave 21 freshSystem) None);
    [ vm_compute; discriminate | discriminate | discriminate
    | vm_compute; discriminate ].
Defined.

(** ** The spawning flag and the spawns of a wave *)

Lemma tick_timer_fields (delta : Q) (t : TimerEvent) :
  let t' := fst (tick_timer delta t) in
  delay t' = delay t /\ paused t' = paused t /\ destroyed t' = destroyed t
  /\ callback t' = callback t
  /\ hasDispatched t' = hasDispatched t || snd (tick_timer delta t)
  /\ (snd (tick_timer delta t) = true -> hasDispatched t = false).
Proof.
  unfold tick_timer, live.
  destruct t as [ d e [ | ] [ | ] [ | ] cb ];
    cbn [hasDispatched destroyed paused delay elapsed negb andb orb fst snd];
    try (repeat split; congruence).
  destruct (Qle_bool d (e + delta));
    cbn [hasDispatched destroyed paused delay callback orb fst snd];
    repeat split; congruence.
Qed.

Lemma tick_timer_pending (delta : Q) (t : TimerEvent) :
  paused t = false -> destroyed t = false -> hasDispatched t = false ->
  elapsed (fst (tick_timer delta t)) = elapsed t + delta
  /\ snd (tick_timer delta t) = Qle_bool (delay t) (elapsed t + delta).
Proof.
  intros Hp Hd Hf. unfold tick_timer, live. rewrite Hp, Hd, Hf. cbn [negb andb].
  destruct (Qle_bool (delay t) (elapsed t + delta)); split; reflexivity.
Qed.

Lemma tick_timer_not_live (delta : Q) (t : TimerEvent) :
  live t = false -> tick_timer delta t = (t, false).
Proof. intros Hl. unfold tick_timer. now rewrite Hl. Qed.

Lemma tick_not_live_all (delta : Q) (old : list TimerEvent) :
  Forall (fun t => live t = false) old ->
  map (fun t => fst (tick_timer delta t)) old = old
  /\ filter (fun t => snd (tick_timer delta t)) old = [].
Proof.
  induction 1 as [ | t old Ht _ [IHm IHf] ]; [ split; reflexivity | ].
  cbn [map filter]. rewrite (tick_timer_not_live delta t Ht).
  cbn [fst snd]. now rewrite IHm, IHf.
Qed.

(** What has fired after a tick is what had fired before and what fires in
    the tick. *)
Lemma dispatched_after_tick (delta : Q) (ts : list TimerEvent) :
  len (filter hasDispatched (map (fun t => fst (tick_timer delta t)) ts))
  = (len (filter hasDispatched ts)
     + len (filter (fun t => snd (tick_timer delta t)) ts))%Z.
Proof.
  unfold len. induction ts as [ | t ts IH ]; [ reflexivity | ].
  cbn [map filter].
  destruct (tick_timer_fields delta t) as (_ & _ & _ & _ & Hd & Hfresh).
  cbv zeta in Hd. rewrite Hd.
  destruct (snd (tick_timer delta t)).
  - rewrite (Hfresh eq_refl). cbn [orb List.length]. lia.
  - rewrite orb_false_r. destruct (hasDispatched t); cbn [List.length]; lia.
Qed.

Section SpawningFlag.

Context {h : Host}.

Lemma runCallback_counts (cb : Callback) (this : WaveSystemV2.t) :
  enemiesSpawnedThisWave (runCallback cb this)
  = (enemiesSpawnedThisWave this + (if isSpawnCallback cb then 1 else 0))%Z
  /\ len (enemies (runCallback cb this))
     = (len (enemies this) + (if isSpawnCallback cb then 1 else 0))%Z
  /\ isSpawning (runCallback cb this) = isSpawnCallback cb && isSpawning this.
Proof.
  destruct cb as [ enemyType scaling | ]; cbn [runCallback isSpawnCallback].
  - unfold spawnEnemy, spawnFallbackEnemy.
    destruct (lookup enemyType ENEMY_CONFIGS);
      cbn [with_flags with_scene with_enemies enemiesSpawnedThisWave enemies
           isSpawning andb];
      unfold len; rewrite length_app; cbn [List.length]; repeat split; lia.
  - cbn [with_flags enemiesSpawnedThisWave enemies isSpawning andb].
    repeat split; lia.
Qed.

Lemma runCallbacks_counts (fired : list Callback) :
  forall this : WaveSystemV2.t,
    let this' := fold_left (fun this cb => runCallback cb this) fired this in
    enemiesSpawnedThisWave this'
    = (enemiesSpawnedThisWave this + len (filter isSpawnCallback fired))%Z
    /\ len (enemies this')
       = (len (enemies this) + len (filter isSpawnCallback fired))%Z
    /\ isSpawning this' = forallb isSpawnCallback fired && isSpawning this.
Proof.
  induction fired as [ | cb fired IH ]; intros this.
  - cbn. unfold len. cbn. repeat split; lia.
  - cbn [fold_left filter forallb]. cbv zeta.
    destruct (IH (runCallback cb this)) as (Hs & He & Hf).
    destruct (runCallback_counts cb this) as (Hs' & He' & Hf').
    rewrite Hs, He, Hf, Hs', He', Hf'.
    destruct (isSpawnCallback cb); unfold len; cbn [List.length andb];
      rewrite ?andb_false_r; repeat split; lia.
Qed.

Lemma spawn_callbacks_only (closing : TimerEvent) (ts : list TimerEvent) :
  Forall (pendingWith closing) ts ->
  filter isSpawnCallback (map callback ts) = map callback ts
  /\ forallb isSpawnCallback (map callback ts) = true.
Proof.
  induction 1 as [ | t ts (_ & _ & Hcb & _) _ [IHf IHa] ]; [ split; reflexivity | ].
  cbn [map filter forallb]. rewrite Hcb, IHf, IHa. split; reflexivity.
Qed.

(** One clock update keeps the wave clock: every timer of the wave ticks,
    the spawn callbacks that fire each add an enemy, and the spawning flag
    falls when the closing timer fires. *)
Lemma clockUpdate_WaveClock
  (delta : Q) (old spawns : list TimerEvent) (closing : TimerEvent) (base : Z)
  (this : WaveSystemV2.t) :
  WaveClock old spawns closing base this ->
  WaveClock old (map (fun t => fst (tick_timer delta t)) spawns)
            (fst (tick_timer delta closing)) base (clockUpdate delta this).
Proof.
  intros [Hlayout Hold Hspawns (Hcb & Hp & Hd) Hflag Hcount Henemies].
  destruct (tick_not_live_all delta old Hold) as [Hold_same Hold_quiet].
  destruct (tick_timer_fields delta closing)
    as (Hcdelay & Hcpaused & Hcdestroyed & Hccb & Hcdisp & Hcfresh).
  cbv zeta in Hcdelay, Hcpaused, Hcdestroyed, Hccb, Hcdisp.
  assert (Hfired : snd (tick_timers delta (time (scene this)))
                   = map callback (filter (fun t => snd (tick_timer delta t)) spawns)
                     ++ (if snd (tick_timer delta closing)
                         then [SpawningDoneCallback] else [])).
  { rewrite tick_timers_snd, Hlayout, !filter_app, Hold_quiet. cbn [app filter].
    rewrite map_app. f_equal.
    destruct (snd (tick_timer delta closing)); [ | reflexivity ].
    cbn [map]. now rewrite Hcb. }
  assert (Hquiet : Forall (pendingWith closing)
                          (filter (fun t => snd (tick_timer delta t)) spawns)).
  { apply Forall_forall. intros t Ht. apply filter_In in Ht.
    destruct Ht as [Ht _]. revert t Ht. now apply Forall_forall. }
  destruct (spawn_callbacks_only closing _ Hquiet) as [Honly Hall].
  assert (Hrun : enemiesSpawnedThisWave (clockUpdate delta this)
                 = (enemiesSpawnedThisWave this
                    + len (filter (fun t => snd (tick_timer delta t)) spawns))%Z
                 /\ len (enemies (clockUpdate delta this))
                    = (len (enemies this)
                       + len (filter (fun t => snd (tick_timer delta t)) spawns))%Z
                 /\ isSpawning (clockUpdate delta this)
                    = negb (snd (tick_timer delta closing)) && isSpawning this).
  { unfold clockUpdate.
    destruct (tick_timers delta (time (scene this))) as [ts fired].
    cbn [snd] in Hfired. subst fired.
    match goal with
    | |- context [fold_left _ ?fired ?start] =>
        destruct (runCallbacks_counts fired start) as (Hs & He & Hf)
    end.
    cbv zeta in Hs, He, Hf. rewrite Hs, He, Hf.
    rewrite filter_app, forallb_app, Honly, Hall.
    cbn [with_scene enemiesSpawnedThisWave enemies isSpawning].
    unfold len. rewrite length_app, length_map.
    destruct (snd (tick_timer delta closing)); cbn [filter forallb isSpawnCallback
      List.length andb negb]; repeat split; lia. }
  destruct Hrun as (Hs & He & Hf).
  constructor.
  - destruct (clockUpdate_time delta this) as [-> _].
    rewrite Hlayout, !map_app, Hold_same. reflexivity.
  - exact Hold.
  - apply Forall_forall. intros t' Ht'. apply in_map_iff in Ht'.
    destruct Ht' as (t & <- & Ht).
    pose proof (proj1 (Forall_forall _ _) Hspawns t Ht)
      as (Htp & Htd & Htcb & Htdelay & Htogether).
    destruct (tick_timer_fields delta t)
      as (Hdelay' & Hpaused' & Hdestroyed' & Hcb' & Hdisp' & _).
    cbv zeta in Hdelay', Hpaused', Hdestroyed', Hcb', Hdisp'.
    unfold pendingWith.
    rewrite Hdelay', Hpaused', Hdestroyed', Hcb', Hcdelay, Hdisp', Hcdisp.
    split; [ exact Htp | ]. split; [ exact Htd | ]. split; [ exact Htcb | ].
    split; [ exact Htdelay | ].
    intros Hnot. apply orb_false_iff in Hnot. destruct Hnot as [Hbefore Hnow].
    destruct (Htogether Hbefore) as [Hcbefore Hsame].
    destruct (tick_timer_pending delta t Htp Htd Hbefore) as [He' Hfires].
    destruct (tick_timer_pending delta closing Hp Hd Hcbefore) as [Hce' Hcfires].
    rewrite He', Hce', Hcbefore, Hcfires, Hsame. split; [ | reflexivity ].
    cbn [orb]. rewrite Hfires, Hsame in Hnow.
    destruct (Qle_bool (delay closing) (elapsed closing + delta)) eqn:Hle;
      [ | reflexivity ].
    apply Qle_bool_iff in Hle.
    assert (Hreach : delay t <= elapsed closing + delta) by lra.
    apply Qle_bool_iff in Hreach. congruence.
  - rewrite Hccb, Hcpaused, Hcdestroyed. repeat split; assumption.
  - rewrite Hf, Hflag, Hcdisp.
    now destruct (hasDispatched closing), (snd (tick_timer delta closing)).
  - rewrite Hs, Hcount. symmetry. apply dispatched_after_tick.
  - rewrite He, Hs. lia.
Qed.

(** Over a run of the clock the wave clock is kept; the closing timer, once
    fired, stays fired, and until then has counted every frame. *)
Lemma runClock_WaveClock (deltas : list Q) :
  forall (old spawns : list TimerEvent) (closing : TimerEvent) (base : Z)
         (this : WaveSystemV2.t),
    WaveClock old spawns closing base this ->
    exists spawns' closing',
      WaveClock old spawns' closing' base (runClock deltas this)
      /\ List.length spawns' = List.length spawns
      /\ delay closing' = delay closing
      /\ (hasDispatched closing = true -> hasDispatched closing' = true)
      /\ (hasDispatched closing' = false ->
          elapsed closing' = fold_left Qplus deltas (elapsed closing)).
Proof.
  induction deltas as [ | delta deltas IH ]; intros old spawns closing base this Hclock.
  - exists spawns, closing. split; [ exact Hclock | ].
    repeat split; auto.
  - cbn [runClock fold_left].
    pose proof (clockUpdate_WaveClock delta old spawns closing base this Hclock)
      as Hstep.
    destruct (IH _ _ _ _ _ Hstep)
      as (spawns' & closing' & Hclock' & Hlen & Hdelay & Hsticky & Helapsed).
    destruct (tick_timer_fields delta closing)
      as (Hcdelay & _ & _ & _ & Hcdisp & _).
    cbv zeta in Hcdelay, Hcdisp.
    destruct Hclock as [_ _ _ (_ & Hp & Hd) _ _ _].
    exists spawns', closing'. split; [ exact Hclock' | ].
    split; [ now rewrite Hlen, length_map | ].
    split; [ now rewrite Hdelay | ].
    split.
    + intros Hfired. apply Hsticky. rewrite Hcdisp, Hfired. reflexivity.
    + intros Hnot. rewrite (Helapsed Hnot). f_equal.
      destruct (hasDispatched closing) eqn:Hbefore.
      * rewrite Hsticky in Hnot; [ discriminate | ].
        rewrite Hcdisp. reflexivity.
      * now destruct (tick_timer_pending delta closing Hp Hd Hbefore).
Qed.

End SpawningFlag.

Lemma themed_spawnInterval_ge_280 {h : Host} (this : WaveSystemV2.t) (theme : WaveTheme) :
  (280 <= Scaling.spawnInterval (getWaveScaling this (Some theme)))%Z.
Proof. unfold getWaveScaling. cbn [Scaling.spawnInterval]. lia. Qed.

Lemma none_dispatched (ts : list TimerEvent) :
  Forall (fun t => hasDispatched t = false) ts -> filter hasDispatched ts = [].
Proof.
  induction 1 as [ | t ts Ht _ IH ]; [ reflexivity | ].
  cbn [filter]. now rewrite Ht.
Qed.

Lemma all_dispatched (ts : list TimerEvent) :
  Forall (fun t => hasDispatched t = true) ts -> filter hasDispatched ts = ts.
Proof.
  induction 1 as [ | t ts Ht _ IH ]; [ reflexivity | ].
  cbn [filter]. now rewrite Ht, IH.
Qed.

Lemma dispatched_le (ts : list TimerEvent) :
  (0 <= len (filter hasDispatched ts) <= len ts)%Z.
Proof.
  unfold len. pose proof (filter_length_le hasDispatched ts). lia.
Qed.

Section WaveStart.

Context {h : Host} {laws : HostLaws h}.

(** The timers [scheduleSpawns] registers: fresh, one per entry, the one
    for entry [k] due after [k] spawn intervals of game time. *)
Lemma scheduleSpawns_timers (waveComposition : list string) :
  forall (index : Z) (scaling : Scaling.t) (gameSpeed : Q) (this : WaveSystemV2.t),
    let this' := scheduleSpawns waveComposition index scaling gameSpeed this in
    exists added,
      time (scene this') = time (scene this) ++ added
      /\ List.length added = List.length waveComposition
      /\ Forall (fun t =>
                   elapsed t = 0 /\ paused t = false /\ hasDispatched t = false
                   /\ destroyed t = false /\ isSpawnCallback (callback t) = true
                   /\ exists k, (index <= k < index + len waveComposition)%Z
                                /\ delay t
                                   = inject_Z (k * Scaling.spawnInterval scaling)
                                     / gameSpeed) added
      /\ isSpawning this' = isSpawning this
      /\ enemiesSpawnedThisWave this' = enemiesSpawnedThisWave this
      /\ enemies this' = enemies this.
Proof.
  induction waveComposition as [ | enemyType rest IH ];
    intros index scaling gameSpeed this.
  - exists []. cbn. rewrite app_nil_r. repeat split. constructor.
  - cbn [scheduleSpawns delayedCall]. cbv zeta.
    match goal with
    | |- context [scheduleSpawns rest ?i scaling gameSpeed ?t] =>
        destruct (IH i scaling gameSpeed t)
          as (added & Htime & Hlen & Hadded & Hsp & Hcount & Hen)
    end.
    cbn [with_spawnTimers with_scene scene time isSpawning enemiesSpawnedThisWave
         enemies] in Htime, Hsp, Hcount, Hen.
    eexists (_ :: added). split; [ | split; [ | split; [ | repeat split ] ] ].
    + rewrite Htime, <- app_assoc. reflexivity.
    + cbn [List.length]. now rewrite Hlen.
    + constructor.
      * cbn [elapsed paused hasDispatched destroyed callback delay isSpawnCallback].
        repeat split. exists index. split; [ | reflexivity ].
        unfold len. cbn [List.length]. lia.
      * revert Hadded. apply Forall_impl.
        intros t (He & Hp & Hd & Hds & Hcb & k & Hk & Hdelay).
        repeat split; try assumption. exists k. split; [ | exact Hdelay ].
        unfold len in *. cbn [List.length]. lia.
    + exact Hsp.
    + exact Hcount.
    + exact Hen.
Qed.

Lemma spawn_before_closing (k n interval : Z) (gameSpeed : Q) :
  (0 <= k < n)%Z -> (0 <= interval)%Z -> 0 < gameSpeed ->
  inject_Z (k * interval) / gameSpeed
  < inject_Z ((n - 1) * interval + 500) / gameSpeed.
Proof.
  intros Hk Hinterval Hspeed. unfold Qdiv.
  apply Qmult_lt_compat_r; [ now apply Qinv_lt_0_compat | ].
  rewrite <- Zlt_Qlt. nia.
Qed.

(** An accepted [startNextWave] on a clock with no timer left to fire sets
    up the wave clock: the spawn timers of the wave, then its closing
    timer, all fresh. *)
Lemma startNextWave_WaveClock (gameSpeed : Q) (this : WaveSystemV2.t) (g : RNG) :
  waveInProgress this = false -> 0 < gameSpeed ->
  Forall (fun t => live t = false) (time (scene this)) ->
  exists (waveComposition : list string) started g' spawns closing,
    startNextWave gameSpeed this g = Some (true, started, g')
    /\ spawnTimers started
       = spawnTimers this
         ++ seq (List.length (time (scene this))) (List.length waveComposition)
    /\ List.length spawns = List.length waveComposition
    /\ WaveClock (time (scene this)) spawns closing (len (enemies this)) started
    /\ hasDispatched closing = false /\ elapsed closing = 0.
Proof.
  intros Hidle Hspeed Hold.
  set (started := with_flags (currentWave this + 1) true true 0 this).
  set (availableTypes := getAvailableEnemyTypes started).
  set (isBossWave := isBossWaveNumber (currentWave started)).
  set (theme := getWaveTheme started availableTypes isBossWave).
  set (scaling := getWaveScaling started (Some theme)).
  set (announced :=
         with_scene (emit (waveStarted (currentWave started)) (scene started)) started).
  destruct (generateWaveComposition_ok announced (Scaling.enemyCount scaling)
              availableTypes theme isBossWave g)
    as (waveComposition & g' & Hrun & _).
  pose proof (scheduleSpawns_spec waveComposition 0 scaling gameSpeed announced)
    as Hspec.
  cbv zeta in Hspec. destruct Hspec as (_ & Hkept & _).
  destruct (scheduleSpawns_timers waveComposition 0 scaling gameSpeed announced)
    as (added & Htime & Hlen & Hadded & Hsp & Hcount & Hen).
  set (scheduled := scheduleSpawns waveComposition 0 scaling gameSpeed announced) in *.
  set (closing :=
         {| delay := inject_Z ((len waveComposition - 1)
                               * Scaling.spawnInterval scaling + 500) / gameSpeed;
            elapsed := 0; paused := false; hasDispatched := false;
            destroyed := false; callback := SpawningDoneCallback |}).
  exists waveComposition,
    (with_scene {| time := time (scene scheduled) ++ [closing];
                   events := events (scene scheduled) |} scheduled),
    g', added, closing.
  split; [ | split; [ exact Hkept | split; [ exact Hlen | ] ] ].
  { unfold startNextWave. rewrite Hidle.
    fold started. fold availableTypes. fold isBossWave. fold theme. fold scaling.
    fold announced. unfold bind. rewrite Hrun.
    cbn [delayedCall]. unfold ret. reflexivity. }
  split; [ | split; reflexivity ].
  constructor; cbn [with_scene scene time isSpawning enemiesSpawnedThisWave enemies].
  - rewrite Htime, <- app_assoc. reflexivity.
  - exact Hold.
  - revert Hadded. apply Forall_impl.
    intros t (He & Hp & Hd & Hds & Hcb & k & Hk & Hdelay).
    unfold pendingWith.
    split; [ exact Hp | ]. split; [ exact Hds | ]. split; [ exact Hcb | ].
    split; [ | intros _; split; [ reflexivity | exact He ] ].
    rewrite Hdelay. cbn [delay closing].
    pose proof (themed_spawnInterval_ge_280 started theme) as Hinterval.
    fold scaling in Hinterval.
    apply spawn_before_closing; [ lia | lia | exact Hspeed ].
  - repeat split.
  - rewrite Hsp. reflexivity.
  - rewrite Hcount. cbn [enemiesSpawnedThisWave announced with_scene started with_flags].
    rewrite none_dispatched; [ reflexivity | ].
    revert Hadded. apply Forall_impl. now intros t (_ & _ & Hd & _).
  - rewrite Hen, Hcount. cbn. lia.
Qed.

(** X16.  After an accepted [startNextWave] on a clock with nothing left to fire,
    and for as long as only the clock runs: the number of enemies spawned
    never exceeds the number scheduled, each spawn adds one enemy, the wave
    stays in progress, and the spawning flag falls only once every
    scheduled enemy has spawned.  It does fall: at the latest in the frame
    in which the time run reaches the delay of the closing timer. *)
Theorem spawning_ends_after_last_spawn
  (gameSpeed : Q) (this : WaveSystemV2.t) (g : RNG) :
  waveInProgress this = false -> 0 < gameSpeed ->
  Forall (fun t => live t = false) (time (scene this)) ->
  exists (waveComposition : list string) started g' closing,
    startNextWave gameSpeed this g = Some (true, started, g')
    /\ spawnTimers started
       = spawnTimers this
         ++ seq (List.length (time (scene this))) (List.length waveComposition)
    /\ nth_error (time (scene started))
                 (List.length (time (scene this)) + List.length waveComposition)
       = Some closing
    /\ callback closing = SpawningDoneCallback
    /\ forall deltas,
         let final := runClock deltas started in
         (0 <= enemiesSpawnedThisWave final <= len waveComposition)%Z
         /\ len (enemies final)
            = (len (enemies this) + enemiesSpawnedThisWave final)%Z
         /\ waveInProgress final = true
         /\ (isSpawning final = false ->
             enemiesSpawnedThisWave final = len waveComposition)
         /\ (deltas <> [] -> delay closing <= fold_left Qplus deltas 0 ->
             isSpawning final = false).
Proof.
  intros Hidle Hspeed Hold.
  destruct (startNextWave_WaveClock gameSpeed this g Hidle Hspeed Hold)
    as (waveComposition & started & g' & spawns & closing
        & Hstart & Hkept & Hlen & Hclock & Hfresh & Hzero).
  destruct (startNextWave_accepted gameSpeed this g Hidle)
    as (waveComposition0 & g0 & started0 & _ & Hstart0 & _ & Hprogress & _).
  rewrite Hstart in Hstart0. injection Hstart0 as <- _.
  exists waveComposition, started, g', closing.
  split; [ exact Hstart | ]. split; [ exact Hkept | ].
  split.
  { rewrite (clock_layout _ _ _ _ _ Hclock), app_assoc.
    rewrite nth_error_app2 by (rewrite length_app; lia).
    rewrite length_app, Hlen, Nat.sub_diag. reflexivity. }
  split; [ apply (clock_closing _ _ _ _ _ Hclock) | ].
  intros deltas. cbv zeta.
  destruct (runClock_WaveClock deltas _ _ _ _ _ Hclock)
    as (spawns' & closing' & Hfinal & Hlen' & _ & _ & _).
  pose proof (dispatched_le spawns') as Hbound.
  rewrite (clock_enemies _ _ _ _ _ Hfinal), (clock_spawned _ _ _ _ _ Hfinal).
  assert (Hn : len spawns' = len waveComposition) by (unfold len; lia).
  rewrite <- Hn.
  split; [ lia | ]. split; [ reflexivity | ].
  split.
  { clear - Hprogress. revert started Hprogress.
    induction deltas as [ | delta deltas IH ]; intros started Hprogress;
      [ exact Hprogress | ].
    cbn [runClock fold_left]. apply IH. unfold clockUpdate.
    destruct (tick_timers delta (time (scene started))) as [ts fired].
    match goal with
    | |- context [fold_left _ fired ?start] =>
        destruct (runCallbacks_frame fired start) as (_ & _ & _ & ->)
    end.
    exact Hprogress. }
  split.
  - intros Hdone. rewrite (clock_isSpawning _ _ _ _ _ Hfinal) in Hdone.
    apply negb_false_iff in Hdone.
    rewrite all_dispatched; [ reflexivity | ].
    pose proof (clock_spawns _ _ _ _ _ Hfinal) as Hpending.
    revert Hpending. apply Forall_impl.
    intros t (_ & _ & _ & _ & Htogether).
    destruct (hasDispatched t); [ reflexivity | ].
    destruct (Htogether eq_refl) as [Hnot _]. congruence.
  - intros Hframes Hreached.
    destruct (exists_last Hframes) as (earlier & delta & ->).
    unfold runClock. rewrite fold_left_app. cbn [fold_left].
    fold (runClock earlier started).
    destruct (runClock_WaveClock earlier _ _ _ _ _ Hclock)
      as (spawns1 & closing1 & Hmid & _ & Hdelay & _ & Helapsed).
    pose proof (clockUpdate_WaveClock delta _ _ _ _ _ Hmid) as Hlast.
    rewrite (clock_isSpawning _ _ _ _ _ Hlast).
    apply negb_false_iff.
    destruct (tick_timer_fields delta closing1) as (_ & _ & _ & _ & -> & _).
    destruct (hasDispatched closing1) eqn:Hbefore; [ reflexivity | ].
    destruct (clock_closing _ _ _ _ _ Hmid) as (_ & Hp & Hd).
    destruct (tick_timer_pending delta closing1 Hp Hd Hbefore) as [_ ->].
    cbn [orb]. apply Qle_bool_iff.
    rewrite Hdelay, (Helapsed eq_refl), Hzero.
    rewrite fold_left_app in Hreached. exact Hreached.
Qed.

End WaveStart.

Lemma spawning_ends_after_last_spawn_witness :
  exists (waveComposition : list string) started g' closing,
    @startNextWave sampleHost 1 freshSystem 0%nat = Some (true, started, g')
    /\ spawnTimers started = seq 0 (List.length waveComposition)
    /\ nth_error (time (scene started)) (List.length waveComposition) = Some closing
    /\ (isSpawning (@runClock sampleHost [4000; 4000] started) = false ->
        enemiesSpawnedThisWave (@runClock sampleHost [4000; 4000] started)
        = len waveComposition).
Proof.
  destruct (@spawning_ends_after_last_spawn sampleHost sampleHost_laws 1
              freshSystem 0%nat)
    as (waveComposition & started & g' & closing & Hstart & Hkept & Hclosing & _ & Hrun).
  - reflexivity.
  - reflexivity.
  - constructor.
  - exists waveComposition, started, g', closing.
    split; [ exact Hstart | ]. split; [ exact Hkept | ].
    split; [ exact Hclosing | ].
    apply (Hrun [4000; 4000]).
Defined.

(** ** Towers: statistics and upgrades *)

Lemma floor_scaled (n k : Z) : Math_floor (inject_Z n * inject_Z k) = (n * k)%Z.
Proof. unfold Math_floor. rewrite <- inject_Z_mult. apply Qfloor_Z. Qed.

Lemma floor_divided (n k : Z) : Math_floor (inject_Z n / inject_Z k) = (n / k)%Z.
Proof. unfold Math_floor. symmetry. apply Zdiv_Qdiv. Qed.

Lemma floor_half (n : Z) : Math_floor (inject_Z n * 0.5) = (n / 2)%Z.
Proof.
  unfold Math_floor. rewrite (Zdiv_Qdiv n 2). apply Qfloor_comp.
  unfold Qdiv. apply Qmult_comp; reflexivity.
Qed.

Lemma getUpgradeCost_cases (this : Tower.t) :
  Tower.getUpgradeCost this
  = if (3 <=? Tower.level this)%Z then (-1)%Z
    else Math_floor (inject_Z (Towers.cost (Tower.config this))
                     * 5 ^ Tower.level this).
Proof. reflexivity. Qed.

(** One call of [upgrade()] on a tower of the ladder stays on the ladder. *)
Lemma upgrade_ladder_step (cost currentTime : Z) (this : Tower.t) :
  Towers.cost (Tower.config this) = cost ->
  (Tower.level this = 1 /\ Tower.totalInvested this = cost
   \/ Tower.level this = 2 /\ Tower.totalInvested this = 6 * cost
   \/ Tower.level this = 3 /\ Tower.totalInvested this = 31 * cost)%Z ->
  let '(upgradeCost, tower, events) := Tower.upgrade currentTime this in
  Tower.config tower = Tower.config this
  /\ (Tower.level tower = 1 /\ Tower.totalInvested tower = cost
      \/ Tower.level tower = 2 /\ Tower.totalInvested tower = 6 * cost
      \/ Tower.level tower = 3 /\ Tower.totalInvested tower = 31 * cost)%Z
  /\ Tower.totalInvested tower = (Tower.totalInvested this + upgradeCost)%Z
  /\ (Tower.level this <= Tower.level tower <= Tower.level this + 1)%Z
  /\ (events = [] <-> Tower.level tower = Tower.level this).
Proof.
  intros Hcost Hladder. unfold Tower.upgrade.
  destruct (3 <=? Tower.level this)%Z eqn:Hmax.
  { repeat split; auto; lia. }
  destruct (currentTime - Tower.lastUpgradeTime this <? Tower.UPGRADE_COOLDOWN)%Z.
  { repeat split; auto; lia. }
  apply Z.leb_gt in Hmax.
  rewrite getUpgradeCost_cases. cbn [Tower.level Tower.config Tower.totalInvested].
  replace (3 <=? Tower.level this)%Z with false by (symmetry; apply Z.leb_gt; lia).
  rewrite Hcost.
  destruct Hladder as [ [Hl Hi] | [ [Hl Hi] | [Hl Hi] ] ]; [ | | lia ];
    rewrite Hl, Hi.
  - change (5 ^ 1) with (inject_Z 5). rewrite floor_scaled.
    destruct (cost * 5 <? 0)%Z eqn:Hneg;
      cbn [Tower.level Tower.config Tower.totalInvested].
    + repeat split; intros; auto; try lia; try discriminate.
    + apply Z.ltb_ge in Hneg.
      repeat split; intros; try lia; try discriminate.
  - change (5 ^ 2) with (inject_Z 25). rewrite floor_scaled.
    destruct (cost * 25 <? 0)%Z eqn:Hneg;
      cbn [Tower.level Tower.config Tower.totalInvested].
    + repeat split; intros; auto; try lia; try discriminate.
    + apply Z.ltb_ge in Hneg.
      repeat split; intros; try lia; try discriminate.
Qed.

Lemma upgradeRun_ladder (cost : Z) (times : list Z) :
  forall (this : Tower.t) (paid : Z),
    Towers.cost (Tower.config this) = cost ->
    (Tower.level this = 1 /\ Tower.totalInvested this = cost
     \/ Tower.level this = 2 /\ Tower.totalInvested this = 6 * cost
     \/ Tower.level this = 3 /\ Tower.totalInvested this = 31 * cost)%Z ->
    let '(tower, total) :=
      fold_left
        (fun '(tower, paid) currentTime =>
           let '(upgradeCost, tower, _) := Tower.upgrade currentTime tower in
           (tower, (paid + upgradeCost)%Z))
        times (this, paid) in
    Tower.config tower = Tower.config this
    /\ (Tower.level tower = 1 /\ Tower.totalInvested tower = cost
        \/ Tower.level tower = 2 /\ Tower.totalInvested tower = 6 * cost
        \/ Tower.level tower = 3 /\ Tower.totalInvested tower = 31 * cost)%Z
    /\ (Tower.totalInvested tower - total = Tower.totalInvested this - paid)%Z
    /\ (Tower.level this <= Tower.level tower)%Z.
Proof.
  induction times as [ | currentTime times IH ]; intros this paid Hcost Hladder.
  - cbn. repeat split; auto; lia.
  - cbn [fold_left].
    pose proof (upgrade_ladder_step cost currentTime this Hcost Hladder) as Hstep.
    destruct (Tower.upgrade currentTime this) as [ [upgradeCost tower] events ].
    destruct Hstep as (Hconfig & Hladder' & Hinvested & Hlevel & _).
    assert (Hcost' : Towers.cost (Tower.config tower) = cost) by now rewrite Hconfig.
    specialize (IH tower (paid + upgradeCost)%Z Hcost' Hladder').
    destruct (fold_left _ times (tower, (paid + upgradeCost)%Z)) as [final total].
    destruct IH as (Hc & Hl & Hi & Hlv).
    repeat split; try congruence; try lia.
Qed.

(** X17.  However often and whenever [upgrade()] is called on a new tower, the
    tower is at level 1, 2 or 3 with the base cost, 6 times or 31 times
    the base cost invested; what the calls returned adds up to what was
    invested beyond the base cost, and the sell price is half of the
    investment, rounded down. *)
Theorem tower_upgrade_ladder (config : Towers.TowerConfig) (times : list Z) :
  let cost := Towers.cost config in
  let '(tower, paid) := upgradeRun times (Tower.constructor config) in
  Tower.config tower = config
  /\ (Tower.level tower = 1 /\ Tower.totalInvested tower = cost
      \/ Tower.level tower = 2 /\ Tower.totalInvested tower = 6 * cost
      \/ Tower.level tower = 3 /\ Tower.totalInvested tower = 31 * cost)%Z
  /\ Tower.totalInvested tower = (cost + paid)%Z
  /\ Tower.getSellPrice tower = (Tower.totalInvested tower / 2)%Z.
Proof.
  cbv zeta. unfold upgradeRun.
  pose proof (upgradeRun_ladder (Towers.cost config) times (Tower.constructor config) 0
                eq_refl (or_introl (conj eq_refl eq_refl))) as Hrun.
  destruct (fold_left _ times (Tower.constructor config, 0%Z)) as [tower paid].
  destruct Hrun as (Hconfig & Hladder & Hpaid & _).
  cbn [Tower.constructor Tower.totalInvested Tower.config] in Hpaid, Hconfig.
  repeat split; try assumption; try lia.
  unfold Tower.getSellPrice. apply floor_half.
Qed.

Lemma upgrade_call (currentTime : Z) (this : Tower.t) :
  (1 <= Tower.level this <= 2)%Z ->
  (0 <= Towers.cost (Tower.config this))%Z ->
  let cost := (Towers.cost (Tower.config this) * 5 ^ Tower.level this)%Z in
  if (currentTime - Tower.lastUpgradeTime this <? 500)%Z
  then Tower.upgrade currentTime this = (0%Z, this, [])
  else
    exists tower,
      Tower.upgrade currentTime this
      = (cost, tower, [towerUpgraded (Tower.level this + 1)])
      /\ Tower.level tower = (Tower.level this + 1)%Z
      /\ Tower.totalInvested tower = (Tower.totalInvested this + cost)%Z
      /\ Tower.getUpgradeCost this = cost
      /\ (forall later, (later - currentTime < 500)%Z ->
            Tower.upgrade later tower = (0%Z, tower, [])).
Proof.
  intros Hlevel Hcost. cbv zeta.
  assert (Hprice : Tower.getUpgradeCost this
                   = (Towers.cost (Tower.config this) * 5 ^ Tower.level this)%Z).
  { rewrite getUpgradeCost_cases.
    replace (3 <=? Tower.level this)%Z with false by (symmetry; apply Z.leb_gt; lia).
    assert (Hcases : Tower.level this = 1%Z \/ Tower.level this = 2%Z) by lia.
    destruct Hcases as [ -> | -> ].
    - change (5 ^ 1) with (inject_Z 5). now rewrite floor_scaled.
    - change (5 ^ 2) with (inject_Z 25). now rewrite floor_scaled. }
  assert (Hpos : (0 <= Towers.cost (Tower.config this) * 5 ^ Tower.level this)%Z)
    by (apply Z.mul_nonneg_nonneg; [ exact Hcost | apply Z.pow_nonneg; lia ]).
  unfold Tower.upgrade.
  replace (3 <=? Tower.level this)%Z with false by (symmetry; apply Z.leb_gt; lia).
  change Tower.UPGRADE_COOLDOWN with 500%Z.
  destruct (currentTime - Tower.lastUpgradeTime this <? 500)%Z eqn:Hcool;
    [ reflexivity | ].
  change (Tower.getUpgradeCost
            {| Tower.config := Tower.config this; Tower.level := Tower.level this;
               Tower.totalInvested := Tower.totalInvested this;
               Tower.lastFireTime := Tower.lastFireTime this;
               Tower.lastUpgradeTime := currentTime |})
    with (Tower.getUpgradeCost this).
  rewrite Hprice.
  replace (Towers.cost (Tower.config this) * 5 ^ Tower.level this <? 0)%Z
    with false by (symmetry; apply Z.ltb_ge; lia).
  cbn [Tower.level Tower.config Tower.totalInvested Tower.lastUpgradeTime
       Tower.lastFireTime].
  eexists. split; [ reflexivity | ].
  cbn [Tower.level Tower.config Tower.totalInvested Tower.lastUpgradeTime
       Tower.lastFireTime].
  repeat split. intros later Hsoon.
  destruct (3 <=? Tower.level this + 1)%Z; [ reflexivity | ].
  replace (later - currentTime <? 500)%Z with true
    by (symmetry; apply Z.ltb_lt; lia).
  reflexivity.
Qed.

(** X18.  A call of [upgrade()] at level 1 or 2 on a tower whose base cost is not
    negative: within 500 ms of the last accepted call it changes nothing
    and returns 0; otherwise it is accepted, costs 5 to the power of the
    level times the base cost, and every further call within the next
    500 ms changes nothing. *)
Theorem upgrade_accepted_after_cooldown (currentTime : Z) (this : Tower.t) :
  (1 <= Tower.level this <= 2)%Z ->
  (0 <= Towers.cost (Tower.config this))%Z ->
  let cost := (Towers.cost (Tower.config this) * 5 ^ Tower.level this)%Z in
  if (currentTime - Tower.lastUpgradeTime this <? 500)%Z
  then Tower.upgrade currentTime this = (0%Z, this, [])
  else
    exists tower,
      Tower.upgrade currentTime this
      = (cost, tower, [towerUpgraded (Tower.level this + 1)])
      /\ Tower.level tower = (Tower.level this + 1)%Z
      /\ Tower.totalInvested tower = (Tower.totalInvested this + cost)%Z
      /\ Tower.getUpgradeCost this = cost
      /\ (forall later, (later - currentTime < 500)%Z ->
            Tower.upgrade later tower = (0%Z, tower, [])).
Proof. exact (upgrade_call currentTime this). Qed.

Lemma upgrade_accepted_after_cooldown_witness :
  exists tower,
    Tower.upgrade 1000
      (Tower.constructor (snd (Towers.mkTower "ember_watch" 50 15 180 600 500 FIRE None)))
    = (250%Z, tower, [towerUpgraded 2])
    /\ Tower.totalInvested tower = 300%Z.
Proof.
  destruct (upgrade_accepted_after_cooldown 1000
              (Tower.constructor
                 (snd (Towers.mkTower "ember_watch" 50 15 180 600 500 FIRE None))))
    as (tower & Hcall & _ & Hinvested & _).
  - cbn. lia.
  - cbn. lia.
  - exists tower. split; [ exact Hcall | exact Hinvested ].
Defined.

(** X19.  At the levels a tower can reach, the damage is the configured damage
    times 2 to the power of the level minus one and the time between two
    shots the configured one divided by the same power, rounded down; the
    range does not change. *)
Theorem tower_stats_by_level (this : Tower.t) :
  (1 <= Tower.level this <= 3)%Z ->
  let doubling := (2 ^ (Tower.level this - 1))%Z in
  Tower.damage (Tower.getStats this)
  = (Towers.damage (Tower.config this) * doubling)%Z
  /\ Tower.fireRate (Tower.getStats this)
     = (Towers.fireRate (Tower.config this) / doubling)%Z
  /\ Tower.range (Tower.getStats this) = Towers.range (Tower.config this).
Proof.
  intros Hlevel. cbv zeta. unfold Tower.getStats.
  cbn [Tower.damage Tower.fireRate Tower.range].
  assert (Hcases : Tower.level this = 1%Z \/ Tower.level this = 2%Z
                   \/ Tower.level this = 3%Z) by lia.
  destruct Hcases as [ -> | [ -> | -> ] ].
  - change (2 ^ (1 - 1)) with (inject_Z 1).
    now rewrite floor_scaled, floor_divided.
  - change (2 ^ (2 - 1)) with (inject_Z 2).
    now rewrite floor_scaled, floor_divided.
  - change (2 ^ (3 - 1)) with (inject_Z 4).
    now rewrite floor_scaled, floor_divided.
Qed.

Lemma tower_stats_by_level_witness :
  Tower.damage
    (Tower.getStats
       {| Tower.config := snd (Towers.mkTower "stone_mortar" 150 65 280 3200 250
                                              PHYSICAL (Some PIERCE));
          Tower.level := 3; Tower.totalInvested := 4650; Tower.lastFireTime := 0;
          Tower.lastUpgradeTime := 0 |})
  = 260%Z.
Proof.
  apply (tower_stats_by_level
           {| Tower.config := snd (Towers.mkTower "stone_mortar" 150 65 280 3200 250
                                                  PHYSICAL (Some PIERCE));
              Tower.level := 3; Tower.totalInvested := 4650; Tower.lastFireTime := 0;
              Tower.lastUpgradeTime := 0 |}).
  cbn. lia.
Defined.

(** ** The scene's gold and the towers *)

Lemma store_nth (i : nat) (tower : Tower.t) :
  forall (towers : list Tower.t) (j : nat),
    nth_error (BattleScene.store i tower towers) j
    = if (j =? i)%nat
      then option_map (fun _ => tower) (nth_error towers j)
      else nth_error towers j.
Proof.
  induction i as [ | i IH ]; intros [ | first rest ] [ | j ]; simpl; try reflexivity.
  - now destruct (j =? i)%nat.
  - apply IH.
Qed.

Lemma store_length (i : nat) (tower : Tower.t) :
  forall towers : list Tower.t,
    List.length (BattleScene.store i tower towers) = List.length towers.
Proof.
  induction i as [ | i IH ]; intros [ | first rest ]; simpl; try reflexivity.
  now rewrite IH.
Qed.

(** X20.  [upgradeTower] on a tower at level 1 or 2 that the gold pays for: the
    upgrade cost leaves the gold, which stays non-negative, before the
    tower is asked; the tower takes the upgrade when its cooldown has
    run, and is left as it was, the gold gone all the same, when the
    call comes within 500 ms of its last upgrade.  No other tower
    changes. *)
Theorem upgradeTower_accounting
  (currentTime : Z) (i : nat) (this : BattleScene.t) (tower : Tower.t) :
  nth_error (BattleScene.towers this) i = Some tower ->
  (1 <= Tower.level tower <= 2)%Z ->
  (0 <= Towers.cost (Tower.config tower))%Z ->
  (Tower.getUpgradeCost tower <= BattleScene.gold this)%Z ->
  exists this' tower' events,
    BattleScene.upgradeTower currentTime i this = Some (this', events)
    /\ BattleScene.gold this'
       = (BattleScene.gold this - Tower.getUpgradeCost tower)%Z
    /\ (0 <= BattleScene.gold this')%Z
    /\ BattleScene.lives this' = BattleScene.lives this
    /\ nth_error (BattleScene.towers this') i = Some tower'
    /\ (forall j, j <> i ->
          nth_error (BattleScene.towers this') j
          = nth_error (BattleScene.towers this) j)
    /\ (if (currentTime - Tower.lastUpgradeTime tower <? 500)%Z
        then tower' = tower /\ events = []
        else Tower.level tower' = (Tower.level tower + 1)%Z
             /\ Tower.totalInvested tower'
                = (Tower.totalInvested tower + Tower.getUpgradeCost tower)%Z
             /\ events = [towerUpgraded (Tower.level tower + 1)]).
Proof.
  intros Hnth Hlevel Hcost Hgold.
  pose proof (upgrade_call currentTime tower Hlevel Hcost) as Hcall.
  cbv zeta in Hcall.
  assert (Hprice : (0 <= Tower.getUpgradeCost tower)%Z).
  { rewrite getUpgradeCost_cases.
    replace (3 <=? Tower.level tower)%Z with false by (symmetry; apply Z.leb_gt; lia).
    assert (Hcases : Tower.level tower = 1%Z \/ Tower.level tower = 2%Z) by lia.
    destruct Hcases as [ -> | -> ].
    - change (5 ^ 1) with (inject_Z 5). rewrite floor_scaled. lia.
    - change (5 ^ 2) with (inject_Z 25). rewrite floor_scaled. lia. }
  unfold BattleScene.upgradeTower. rewrite Hnth.
  replace (Tower.getUpgradeCost tower <? 0)%Z with false
    by (symmetry; apply Z.ltb_ge; lia).
  replace (BattleScene.gold this <? Tower.getUpgradeCost tower)%Z with false
    by (symmetry; apply Z.ltb_ge; lia).
  assert (Hother : forall tower' j, j <> i ->
             nth_error (BattleScene.store i tower' (BattleScene.towers this)) j
             = nth_error (BattleScene.towers this) j).
  { intros tower' j Hj. rewrite store_nth.
    destruct (j =? i)%nat eqn:Heq; [ | reflexivity ].
    apply Nat.eqb_eq in Heq. contradiction. }
  assert (Hstored : forall tower',
             nth_error (BattleScene.store i tower' (BattleScene.towers this)) i
             = Some tower').
  { intros tower'. now rewrite store_nth, Nat.eqb_refl, Hnth. }
  destruct (currentTime - Tower.lastUpgradeTime tower <? 500)%Z.
  - rewrite Hcall.
    exists (BattleScene.with_towers
              (BattleScene.store i tower (BattleScene.towers this))
              (BattleScene.with_gold
                 (BattleScene.gold this - Tower.getUpgradeCost tower) this)),
      tower, [].
    cbn [BattleScene.with_towers BattleScene.with_gold BattleScene.gold
         BattleScene.lives BattleScene.towers].
    repeat split; auto. lia.
  - destruct Hcall as (tower' & Hcall & Hlevel' & Hinvested & Hcost' & _).
    rewrite <- Hcost' in Hcall, Hinvested. rewrite Hcall.
    exists (BattleScene.with_towers
              (BattleScene.store i tower' (BattleScene.towers this))
              (BattleScene.with_gold
                 (BattleScene.gold this - Tower.getUpgradeCost tower) this)),
      tower', [towerUpgraded (Tower.level tower + 1)].
    cbn [BattleScene.with_towers BattleScene.with_gold BattleScene.gold
         BattleScene.lives BattleScene.towers].
    repeat split; auto. lia.
Qed.

Lemma upgradeTower_accounting_witness :
  exists this' tower' events,
    BattleScene.upgradeTower 1200 0
      {| BattleScene.gold := 260; BattleScene.lives := 20;
         BattleScene.gameOver := false;
         BattleScene.towers :=
           [ {| Tower.config :=
                  snd (Towers.mkTower "ember_watch" 50 15 180 600 500 FIRE None);
                Tower.level := 1; Tower.totalInvested := 50;
                Tower.lastFireTime := 0; Tower.lastUpgradeTime := 1000 |} ] |}
    = Some (this', events)
    /\ BattleScene.gold this' = 10%Z
    /\ nth_error (BattleScene.towers this') 0 = Some tower'
    /\ Tower.level tower' = 1%Z /\ events = [].
Proof.
  destruct (upgradeTower_accounting 1200 0
              {| BattleScene.gold := 260; BattleScene.lives := 20;
                 BattleScene.gameOver := false;
                 BattleScene.towers :=
                   [ {| Tower.config :=
                          snd (Towers.mkTower "ember_watch" 50 15 180 600 500 FIRE None);
                        Tower.level := 1; Tower.totalInvested := 50;
                        Tower.lastFireTime := 0; Tower.lastUpgradeTime := 1000 |} ] |}
              {| Tower.config :=
                   snd (Towers.mkTower "ember_watch" 50 15 180 600 500 FIRE None);
                 Tower.level := 1; Tower.totalInvested := 50;
                 Tower.lastFireTime := 0; Tower.lastUpgradeTime := 1000 |})
    as (this' & tower' & events & Hcall & Hgold & _ & _ & Htower & _ & Hsame & Hquiet).
  - reflexivity.
  - cbn. lia.
  - cbn. lia.
  - vm_compute. discriminate.
  - exists this', tower', events.
    split; [ exact Hcall | ]. split; [ exact Hgold | ]. split; [ exact Htower | ].
    split; [ now rewrite Hsame | exact Hquiet ].
Defined.

(** ** Enemy units: damage *)

Lemma takeDamage_cases (amount : Q) (this : EnemyUnits.t) :
  let '(unit, events) := EnemyUnits.takeDamage amount this in
  EnemyUnits.config unit = EnemyUnits.config this
  /\ (EnemyUnits.isDead this = true -> unit = this /\ events = [])
  /\ (EnemyUnits.isDead this = false ->
      EnemyUnits.health unit = EnemyUnits.health this - amount
      /\ (EnemyUnits.isDead unit = false /\ events = []
          /\ 0 < EnemyUnits.health this - amount
          \/ EnemyUnits.isDead unit = true
             /\ events = [enemyKilled (EnemyUnits.config this)]
             /\ EnemyUnits.health this - amount <= 0)).
Proof.
  unfold EnemyUnits.takeDamage.
  destruct (EnemyUnits.isDead this) eqn:Hdead.
  - repeat split; auto; discriminate.
  - cbn [EnemyUnits.with_health EnemyUnits.health].
    destruct (Qle_bool (EnemyUnits.health this - amount) 0) eqn:Hle.
    + cbn [EnemyUnits.die EnemyUnits.with_health EnemyUnits.with_flags
           EnemyUnits.config EnemyUnits.health EnemyUnits.isDead].
      split; [ reflexivity | ]. split; [ discriminate | ].
      intros _. split; [ reflexivity | ]. right.
      repeat split. now apply Qle_bool_iff.
    + cbn [EnemyUnits.with_health EnemyUnits.config EnemyUnits.health
           EnemyUnits.isDead].
      split; [ reflexivity | ]. split; [ discriminate | ].
      intros _. split; [ reflexivity | ]. left.
      split; [ exact Hdead | ]. split; [ reflexivity | ].
      apply Qnot_le_lt. intros Hneg. apply Qle_bool_iff in Hneg. congruence.
Qed.

Lemma takeDamageRun_dead (amounts : list Q) :
  forall (this : EnemyUnits.t) (events : list GameEvent),
    EnemyUnits.isDead this = true ->
    fold_left
      (fun '(unit, events) amount =>
         let '(unit, emitted) := EnemyUnits.takeDamage amount unit in
         (unit, events ++ emitted))
      amounts (this, events)
    = (this, events).
Proof.
  induction amounts as [ | amount amounts IH ]; intros this events Hdead;
    [ reflexivity | ].
  assert (Hstep : EnemyUnits.takeDamage amount this = (this, []))
    by (unfold EnemyUnits.takeDamage; now rewrite Hdead).
  cbn [fold_left]. rewrite Hstep, app_nil_r. now apply IH.
Qed.

Lemma takeDamageRun_alive (amounts : list Q) :
  forall (this : EnemyUnits.t) (events : list GameEvent),
    EnemyUnits.isDead this = false ->
    let '(unit, emitted) :=
      fold_left
        (fun '(unit, events) amount =>
           let '(unit, emitted) := EnemyUnits.takeDamage amount unit in
           (unit, events ++ emitted))
        amounts (this, events) in
    EnemyUnits.config unit = EnemyUnits.config this
    /\ (EnemyUnits.isDead unit = false /\ emitted = events
        /\ EnemyUnits.health unit
           = fold_left Qminus amounts (EnemyUnits.health this)
        \/ EnemyUnits.isDead unit = true
           /\ emitted = events ++ [enemyKilled (EnemyUnits.config this)]
           /\ EnemyUnits.health unit <= 0)
    /\ (0 < EnemyUnits.health this -> Forall (fun amount => 0 <= amount) amounts ->
        (EnemyUnits.isDead unit = true
         <-> EnemyUnits.health this <= fold_left Qplus amounts 0)).
Proof.
  induction amounts as [ | amount amounts IH ]; intros this events Halive.
  - cbn. split; [ reflexivity | ]. split; [ left; auto | ].
    intros Hpos _. rewrite Halive. split; [ discriminate | ].
    intros Hle. exfalso. apply (Qlt_not_le _ _ Hpos Hle).
  - cbn [fold_left].
    pose proof (takeDamage_cases amount this) as Hstep.
    destruct (EnemyUnits.takeDamage amount this) as [unit emitted].
    destruct Hstep as (Hconfig & _ & Hstep). specialize (Hstep Halive).
    destruct Hstep as (Hhealth & [ (Hstill & -> & Hleft) | (Hdied & -> & Hgone) ]).
    + rewrite app_nil_r. specialize (IH unit events Hstill).
      destruct (fold_left _ amounts (unit, events)) as [final all].
      destruct IH as (Hc & Hcases & Hiff).
      split; [ congruence | ]. split.
      * destruct Hcases as [ (Ha & He & Hh) | (Ha & He & Hh) ].
        -- left. repeat split; auto. now rewrite Hh, Hhealth.
        -- right. repeat split; auto. now rewrite He, Hconfig.
      * intros Hpos Hnonneg. inversion Hnonneg as [ | ? ? Hamount Hrest ]; subst.
        rewrite Hhealth in Hiff.
        rewrite (Hiff Hleft Hrest).
        assert (Hsum : forall start,
                   fold_left Qplus amounts start == start + fold_left Qplus amounts 0).
        { clear. induction amounts as [ | a amounts IHs ]; intros start; cbn.
          - ring.
          - rewrite (IHs (start + a)), (IHs (0 + a)). ring. }
        rewrite (Hsum (0 + amount)). split; intros Hle; lra.
    + rewrite (takeDamageRun_dead amounts unit _ Hdied).
      split; [ exact Hconfig | ]. split.
      * right. repeat split; auto. now rewrite Hhealth.
      * intros Hpos Hnonneg. inversion Hnonneg as [ | ? ? Hamount Hrest ]; subst.
        rewrite Hdied. split; [ intros _ | reflexivity ].
        assert (Hgrow : forall start,
                   Forall (fun amount => 0 <= amount) amounts ->
                   start <= fold_left Qplus amounts start).
        { clear. induction amounts as [ | a amounts IHs ]; intros start Hall; cbn.
          - apply Qle_refl.
          - inversion Hall as [ | ? ? Ha Hrest ]; subst.
            apply Qle_trans with (start + a); [ lra | now apply IHs ]. }
        pose proof (Hgrow (0 + amount) Hrest). lra.
Qed.

(** X21.  A living unit under any sequence of [takeDamage] calls: [enemyKilled]
    is emitted at most once, with the unit's own configuration, exactly
    when the unit dies, which is at the first call that leaves its health
    at or below 0; until then the health is the start health less the
    amounts.  With a positive start health and non-negative amounts the
    unit is dead at the end exactly when the amounts add up to the start
    health or more. *)
Theorem takeDamage_kills_once (amounts : list Q) (this : EnemyUnits.t) :
  EnemyUnits.isDead this = false ->
  let '(unit, events) := takeDamageRun amounts this in
  EnemyUnits.config unit = EnemyUnits.config this
  /\ (EnemyUnits.isDead unit = false /\ events = []
      /\ EnemyUnits.health unit = fold_left Qminus amounts (EnemyUnits.health this)
      \/ EnemyUnits.isDead unit = true
         /\ events = [enemyKilled (EnemyUnits.config this)]
         /\ EnemyUnits.health unit <= 0)
  /\ (0 < EnemyUnits.health this -> Forall (fun amount => 0 <= amount) amounts ->
      (EnemyUnits.isDead unit = true
       <-> EnemyUnits.health this <= fold_left Qplus amounts 0)).
Proof.
  intros Halive. unfold takeDamageRun.
  exact (takeDamageRun_alive amounts this [] Halive).
Qed.

Lemma takeDamage_kills_once_witness :
  let '(unit, events) :=
    takeDamageRun [15; 15; 15; 15]
      (EnemyUnits.constructor (snd (mkEnemy "goblin" 40 45 1 8 [SWARM] 1)) [] 360 160) in
  EnemyUnits.isDead unit = true
  /\ events = [enemyKilled (snd (mkEnemy "goblin" 40 45 1 8 [SWARM] 1))].
Proof.
  pose proof (takeDamage_kills_once [15; 15; 15; 15]
                (EnemyUnits.constructor (snd (mkEnemy "goblin" 40 45 1 8 [SWARM] 1))
                                        [] 360 160) eq_refl) as Hrun.
  destruct (takeDamageRun [15; 15; 15; 15]
              (EnemyUnits.constructor (snd (mkEnemy "goblin" 40 45 1 8 [SWARM] 1))
                                      [] 360 160)) as [unit events].
  destruct Hrun as (_ & Hcases & Hiff).
  assert (Hdead : EnemyUnits.isDead unit = true).
  { apply Hiff.
    - reflexivity.
    - repeat constructor; discriminate.
    - discriminate. }
  split; [ exact Hdead | ].
  destruct Hcases as [ (Halive & _) | (_ & Hevents & _) ]; [ congruence | exact Hevents ].
Defined.

(** ** Projectiles *)

(** X22.  An active projectile of a tower, carrying an integer damage, hits: it
    is used up, so a second [hit()] does nothing; an active target takes
    the damage [calculateEffectiveDamage] gives for its types (the plain
    damage when it has none), through [takeDamage]; a destroyed target is
    left alone. *)
Theorem projectile_hits_once
  (this : Projectile.t) (target : EnemyUnits.t) (towerId : string) (damage : Z) :
  Projectile.active this = true ->
  Projectile.towerId this = Some towerId -> towerId <> ""%string ->
  Projectile.damage this = inject_Z damage ->
  let '(projectile, struck, events) := Projectile.hit this target in
  Projectile.active projectile = false
  /\ Projectile.hit projectile struck = (projectile, struck, [])
  /\ (if EnemyUnits.active target
      then (struck, events)
           = EnemyUnits.takeDamage
               (calculateEffectiveDamage (inject_Z damage) towerId
                  (EnemyUnits.getEnemyTypes target))
               target
      else struck = target /\ events = []).
Proof.
  intros Hactive Htower Hid Hdamage. unfold Projectile.hit at 1.
  rewrite Hactive, Htower, Hdamage. cbn [negb].
  assert (Hnonempty : String.eqb towerId "" = false)
    by (now apply String.eqb_neq).
  rewrite Hnonempty. cbn [negb andb].
  destruct (EnemyUnits.active target).
  - assert (Hdealt :
        (if (0 <? len (EnemyUnits.getEnemyTypes target))%Z
         then calculateEffectiveDamage (inject_Z damage) towerId
                (EnemyUnits.getEnemyTypes target)
         else inject_Z damage)
        = calculateEffectiveDamage (inject_Z damage) towerId
            (EnemyUnits.getEnemyTypes target)).
    { destruct (EnemyUnits.getEnemyTypes target) as [ | enemyType rest ].
      - cbn. symmetry. apply damage_no_types.
      - reflexivity. }
    rewrite Hdealt.
    destruct (EnemyUnits.takeDamage _ target) as [struck events].
    repeat split.
  - repeat split.
Qed.

Lemma projectile_hits_once_witness :
  let '(projectile, struck, events) :=
    Projectile.hit
      {| Projectile.active := true; Projectile.damage := 15;
         Projectile.towerId := Some "ember_watch"%string |}
      (EnemyUnits.constructor (snd (mkEnemy "goblin" 40 45 1 8 [SWARM] 1)) [] 360 160) in
  Projectile.active projectile = false
  /\ EnemyUnits.health struck == 16.
Proof.
  pose proof (projectile_hits_once
                {| Projectile.active := true; Projectile.damage := 15;
                   Projectile.towerId := Some "ember_watch"%string |}
                (EnemyUnits.constructor (snd (mkEnemy "goblin" 40 45 1 8 [SWARM] 1))
                                        [] 360 160)
                "ember_watch"%string 15 eq_refl eq_refl) as Hhit.
  destruct (Projectile.hit _ _) as [ [projectile struck] events ].
  destruct Hhit as (Hused & _ & Hstruck).
  - discriminate.
  - reflexivity.
  - split; [ exact Hused | ].
    cbn [EnemyUnits.active EnemyUnits.constructor] in Hstruck.
    injection Hstruck as -> _. vm_compute. reflexivity.
Defined.

(** ** Enemy units: the walk *)

Section WalkProgress.

Variable Math_sqrt : Q -> Q.

Lemma moveAlong_progress (rest : list EnemyUnits.PathWaypoint) (moveDistance : Q) :
  forall this : EnemyUnits.t,
    (EnemyUnits.currentWaypointIndex this + len rest
     <= len (EnemyUnits.waypoints this))%Z ->
    let '(unit, movement) := EnemyUnits.moveAlong Math_sqrt rest moveDistance this in
    (EnemyUnits.currentWaypointIndex this <= EnemyUnits.currentWaypointIndex unit
     <= len (EnemyUnits.waypoints this))%Z
    /\ unit = EnemyUnits.with_position (EnemyUnits.x this) (EnemyUnits.y this)
                (EnemyUnits.currentWaypointIndex unit) this
    /\ (EnemyUnits.hasReachedEnd unit = true -> movement = (0, 0)).
Proof.
  induction rest as [ | target rest IH ]; intros this Hfit.
  - cbn [EnemyUnits.moveAlong].
    change (len (@nil EnemyUnits.PathWaypoint)) with 0%Z in Hfit.
    split; [ lia | ]. split; [ now destruct this | reflexivity ].
  - cbn [EnemyUnits.moveAlong]. cbv zeta.
    assert (Hlen : len (target :: rest) = (len rest + 1)%Z)
      by (unfold len; cbn [List.length]; lia).
    rewrite Hlen in Hfit.
    assert (Hrest : (0 <= len rest)%Z) by (unfold len; lia).
    destruct (Qltb (Math_sqrt _) 10).
    + cbn [EnemyUnits.with_position EnemyUnits.currentWaypointIndex
           EnemyUnits.waypoints].
      destruct (EnemyUnits.currentWaypointIndex this + 1
                <? len (EnemyUnits.waypoints this))%Z eqn:Hmore.
      * specialize (IH (EnemyUnits.with_position (EnemyUnits.x this)
                          (EnemyUnits.y this)
                          (EnemyUnits.currentWaypointIndex this + 1) this)).
        cbn [EnemyUnits.with_position EnemyUnits.currentWaypointIndex
             EnemyUnits.waypoints EnemyUnits.x EnemyUnits.y] in IH.
        specialize (IH ltac:(lia)).
        destruct (EnemyUnits.moveAlong Math_sqrt rest moveDistance _)
          as [unit movement].
        destruct IH as (Hindex & Hunit & Hend).
        split; [ lia | ]. split; [ | exact Hend ].
        rewrite Hunit. reflexivity.
      * cbn [EnemyUnits.with_position EnemyUnits.currentWaypointIndex
             EnemyUnits.waypoints].
        split; [ lia | ]. split; reflexivity.
    + split; [ lia | ]. split; [ now destruct this | ].
      unfold EnemyUnits.hasReachedEnd. intros Hend. apply Z.leb_le in Hend. lia.
Qed.

(** X23.  One [update] of a unit whose waypoint index is within the path: the
    index does not go back and does not pass the end of the path; health,
    death, configuration and path are untouched; a dead unit does not
    change at all; a unit that has reached the end stays where it is; and
    the slow amount either stays or is reset to 0. *)
Theorem walk_never_steps_back (delta : Q) (this : EnemyUnits.t) :
  (0 <= EnemyUnits.currentWaypointIndex this <= len (EnemyUnits.waypoints this))%Z ->
  let unit := EnemyUnits.update Math_sqrt delta this in
  (EnemyUnits.currentWaypointIndex this <= EnemyUnits.currentWaypointIndex unit
   <= len (EnemyUnits.waypoints this))%Z
  /\ EnemyUnits.health unit = EnemyUnits.health this
  /\ EnemyUnits.isDead unit = EnemyUnits.isDead this
  /\ EnemyUnits.active unit = EnemyUnits.active this
  /\ EnemyUnits.config unit = EnemyUnits.config this
  /\ EnemyUnits.waypoints unit = EnemyUnits.waypoints this
  /\ (EnemyUnits.isDead this = true -> unit = this)
  /\ (EnemyUnits.hasReachedEnd this = true ->
      EnemyUnits.x unit == EnemyUnits.x this
      /\ EnemyUnits.y unit == EnemyUnits.y this
      /\ EnemyUnits.currentWaypointIndex unit = EnemyUnits.currentWaypointIndex this)
  /\ (EnemyUnits.slowAmount unit = EnemyUnits.slowAmount this
      \/ EnemyUnits.slowAmount unit = 0).
Proof.
  intros Hindex. cbv zeta. unfold EnemyUnits.update.
  destruct (EnemyUnits.isDead this) eqn:Hdead.
  { repeat split; auto; try lia. }
  set (slowed :=
         if Qgtb (EnemyUnits.slowDuration this) 0
         then
           if Qle_bool
                (EnemyUnits.slowDuration
                   (EnemyUnits.with_slow (EnemyUnits.slowAmount this)
                      (EnemyUnits.slowDuration this - delta) this)) 0
           then EnemyUnits.with_slow 0
                  (EnemyUnits.slowDuration
                     (EnemyUnits.with_slow (EnemyUnits.slowAmount this)
                        (EnemyUnits.slowDuration this - delta) this))
                  (EnemyUnits.with_slow (EnemyUnits.slowAmount this)
                     (EnemyUnits.slowDuration this - delta) this)
           else EnemyUnits.with_slow (EnemyUnits.slowAmount this)
                  (EnemyUnits.slowDuration this - delta) this
         else this).
  assert (Hslowed :
            exists amount duration,
              slowed = EnemyUnits.with_slow amount duration this
              /\ (amount = EnemyUnits.slowAmount this \/ amount = 0)).
  { unfold slowed. destruct (Qgtb (EnemyUnits.slowDuration this) 0).
    - destruct (Qle_bool _ 0).
      + eexists _, _. split; [ reflexivity | now right ].
      + eexists _, _. split; [ reflexivity | now left ].
    - exists (EnemyUnits.slowAmount this), (EnemyUnits.slowDuration this).
      split; [ now destruct this | now left ]. }
  destruct Hslowed as (amount & duration & Hslowed & Hamount).
  clearbody slowed. subst slowed.
  unfold EnemyUnits.moveTowardsWaypoint.
  cbn [EnemyUnits.with_slow EnemyUnits.waypoints EnemyUnits.currentWaypointIndex
       EnemyUnits.speed EnemyUnits.slowAmount].
  unfold EnemyUnits.hasReachedEnd.
  destruct (len (EnemyUnits.waypoints this)
            <=? EnemyUnits.currentWaypointIndex this)%Z eqn:Hend.
  - cbn [EnemyUnits.with_position EnemyUnits.with_slow EnemyUnits.currentWaypointIndex
         EnemyUnits.health EnemyUnits.isDead EnemyUnits.active EnemyUnits.config
         EnemyUnits.waypoints EnemyUnits.x EnemyUnits.y EnemyUnits.slowAmount fst snd].
    repeat split; auto; try lia; try discriminate; try ring.
  - apply Z.leb_gt in Hend.
    pose proof (moveAlong_progress
                  (skipn (Z.to_nat (EnemyUnits.currentWaypointIndex this))
                         (EnemyUnits.waypoints this))
                  (EnemyUnits.speed this * (1 - amount / 100) * delta / 1000)
                  (EnemyUnits.with_slow amount duration this)) as Hwalk.
    cbn [EnemyUnits.with_slow EnemyUnits.waypoints EnemyUnits.currentWaypointIndex
         EnemyUnits.x EnemyUnits.y] in Hwalk.
    assert (Hfit : (EnemyUnits.currentWaypointIndex this
                    + len (skipn (Z.to_nat (EnemyUnits.currentWaypointIndex this))
                                 (EnemyUnits.waypoints this))
                    <= len (EnemyUnits.waypoints this))%Z).
    { unfold len in *. rewrite length_skipn. lia. }
    specialize (Hwalk Hfit).
    destruct (EnemyUnits.moveAlong Math_sqrt _ _ _) as [unit movement].
    destruct Hwalk as (Hprogress & -> & _).
    cbn [EnemyUnits.with_position EnemyUnits.with_slow EnemyUnits.currentWaypointIndex
         EnemyUnits.health EnemyUnits.isDead EnemyUnits.active EnemyUnits.config
         EnemyUnits.waypoints EnemyUnits.x EnemyUnits.y EnemyUnits.slowAmount] in *.
    repeat split; auto; try lia; try discriminate.
Qed.

End WalkProgress.

Lemma walk_never_steps_back_witness :
  let unit :=
    EnemyUnits.update sample_sqrt 16
      (EnemyUnits.constructor (snd (mkEnemy "goblin" 40 45 1 8 [SWARM] 1))
         [ {| EnemyUnits.wx := 360; EnemyUnits.wy := 160 |};
           {| EnemyUnits.wx := 360; EnemyUnits.wy := 166 |};
           {| EnemyUnits.wx := 640; EnemyUnits.wy := 166 |} ] 360 160) in
  (1 <= EnemyUnits.currentWaypointIndex unit <= 3)%Z.
Proof.
  apply (walk_never_steps_back sample_sqrt 16
           (EnemyUnits.constructor (snd (mkEnemy "goblin" 40 45 1 8 [SWARM] 1))
              [ {| EnemyUnits.wx := 360; EnemyUnits.wy := 160 |};
                {| EnemyUnits.wx := 360; EnemyUnits.wy := 166 |};
                {| EnemyUnits.wx := 640; EnemyUnits.wy := 166 |} ] 360 160)).
  vm_compute. split; discriminate.
Defined.

(** ** The frame pass of the wave system *)

Section FramePass.

Context {h : Host}.
Variable Math_sqrt : Q -> Q.

Lemma nth_error_middle {A : Type} (before after : list A) (x : A) :
  nth_error (before ++ x :: after) (List.length before) = Some x.
Proof.
  rewrite nth_error_app2 by apply Nat.le_refl. now rewrite Nat.sub_diag.
Qed.

Lemma splice_remove_middle {A : Type} (before after : list A) (x : A) :
  splice_remove (before ++ x :: after) (List.length before) = before ++ after.
Proof.
  unfold splice_remove.
  rewrite firstn_app, Nat.sub_diag, firstn_all, app_nil_r.
  change (S (List.length before)) with (1 + List.length before)%nat.
  rewrite <- skipn_skipn, skipn_app, Nat.sub_diag, skipn_all.
  reflexivity.
Qed.

Lemma assign_middle {A : Type} (before after : list A) (x y : A) :
  assign (before ++ x :: after) (List.length before) y = before ++ y :: after.
Proof.
  unfold assign.
  rewrite firstn_app, Nat.sub_diag, firstn_all, app_nil_r.
  change (S (List.length before)) with (1 + List.length before)%nat.
  rewrite <- skipn_skipn, skipn_app, Nat.sub_diag, skipn_all.
  reflexivity.
Qed.

(** The loop with the enemies [ahead] still to visit and the enemies [behind]
    left by the passes already made: the index of the next pass is the
    last position of [ahead]. *)
Lemma updateLoop_passes (delta : Q) (ahead : list EnemyUnits.t) :
  forall (behind : list EnemyUnits.t) (events : list GameEvent),
    let moved := map (EnemyUnits.update Math_sqrt delta) (filter standing ahead) in
    WaveUpdate.updateLoop Math_sqrt (List.length ahead) delta (ahead ++ behind) events
    = Some (filter (fun enemy => negb (EnemyUnits.hasReachedEnd enemy)) moved ++ behind,
            events
            ++ rev (map (fun enemy => enemyReachedBase (EnemyUnits.config enemy))
                        (filter EnemyUnits.hasReachedEnd moved))).
Proof.
  cbv zeta. induction ahead as [ | enemy ahead IH ] using rev_ind;
    intros behind events.
  - cbn. now rewrite app_nil_r.
  - rewrite length_app, Nat.add_1_r, <- app_assoc. cbn [app WaveUpdate.updateLoop].
    rewrite nth_error_middle, assign_middle, !splice_remove_middle.
    rewrite filter_app. cbn [filter].
    destruct (standing enemy) eqn:Hstanding; unfold standing in Hstanding.
    + apply negb_true_iff in Hstanding. rewrite Hstanding.
      rewrite map_app, filter_app, filter_app. cbn [map filter].
      destruct (EnemyUnits.hasReachedEnd (EnemyUnits.update Math_sqrt delta enemy));
        cbn [negb]; rewrite IH.
      * rewrite map_app, rev_app_distr, app_nil_r. cbn [map rev app].
        now rewrite <- app_assoc.
      * rewrite app_nil_r, <- app_assoc. reflexivity.
    + apply negb_false_iff in Hstanding. rewrite Hstanding.
      rewrite IH, !app_nil_r. reflexivity.
Qed.

Lemma updateEnemies_pipeline (delta : Q) (enemies : list EnemyUnits.t) :
  let moved := map (EnemyUnits.update Math_sqrt delta) (filter standing enemies) in
  WaveUpdate.updateEnemies Math_sqrt delta enemies
  = (filter (fun enemy => negb (EnemyUnits.hasReachedEnd enemy)) moved,
     rev (map (fun enemy => enemyReachedBase (EnemyUnits.config enemy))
              (filter EnemyUnits.hasReachedEnd moved))).
Proof.
  cbv zeta. unfold WaveUpdate.updateEnemies.
  pose proof (updateLoop_passes delta enemies [] []) as Hloop.
  cbv zeta in Hloop. rewrite !app_nil_r in Hloop. cbn [app] in Hloop.
  now rewrite Hloop.
Qed.

(** X24.  The backward loop of [update], which reads each enemy by its index
    from the array that the earlier passes have shortened, never reads
    past the end and visits every enemy once: it ends with the standing
    enemies, moved, that have not reached the end, in their order, and with
    [enemyReachedBase] emitted for the other moved ones, last enemy
    first. *)
Theorem update_pass_visits_each_enemy (delta : Q) (enemies : list EnemyUnits.t) :
  let moved := map (EnemyUnits.update Math_sqrt delta) (filter standing enemies) in
  WaveUpdate.updateLoop Math_sqrt (List.length enemies) delta enemies []
  = Some (filter (fun enemy => negb (EnemyUnits.hasReachedEnd enemy)) moved,
          rev (map (fun enemy => enemyReachedBase (EnemyUnits.config enemy))
                   (filter EnemyUnits.hasReachedEnd moved))).
Proof.
  cbv zeta. pose proof (updateLoop_passes delta enemies [] []) as Hloop.
  cbv zeta in Hloop. rewrite !app_nil_r in Hloop. exact Hloop.
Qed.

Lemma update_cases (delta : Q) (this : WaveUpdate.t) :
  let '(after, events) := WaveUpdate.update Math_sqrt delta this in
  WaveUpdate.enemies after = fst (WaveUpdate.updateEnemies Math_sqrt delta
                                    (WaveUpdate.enemies this))
  /\ WaveUpdate.isSpawning after = WaveUpdate.isSpawning this
  /\ WaveUpdate.currentWave after = WaveUpdate.currentWave this
  /\ WaveUpdate.rewardMultiplier after = WaveUpdate.rewardMultiplier this
  /\ (let completes :=
        WaveUpdate.waveInProgress this && negb (WaveUpdate.isSpawning this)
        && (len (WaveUpdate.enemies after) =? 0)%Z in
      WaveUpdate.waveInProgress after
      = WaveUpdate.waveInProgress this && negb completes
      /\ filter isWaveComplete events
         = if completes
           then [waveComplete (WaveUpdate.currentWave this + 1)
                   (Math_floor
                      ((12 + inject_Z (WaveUpdate.currentWave this) * 3
                        + Math_pow (inject_Z (WaveUpdate.currentWave this)) 1.1)
                       * WaveUpdate.rewardMultiplier this))]
           else []).
Proof.
  unfold WaveUpdate.update.
  rewrite (updateEnemies_pipeline delta (WaveUpdate.enemies this)).
  cbv zeta.
  set (moved := map (EnemyUnits.update Math_sqrt delta)
                    (filter standing (WaveUpdate.enemies this))).
  assert (Hquiet : forall units : list EnemyUnits.t,
             filter isWaveComplete
               (rev (map (fun enemy => enemyReachedBase (EnemyUnits.config enemy))
                         units)) = []).
  { intros units. induction units as [ | unit units IHu ]; [ reflexivity | ].
    cbn [map rev]. rewrite filter_app, IHu. reflexivity. }
  cbn [WaveUpdate.enemies WaveUpdate.waveInProgress WaveUpdate.isSpawning
       WaveUpdate.currentWave WaveUpdate.rewardMultiplier fst].
  destruct (WaveUpdate.waveInProgress this && negb (WaveUpdate.isSpawning this)
            && (len (filter (fun enemy => negb (EnemyUnits.hasReachedEnd enemy)) moved)
                =? 0)%Z) eqn:Hcompletes.
  - cbn [WaveUpdate.waveComplete WaveUpdate.enemies WaveUpdate.waveInProgress
         WaveUpdate.isSpawning WaveUpdate.currentWave WaveUpdate.rewardMultiplier].
    cbv zeta. rewrite Hcompletes. cbn [negb].
    rewrite filter_app, Hquiet, andb_false_r. repeat split.
  - cbn [WaveUpdate.enemies WaveUpdate.waveInProgress WaveUpdate.isSpawning
         WaveUpdate.currentWave WaveUpdate.rewardMultiplier].
    cbv zeta. rewrite Hcompletes. cbn [negb].
    rewrite Hquiet, andb_true_r. repeat split.
Qed.

Lemma updateRun_quiet (deltas : list Q) :
  forall (this : WaveUpdate.t) (events : list GameEvent),
    WaveUpdate.waveInProgress this = false
    \/ WaveUpdate.isSpawning this = true ->
    let '(final, all) :=
      fold_left
        (fun '(this, events) delta =>
           let '(this, emitted) := WaveUpdate.update Math_sqrt delta this in
           (this, events ++ emitted))
        deltas (this, events) in
    filter isWaveComplete all = filter isWaveComplete events
    /\ WaveUpdate.waveInProgress final = WaveUpdate.waveInProgress this
    /\ WaveUpdate.isSpawning final = WaveUpdate.isSpawning this
    /\ WaveUpdate.currentWave final = WaveUpdate.currentWave this
    /\ (WaveUpdate.enemies this = [] -> WaveUpdate.enemies final = []).
Proof.
  induction deltas as [ | delta deltas IH ]; intros this events Hquiet.
  - cbn. repeat split; auto.
  - cbn [fold_left].
    pose proof (update_cases delta this) as Hstep.
    destruct (WaveUpdate.update Math_sqrt delta this) as [after emitted].
    destruct Hstep as (Henemies & Hspawning & Hwave & _ & Hprogress & Hevents).
    assert (Hno : WaveUpdate.waveInProgress this
                  && negb (WaveUpdate.isSpawning this)
                  && (len (WaveUpdate.enemies after) =? 0)%Z = false).
    { destruct Hquiet as [ -> | -> ]; [ reflexivity | ].
      now rewrite andb_false_r. }
    rewrite Hno in Hprogress, Hevents. rewrite andb_true_r in Hprogress.
    specialize (IH after (events ++ emitted)).
    destruct (fold_left _ deltas (after, events ++ emitted)) as [final all].
    destruct IH as (Hall & Hp & Hs & Hw & He).
    { rewrite Hprogress, Hspawning. exact Hquiet. }
    rewrite Hall, filter_app, Hevents, app_nil_r, Hp, Hs, Hw, Hprogress, Hspawning,
      Hwave.
    repeat split. intros Hempty. apply He. rewrite Henemies, Hempty. reflexivity.
Qed.

Lemma updateRun_once (deltas : list Q) :
  forall (this : WaveUpdate.t) (events : list GameEvent),
    let '(final, all) :=
      fold_left
        (fun '(this, events) delta =>
           let '(this, emitted) := WaveUpdate.update Math_sqrt delta this in
           (this, events ++ emitted))
        deltas (this, events) in
    let completed :=
      waveComplete (WaveUpdate.currentWave this + 1)
        (Math_floor
           ((12 + inject_Z (WaveUpdate.currentWave this) * 3
             + Math_pow (inject_Z (WaveUpdate.currentWave this)) 1.1)
            * WaveUpdate.rewardMultiplier this)) in
    WaveUpdate.isSpawning final = WaveUpdate.isSpawning this
    /\ WaveUpdate.currentWave final = WaveUpdate.currentWave this
    /\ (filter isWaveComplete all = filter isWaveComplete events
        /\ WaveUpdate.waveInProgress final = WaveUpdate.waveInProgress this
        \/ filter isWaveComplete all = filter isWaveComplete events ++ [completed]
           /\ WaveUpdate.waveInProgress this = true
           /\ WaveUpdate.isSpawning this = false
           /\ WaveUpdate.waveInProgress final = false
           /\ WaveUpdate.enemies final = []).
Proof.
  induction deltas as [ | delta deltas IH ]; intros this events.
  - cbn. repeat split. now left.
  - cbn [fold_left].
    pose proof (update_cases delta this) as Hstep.
    destruct (WaveUpdate.update Math_sqrt delta this) as [after emitted].
    destruct Hstep as (_ & Hspawning & Hwave & Hreward & Hprogress & Hevents).
    destruct (WaveUpdate.waveInProgress this && negb (WaveUpdate.isSpawning this)
              && (len (WaveUpdate.enemies after) =? 0)%Z) eqn:Hcompletes.
    + apply andb_true_iff in Hcompletes. destruct Hcompletes as [Hboth Hempty].
      apply andb_true_iff in Hboth. destruct Hboth as [Hin Hnot].
      apply negb_true_iff in Hnot. apply Z.eqb_eq in Hempty.
      assert (Hnone : WaveUpdate.enemies after = [])
        by (destruct (WaveUpdate.enemies after); [ reflexivity | discriminate ]).
      rewrite andb_false_r in Hprogress.
      pose proof (updateRun_quiet deltas after (events ++ emitted)
                    (or_introl Hprogress)) as Hrest.
      destruct (fold_left _ deltas (after, events ++ emitted)) as [final all].
      destruct Hrest as (Hall & Hp & Hs & Hw & He).
      cbv zeta. rewrite Hs, Hspawning, Hw, Hwave.
      split; [ reflexivity | ]. split; [ reflexivity | ]. right.
      rewrite Hall, filter_app, Hevents, Hp, Hprogress. repeat split; auto.
    + rewrite andb_true_r in Hprogress.
      specialize (IH after (events ++ emitted)).
      destruct (fold_left _ deltas (after, events ++ emitted)) as [final all].
      cbv zeta in IH |- *. rewrite Hwave, Hreward, Hspawning, Hprogress in IH.
      destruct IH as (Hs & Hw & Hcases).
      split; [ exact Hs | ]. split; [ exact Hw | ].
      rewrite filter_app, Hevents, app_nil_r in Hcases. exact Hcases.
Qed.

(** X25.  Over any number of frames of [update] with nothing else in between,
    [waveComplete] is emitted at most once, and only for a wave that was
    in progress with its spawning finished; it carries the next wave's
    number and the bonus the formula gives, the wave is no longer in
    progress and no enemy is left.  The frames change neither the wave
    counter nor the spawning flag.  When the wave is in progress, has
    finished spawning and no enemy is standing, the first frame emits
    it. *)
Theorem wave_completes_once (deltas : list Q) (this : WaveUpdate.t) :
  let '(final, events) := updateRun Math_sqrt deltas this in
  let completed :=
    waveComplete (WaveUpdate.currentWave this + 1)
      (Math_floor
         ((12 + inject_Z (WaveUpdate.currentWave this) * 3
           + Math_pow (inject_Z (WaveUpdate.currentWave this)) 1.1)
          * WaveUpdate.rewardMultiplier this)) in
  WaveUpdate.isSpawning final = WaveUpdate.isSpawning this
  /\ WaveUpdate.currentWave final = WaveUpdate.currentWave this
  /\ (filter isWaveComplete events = []
      /\ WaveUpdate.waveInProgress final = WaveUpdate.waveInProgress this
      \/ filter isWaveComplete events = [completed]
         /\ WaveUpdate.waveInProgress this = true
         /\ WaveUpdate.isSpawning this = false
         /\ WaveUpdate.waveInProgress final = false
         /\ WaveUpdate.enemies final = [])
  /\ (WaveUpdate.waveInProgress this = true -> WaveUpdate.isSpawning this = false ->
      Forall (fun enemy => standing enemy = false) (WaveUpdate.enemies this) ->
      deltas <> [] ->
      filter isWaveComplete events = [completed]).
Proof.
  unfold updateRun.
  pose proof (updateRun_once deltas this []) as Hrun.
  assert (Hlive :
            WaveUpdate.waveInProgress this = true ->
            WaveUpdate.isSpawning this = false ->
            Forall (fun enemy => standing enemy = false) (WaveUpdate.enemies this) ->
            deltas <> [] ->
            filter isWaveComplete
              (snd (fold_left
                      (fun '(this, events) delta =>
                         let '(this, emitted) :=
                           WaveUpdate.update Math_sqrt delta this in
                         (this, events ++ emitted))
                      deltas (this, [])))
            = [waveComplete (WaveUpdate.currentWave this + 1)
                 (Math_floor
                    ((12 + inject_Z (WaveUpdate.currentWave this) * 3
                      + Math_pow (inject_Z (WaveUpdate.currentWave this)) 1.1)
                     * WaveUpdate.rewardMultiplier this))]).
  { intros Hin Hdone Hnone Hframes.
    destruct deltas as [ | delta rest ]; [ now elim Hframes | ].
    cbn [fold_left app].
    pose proof (update_cases delta this) as Hstep.
    destruct (WaveUpdate.update Math_sqrt delta this) as [after emitted].
    destruct Hstep as (Henemies & _ & _ & _ & Hprogress & Hevents).
    assert (Hempty : WaveUpdate.enemies after = []).
    { rewrite Henemies, updateEnemies_pipeline. cbn [fst].
      replace (filter standing (WaveUpdate.enemies this)) with (@nil EnemyUnits.t);
        [ reflexivity | ].
      symmetry. clear - Hnone.
      induction Hnone as [ | enemy enemies Henemy _ IH ]; [ reflexivity | ].
      cbn [filter]. now rewrite Henemy. }
    rewrite Hin, Hdone, Hempty in Hprogress, Hevents.
    change (len (@nil EnemyUnits.t) =? 0)%Z with true in Hprogress, Hevents.
    cbn [andb negb] in Hprogress, Hevents.
    pose proof (updateRun_quiet rest after emitted (or_introl Hprogress)) as Hquiet.
    destruct (fold_left _ rest (after, emitted)) as [final events].
    destruct Hquiet as (Hall & _). cbn [snd]. rewrite Hall. exact Hevents. }
  destruct (fold_left _ deltas (this, [])) as [final events].
  cbv zeta in Hrun |- *. cbn [filter app snd] in Hrun, Hlive.
  destruct Hrun as (Hs & Hw & Hcases).
  split; [ exact Hs | ]. split; [ exact Hw | ]. split; [ exact Hcases | exact Hlive ].
Qed.

End FramePass.

(** ** Snapping a tower position to the grid *)

(** X26.  [snapToGrid] moves each coordinate to a nearest multiple of 8, at most 4
    away, and leaves a snapped position where it is. *)
Theorem snapToGrid_nearest (x y : Q) :
  let '(snappedX, snappedY) := BattleScene.snapToGrid x y in
  (snappedX mod 8 = 0 /\ snappedY mod 8 = 0)%Z
  /\ inject_Z snappedX - 4 <= x /\ x < inject_Z snappedX + 4
  /\ inject_Z snappedY - 4 <= y /\ y < inject_Z snappedY + 4
  /\ BattleScene.snapToGrid (inject_Z snappedX) (inject_Z snappedY)
     = (snappedX, snappedY).
Proof.
  assert (Hnear : forall v : Q,
             inject_Z (Math_round (v / 8) * 8) - 4 <= v
             /\ v < inject_Z (Math_round (v / 8) * 8) + 4).
  { intros v. unfold Math_round.
    pose proof (Qfloor_le (v / 8 + (1 # 2))) as Hlow.
    pose proof (Qlt_floor (v / 8 + (1 # 2))) as Hhigh.
    rewrite inject_Z_plus in Hhigh. rewrite inject_Z_mult.
    set (r := inject_Z (Qfloor (v / 8 + (1 # 2)))) in *.
    change (inject_Z 8) with 8. change (inject_Z 1) with 1 in Hhigh.
    assert (Hv : v / 8 == v * (1 # 8)) by (unfold Qdiv; reflexivity).
    rewrite Hv in Hlow, Hhigh. split; lra. }
  assert (Hfixed : forall n : Z,
             (Math_round (inject_Z (n * 8) / 8) * 8 = n * 8)%Z).
  { intros n. f_equal. unfold Math_round.
    assert (Hexact : inject_Z (n * 8) / 8 + (1 # 2) == inject_Z n + (1 # 2)).
    { rewrite inject_Z_mult. change (inject_Z 8) with 8. field. }
    rewrite (Qfloor_comp _ _ Hexact).
    apply Z.le_antisymm.
    - assert (Hlt : inject_Z (Qfloor (inject_Z n + (1 # 2))) < inject_Z (n + 1)).
      { apply Qle_lt_trans with (inject_Z n + (1 # 2)); [ apply Qfloor_le | ].
        rewrite inject_Z_plus. change (inject_Z 1) with 1. lra. }
      rewrite <- Zlt_Qlt in Hlt. lia.
    - rewrite <- (Qfloor_Z n) at 1. apply Qfloor_resp_le. lra. }
  unfold BattleScene.snapToGrid.
  destruct (Hnear x) as [Hxl Hxh]. destruct (Hnear y) as [Hyl Hyh].
  split; [ split; apply Z.mod_mul; discriminate | ].
  repeat (split; [ assumption | ]).
  now rewrite !Hfixed.
Qed.

(** ** Difficulty *)

(** X27.  The wave system the scene creates takes the reward and the health
    multiplier of the difficulty, and 1 for the enemy count and the speed,
    although every difficulty defines a count and a speed multiplier other
    than 1: the number of enemies, their speed multiplier and the spawn
    interval of a wave are the same on every difficulty. *)
Theorem difficulty_leaves_count_and_speed
  {h : Host} (sc : Scene) (difficulty other : GameConfig.Difficulty)
  (wave : Z) (theme : option WaveTheme) :
  let this := atWave wave (BattleScene.createWaveSystem sc difficulty) in
  let that := atWave wave (BattleScene.createWaveSystem sc other) in
  rewardMultiplier this
  = GameConfig.rewardMultiplier (GameConfig.DIFFICULTY_CONFIG difficulty)
  /\ healthMultiplier this
     = GameConfig.healthMultiplier (GameConfig.DIFFICULTY_CONFIG difficulty)
  /\ enemyCountMultiplier this = 1.0 /\ speedMultiplier this = 1.0
  /\ ~ GameConfig.countMultiplier (GameConfig.DIFFICULTY_CONFIG difficulty) == 1
  /\ ~ GameConfig.speedMultiplier (GameConfig.DIFFICULTY_CONFIG difficulty) == 1
  /\ Scaling.enemyCount (getWaveScaling this theme)
     = Scaling.enemyCount (getWaveScaling that theme)
  /\ Scaling.speedMultiplier (getWaveScaling this theme)
     = Scaling.speedMultiplier (getWaveScaling that theme)
  /\ Scaling.spawnInterval (getWaveScaling this theme)
     = Scaling.spawnInterval (getWaveScaling that theme).
Proof.
  cbv zeta. repeat split; try (destruct difficulty; discriminate).
Qed.

(** ** The rate of fire *)

Lemma spacedFrom_snoc (rate : Q) (shots : list Q) :
  forall (previous time : Q),
    spacedFrom rate previous shots ->
    rate <= time - last shots previous ->
    spacedFrom rate previous (shots ++ [time]).
Proof.
  induction shots as [ | shot rest IH ]; intros previous time Hspaced Hlate.
  - cbn in *. split; [ exact Hlate | exact I ].
  - cbn [app spacedFrom] in *. destruct Hspaced as [Hfirst Hrest].
    split; [ exact Hfirst | ]. apply IH; [ exact Hrest | ].
    destruct rest as [ | next rest ]; [ exact Hlate | ].
    assert (Hdefault : forall (l : list Q) (x d d' : Q),
               last (x :: l) d = last (x :: l) d').
    { induction l as [ | y l IHl ]; intros x d d'; [ reflexivity | ].
      change (last (y :: l) d = last (y :: l) d'). apply IHl. }
    rewrite (Hdefault rest next shot previous). exact Hlate.
Qed.

Lemma fireRun_spaced (times : list Q) :
  forall (this tower : Tower.t) (shots : list Q),
    Tower.config tower = Tower.config this ->
    Tower.level tower = Tower.level this ->
    Tower.lastFireTime tower = last shots (Tower.lastFireTime this) ->
    spacedFrom (inject_Z (Tower.fireRate (Tower.getStats this)))
               (Tower.lastFireTime this) shots ->
    let '(final, all) :=
      fold_left
        (fun '(tower, shots) time =>
           if Tower.canFire time tower
           then (Tower.fire time tower, shots ++ [time])
           else (tower, shots))
        times (tower, shots) in
    Tower.config final = Tower.config this
    /\ Tower.level final = Tower.level this
    /\ Tower.totalInvested final = Tower.totalInvested tower
    /\ spacedFrom (inject_Z (Tower.fireRate (Tower.getStats this)))
                  (Tower.lastFireTime this) all
    /\ ((Towers.projectileSpeed (Tower.config this) = 0)%Z -> all = shots)
    /\ (forall shot, In shot all -> In shot shots \/ In shot times).
Proof.
  induction times as [ | time times IH ]; intros this tower shots Hconfig Hlevel Hlast Hspaced.
  - cbn. repeat split; auto.
  - cbn [fold_left].
    assert (Hstats : Tower.getStats tower = Tower.getStats this)
      by (unfold Tower.getStats; now rewrite Hconfig, Hlevel).
    destruct (Tower.canFire time tower) eqn:Hcan.
    + unfold Tower.canFire in Hcan. rewrite Hconfig, Hstats in Hcan.
      destruct (Towers.projectileSpeed (Tower.config this) =? 0)%Z eqn:Hspeed;
        [ discriminate | ].
      apply Qle_bool_iff in Hcan. rewrite Hlast in Hcan.
      specialize (IH this (Tower.fire time tower) (shots ++ [time]) Hconfig Hlevel).
      cbn [Tower.fire Tower.lastFireTime Tower.totalInvested] in IH.
      rewrite last_last in IH.
      specialize (IH eq_refl (spacedFrom_snoc _ _ _ _ Hspaced Hcan)).
      destruct (fold_left _ times (Tower.fire time tower, shots ++ [time]))
        as [final all].
      destruct IH as (Hc & Hl & Hi & Hs & _ & Hin).
      repeat split; auto.
      * intros Hzero. apply Z.eqb_neq in Hspeed. contradiction.
      * intros shot Hshot. destruct (Hin shot Hshot) as [ Hold | Hlater ].
        -- apply in_app_or in Hold. destruct Hold as [ Hold | [ <- | [] ] ].
           ++ now left.
           ++ right. now left.
        -- right. now right.
    + specialize (IH this tower shots Hconfig Hlevel Hlast Hspaced).
      destruct (fold_left _ times (tower, shots)) as [final all].
      destruct IH as (Hc & Hl & Hi & Hs & Hz & Hin).
      repeat split; auto.
      intros shot Hshot. destruct (Hin shot Hshot); [ now left | right; now right ].
Qed.

(** X28.  A tower that fires whenever it can keeps its rate: every shot comes at
    least the fire rate of its statistics after the one before it, the
    first at least that long after the last shot on record; a tower whose
    projectile speed is 0 never fires; firing changes neither level nor
    investment. *)
Theorem tower_keeps_its_fire_rate (times : list Q) (this : Tower.t) :
  let '(tower, shots) := fireRun times this in
  spacedFrom (inject_Z (Tower.fireRate (Tower.getStats this)))
             (Tower.lastFireTime this) shots
  /\ ((Towers.projectileSpeed (Tower.config this) = 0)%Z -> shots = [])
  /\ (forall shot, In shot shots -> In shot times)
  /\ Tower.level tower = Tower.level this
  /\ Tower.totalInvested tower = Tower.totalInvested this.
Proof.
  unfold fireRun.
  pose proof (fireRun_spaced times this this [] eq_refl eq_refl eq_refl I) as Hrun.
  destruct (fold_left _ times (this, [])) as [tower shots].
  destruct Hrun as (_ & Hlevel & Hinvested & Hspaced & Hzero & Hin).
  repeat split; auto.
  intros shot Hshot. destruct (Hin shot Hshot) as [ [] | Htime ]. exact Htime.
Qed.

(** ** The scene's ledger *)

Lemma getUpgradeCost_paid (currentTime : Z) (tower : Tower.t) :
  (0 <= Tower.totalInvested tower)%Z ->
  (0 <= Tower.totalInvested (snd (fst (Tower.upgrade currentTime tower))))%Z.
Proof.
  intros Hinvested. unfold Tower.upgrade.
  destruct (3 <=? Tower.level tower)%Z; [ exact Hinvested | ].
  destruct (currentTime - Tower.lastUpgradeTime tower <? Tower.UPGRADE_COOLDOWN)%Z;
    [ exact Hinvested | ].
  destruct (Tower.getUpgradeCost _ <? 0)%Z eqn:Hneg; [ exact Hinvested | ].
  apply Z.ltb_ge in Hneg. cbn [fst snd Tower.totalInvested]. lia.
Qed.

Lemma store_Forall (P : Tower.t -> Prop) (tower : Tower.t) :
  P tower ->
  forall (i : nat) (towers : list Tower.t),
    Forall P towers -> Forall P (BattleScene.store i tower towers).
Proof.
  intros Htower i. induction i as [ | i IH ]; intros towers Hall;
    destruct Hall as [ | first rest Hfirst Hrest ]; cbn; auto.
Qed.

Lemma remove_at_Forall (P : Tower.t -> Prop) :
  forall (i : nat) (towers : list Tower.t),
    Forall P towers -> Forall P (BattleScene.remove_at i towers).
Proof.
  induction i as [ | i IH ]; intros towers Hall;
    destruct Hall as [ | first rest Hfirst Hrest ]; cbn; auto.
Qed.

Lemma nth_error_Forall (P : Tower.t -> Prop) (towers : list Tower.t) (i : nat)
  (tower : Tower.t) :
  Forall P towers -> nth_error towers i = Some tower -> P tower.
Proof.
  intros Hall Hnth. apply nth_error_In in Hnth.
  revert tower Hnth. now apply Forall_forall.
Qed.

Lemma act_keeps_gold (action : Action) (this after : BattleScene.t) :
  (0 <= BattleScene.gold this)%Z ->
  Forall (fun tower => (0 <= Tower.totalInvested tower)%Z) (BattleScene.towers this) ->
  match action with
  | Killed enemy => (0 <= Enemies.reward enemy)%Z
  | _ => True
  end ->
  act action this = Some after ->
  (0 <= BattleScene.gold after)%Z
  /\ Forall (fun tower => (0 <= Tower.totalInvested tower)%Z) (BattleScene.towers after)
  /\ BattleScene.lives after = BattleScene.lives this
  /\ BattleScene.gameOver after = BattleScene.gameOver this
  /\ (List.length (BattleScene.towers after) <= List.length (BattleScene.towers this))%nat.
Proof.
  intros Hgold Htowers Haction Hact.
  destruct action as [ enemy | currentTime i | i ]; cbn [act] in Hact.
  - injection Hact as <-. cbn. repeat split; auto. lia.
  - unfold BattleScene.upgradeTower in Hact.
    destruct (nth_error (BattleScene.towers this) i) as [ tower | ] eqn:Hnth;
      [ | discriminate ].
    pose proof (nth_error_Forall _ _ _ _ Htowers Hnth) as Hinvested.
    destruct (Tower.getUpgradeCost tower <? 0)%Z eqn:Hneg.
    { injection Hact as <-. repeat split; auto. }
    destruct (BattleScene.gold this <? Tower.getUpgradeCost tower)%Z eqn:Hpoor.
    { injection Hact as <-. repeat split; auto. }
    apply Z.ltb_ge in Hneg, Hpoor.
    pose proof (getUpgradeCost_paid currentTime tower Hinvested) as Hpaid.
    destruct (Tower.upgrade currentTime tower) as [ [actualCost upgraded] events ].
    cbn [fst snd] in Hpaid. cbn [option_map fst] in Hact. injection Hact as <-.
    cbn [BattleScene.with_towers BattleScene.with_gold BattleScene.gold
         BattleScene.towers BattleScene.lives BattleScene.gameOver].
    split; [ lia | ]. split; [ now apply store_Forall | ].
    rewrite store_length. repeat split; auto.
  - unfold BattleScene.sellTower in Hact.
    destruct (nth_error (BattleScene.towers this) i) as [ tower | ] eqn:Hnth;
      [ | discriminate ].
    pose proof (nth_error_Forall _ _ _ _ Htowers Hnth) as Hinvested.
    injection Hact as <-.
    cbn [BattleScene.with_towers BattleScene.addGold BattleScene.with_gold
         BattleScene.gold BattleScene.towers BattleScene.lives BattleScene.gameOver].
    unfold Tower.getSellPrice. rewrite floor_half.
    split; [ pose proof (Z.div_pos (Tower.totalInvested tower) 2 Hinvested); lia | ].
    split; [ now apply remove_at_Forall | ].
    split; [ reflexivity | ]. split; [ reflexivity | ].
    clear. generalize (BattleScene.towers this) as towers.
    induction i as [ | i IH ]; intros [ | first rest ]; cbn; auto.
    specialize (IH rest). lia.
Qed.

(** X29.  Kills that pay a non-negative reward, upgrade requests and sales, in
    any order and at any times, never leave the scene with negative gold
    when it starts with none owed and the towers' investments are not
    negative; they touch neither the lives nor the game-over flag, and add
    no tower. *)
Theorem gold_never_negative (actions : list Action) :
  forall this after : BattleScene.t,
    (0 <= BattleScene.gold this)%Z ->
    Forall (fun tower => (0 <= Tower.totalInvested tower)%Z) (BattleScene.towers this) ->
    Forall (fun action => match action with
                          | Killed enemy => (0 <= Enemies.reward enemy)%Z
                          | _ => True
                          end) actions ->
    actAll actions this = Some after ->
    (0 <= BattleScene.gold after)%Z
    /\ Forall (fun tower => (0 <= Tower.totalInvested tower)%Z) (BattleScene.towers after)
    /\ BattleScene.lives after = BattleScene.lives this
    /\ BattleScene.gameOver after = BattleScene.gameOver this
    /\ (List.length (BattleScene.towers after) <= List.length (BattleScene.towers this))%nat.
Proof.
  induction actions as [ | action actions IH ]; intros this after Hgold Htowers Hactions Hrun.
  - injection Hrun as <-. repeat split; auto.
  - cbn [actAll] in Hrun.
    destruct (act action this) as [ next | ] eqn:Hact; [ | discriminate ].
    inversion Hactions as [ | ? ? Haction Hrest ]; subst.
    destruct (act_keeps_gold action this next Hgold Htowers Haction Hact)
      as (Hgold' & Htowers' & Hlives & Hover & Hlen).
    destruct (IH next after Hgold' Htowers' Hrest Hrun)
      as (Hg & Ht & Hl & Ho & Hn).
    repeat split; auto; try congruence. lia.
Qed.

Lemma gold_never_negative_witness :
  exists after,
    actAll [ Upgrade 1000 0; Killed (snd (mkEnemy "goblin" 40 45 1 8 [SWARM] 1));
             Upgrade 1100 0; Sell 0 ]
      {| BattleScene.gold := 500; BattleScene.lives := 20;
         BattleScene.gameOver := false;
         BattleScene.towers :=
           [ Tower.constructor
               (snd (Towers.mkTower "ember_watch" 50 15 180 600 500 FIRE None)) ] |}
    = Some after
    /\ (0 <= BattleScene.gold after)%Z.
Proof.
  eexists. split; [ vm_compute; reflexivity | ].
  apply (gold_never_negative
           [ Upgrade 1000 0; Killed (snd (mkEnemy "goblin" 40 45 1 8 [SWARM] 1));
             Upgrade 1100 0; Sell 0 ]
           {| BattleScene.gold := 500; BattleScene.lives := 20;
              BattleScene.gameOver := false;
              BattleScene.towers :=
                [ Tower.constructor
                    (snd (Towers.mkTower "ember_watch" 50 15 180 600 500 FIRE None)) ] |}).
  - cbn. lia.
  - repeat constructor. cbn. lia.
  - repeat constructor. cbn. lia.
  - vm_compute. reflexivity.
Defined.

(** X30.  Enemies reaching the base, in any number: the lives go down by the sum
    of their damage, gold and towers are untouched, and a game that is
    over stays over.  When no damage is negative and at least one enemy
    got through, the game is over afterwards exactly when it was over
    before or no life is left. *)
Theorem lives_ledger (reached : list EnemyConfig) (this : BattleScene.t) :
  let final :=
    fold_left (fun scene enemy => BattleScene.onEnemyReachedBase enemy scene)
              reached this in
  BattleScene.lives final
  = (BattleScene.lives this
     - fold_left (fun total enemy => (total + Enemies.damage enemy)%Z) reached 0)%Z
  /\ BattleScene.gold final = BattleScene.gold this
  /\ BattleScene.towers final = BattleScene.towers this
  /\ (BattleScene.gameOver this = true -> BattleScene.gameOver final = true)
  /\ (Forall (fun enemy => (0 <= Enemies.damage enemy)%Z) reached -> reached <> [] ->
      (BattleScene.gameOver final = true
       <-> BattleScene.gameOver this = true \/ (BattleScene.lives final <= 0)%Z)).
Proof.
  cbv zeta.
  assert (Hsum : forall (foes : list EnemyConfig) (start : Z),
             fold_left (fun total enemy => (total + Enemies.damage enemy)%Z) foes start
             = (start + fold_left (fun total enemy => (total + Enemies.damage enemy)%Z)
                                  foes 0)%Z).
  { induction foes as [ | enemy foes IHs ]; intros start; cbn [fold_left].
    - lia.
    - rewrite (IHs (start + Enemies.damage enemy)%Z), (IHs (0 + Enemies.damage enemy)%Z).
      lia. }
  assert (Hstep : forall enemy scene,
             BattleScene.lives (BattleScene.onEnemyReachedBase enemy scene)
             = (BattleScene.lives scene - Enemies.damage enemy)%Z
             /\ BattleScene.gold (BattleScene.onEnemyReachedBase enemy scene)
                = BattleScene.gold scene
             /\ BattleScene.towers (BattleScene.onEnemyReachedBase enemy scene)
                = BattleScene.towers scene
             /\ BattleScene.gameOver (BattleScene.onEnemyReachedBase enemy scene)
                = BattleScene.gameOver scene
                  || (BattleScene.lives scene - Enemies.damage enemy <=? 0)%Z).
  { intros enemy scene. unfold BattleScene.onEnemyReachedBase, BattleScene.loseLife.
    cbn [BattleScene.lives].
    destruct (BattleScene.lives scene - Enemies.damage enemy <=? 0)%Z;
      cbn [BattleScene.defeat BattleScene.lives BattleScene.gold BattleScene.towers
           BattleScene.gameOver];
      rewrite ?orb_true_r, ?orb_false_r; repeat split. }
  revert this. induction reached as [ | enemy reached IH ]; intros this.
  - cbn. repeat split; auto; try lia; intros; congruence.
  - cbn [fold_left].
    destruct (Hstep enemy this) as (Hl & Hg & Ht & Ho).
    destruct (IH (BattleScene.onEnemyReachedBase enemy this))
      as (Hlives & Hgold & Htowers & Hsticky & Hiff).
    split; [ rewrite Hlives, Hl, (Hsum reached (0 + Enemies.damage enemy)%Z); lia | ].
    split; [ now rewrite Hgold | ]. split; [ now rewrite Htowers | ].
    split.
    + intros Hover. apply Hsticky. rewrite Ho, Hover. reflexivity.
    + intros Hnonneg _. inversion Hnonneg as [ | ? ? Hdamage Hrest ]; subst.
      destruct reached as [ | next reached ].
      * cbn [fold_left]. rewrite Ho, orb_true_iff, Z.leb_le, Hl. tauto.
      * pose proof (Hiff Hrest ltac:(discriminate)) as Hlater.
        rewrite Ho, orb_true_iff, Z.leb_le in Hlater.
        assert (Hgrow : forall (foes : list EnemyConfig) (start : Z),
                   Forall (fun enemy => (0 <= Enemies.damage enemy)%Z) foes ->
                   (0 <= start)%Z ->
                   (0 <= fold_left (fun total enemy => (total + Enemies.damage enemy)%Z)
                                   foes start)%Z).
        { clear. induction foes as [ | enemy' foes' IHg ]; intros start Hall Hstart;
            cbn [fold_left]; [ exact Hstart | ].
          inversion Hall as [ | ? ? Hd Hothers ]; subst.
          apply IHg; [ exact Hothers | lia ]. }
        pose proof (Hgrow (next :: reached) 0%Z Hrest ltac:(lia)) as Hmore.
        rewrite Hlives, Hl in Hlater |- *.
        split; intros Hcase.
        -- apply Hlater in Hcase. destruct Hcase as [ [ Hcase | Hcase ] | Hcase ];
             [ now left | right; lia | now right ].
        -- apply Hlater. destruct Hcase as [ Hcase | Hcase ];
             [ left; now left | now right ].
Qed.
